(** * wfmash: command-line parameters and the alignment driver

    A shallow embedding of

    - [handy_parameter] and [parse_args]  (src/interface/parse_args.hpp),
    - [parseMashmapRow], [getRefSequences], [computeAlignments] with its
      reader, worker and writer threads, and [doAlignment]
      (computeAlignments.hpp, class [align::Aligner]; the file
      unnamed/part_001 of the sources),

    followed by the properties of these functions that the
    specification of the program states (C1 to C10) and by further
    properties read off the code (X1 to X25).  C++ integers are
    [Z] with the conversions written out, [std::string] is [string],
    [std::vector] is [list], IEEE binary32/binary64 values are
    [spec_float] with the operations of [SpecFloat], and a call that can
    leave the function other than by returning has an [outcome]. *)

From Stdlib Require Import ZArith List String Ascii Bool Lia.
From Stdlib Require Import Floats.SpecFloat.
Import ListNotations.

Local Open Scope string_scope.
Local Open Scope Z_scope.

(** ** How a C++ evaluation can end *)

Inductive exception : Type :=
| invalid_argument   (* std::invalid_argument *)
| out_of_range.      (* std::out_of_range *)

Inductive undefined : Type :=
| string_index (pos size : Z)        (* s[pos] with pos > s.size() *)
| vector_index (pos size : Z)        (* v[pos] with pos >= v.size() *)
| float_to_int.                      (* value not representable in the target *)

Inductive outcome (A : Type) : Type :=
| Returns (a : A)
| Throws (e : exception)             (* an exception leaves the function *)
| AssertionFailed (cond : string)    (* assert(cond) failed: abort() *)
| Exits (code : Z)                   (* exit(code) *)
| Undefined (u : undefined).         (* undefined behaviour *)

Arguments Returns {A} a.
Arguments Throws {A} e.
Arguments AssertionFailed {A} cond.
Arguments Exits {A} code.
Arguments Undefined {A} u.

Definition bind {A B} (x : outcome A) (f : A -> outcome B) : outcome B :=
  match x with
  | Returns a => f a
  | Throws e => Throws e
  | AssertionFailed c => AssertionFailed c
  | Exits c => Exits c
  | Undefined u => Undefined u
  end.

Notation "x <- e1 ;; e2" := (bind e1 (fun x => e2))
  (at level 61, e1 at next level, right associativity).

(** ** Machine integers *)

Definition UINT64_MAX : Z := 2 ^ 64 - 1.
Definition INT_MAX : Z := 2 ^ 31 - 1.
Definition INT_MIN : Z := - 2 ^ 31.

(** Conversion of an integer to [uint64_t]. *)
Definition to_uint64 (z : Z) : Z := z mod 2 ^ 64.

(** ** Characters and strings *)

Definition is_digit (c : ascii) : bool :=
  let n := Z.of_nat (nat_of_ascii c) in (48 <=? n) && (n <=? 57).

Definition digit_value (c : ascii) : Z := Z.of_nat (nat_of_ascii c) - 48.

(** [isspace] in the "C" locale. *)
Definition isspace (c : ascii) : bool :=
  let n := Z.of_nat (nat_of_ascii c) in (n =? 32) || ((9 <=? n) && (n <=? 13)).

Definition slen (s : string) : Z := Z.of_nat (String.length s).

Fixpoint string_forallb (p : ascii -> bool) (s : string) : bool :=
  match s with
  | EmptyString => true
  | String c r => p c && string_forallb p r
  end.

Fixpoint string_count (p : ascii -> bool) (s : string) : Z :=
  match s with
  | EmptyString => 0
  | String c r => (if p c then 1 else 0) + string_count p r
  end.

(** [s[pos]] on a [const std::string]: the character at [pos], the
    terminating NUL at [pos = size()], undefined beyond. *)
Definition string_at (s : string) (pos : Z) : outcome ascii :=
  if (0 <=? pos) && (pos <=? slen s) then
    match String.get (Z.to_nat pos) s with
    | Some c => Returns c
    | None => Returns zero
    end
  else Undefined (string_index pos (slen s)).

(** [s.substr(0, n)]. *)
Definition substr0 (s : string) (n : Z) : string :=
  String.substring 0 (Z.to_nat n) s.

(** ** IEEE arithmetic used by the sources *)

Module Float.

(** binary32 ([float]) and binary64 ([double]). *)
Definition prec32 : Z := 24.
Definition emax32 : Z := 128.
Definition prec64 : Z := 53.
Definition emax64 : Z := 1024.

(** A positive integer as a (possibly unnormalised) finite value. *)
Definition of_pos (p : positive) : spec_float := S754_finite false p 0.

(** [num / 10^k] rounded to nearest-even in binary32: the value
    [strtof] gives for the decimal numeral with digits [num] and [k]
    of them after the point. *)
Definition decimal32 (num : Z) (k : nat) : spec_float :=
  match num with
  | Zpos p => SFdiv prec32 emax32 (of_pos p) (of_pos (Z.to_pos (10 ^ Z.of_nat k)))
  | _ => S754_zero false
  end.

(** Whether [f] is exactly [num / 10^k]. *)
Definition exactly (f : spec_float) (num : Z) (k : nat) : bool :=
  match f with
  | S754_zero _ => num =? 0
  | S754_finite false m e =>
      if 0 <=? e then Zpos m * 2 ^ e * 10 ^ Z.of_nat k =? num
      else Zpos m * 10 ^ Z.of_nat k =? num * 2 ^ (- e)
  | _ => false
  end.

(** Truncation toward zero of a finite value. *)
Definition truncate (f : spec_float) : option Z :=
  match f with
  | S754_zero _ => Some 0
  | S754_finite s m e =>
      let a := if 0 <=? e then Zpos m * 2 ^ e else Zpos m / 2 ^ (- e) in
      Some (if s then - a else a)
  | _ => None
  end.

(** [(int) d]: truncation; undefined when the truncated value is not
    an [int]. *)
Definition to_int (d : spec_float) : outcome Z :=
  match truncate d with
  | Some z => if (INT_MIN <=? z) && (z <=? INT_MAX) then Returns z
              else Undefined float_to_int
  | None => Undefined float_to_int
  end.

(** [(uint64_t) d]. *)
Definition to_uint64 (d : spec_float) : outcome Z :=
  match truncate d with
  | Some z => if (0 <=? z) && (z <=? UINT64_MAX) then Returns z
              else Undefined float_to_int
  | None => Undefined float_to_int
  end.

(** [pow(10, exp)] as a double, for the exponents 0, 3, 6, 9 that
    [handy_parameter] uses (each is an exact double). *)
Definition pow10 (exp : Z) : spec_float := of_pos (Z.to_pos (10 ^ exp)).

Definition mul64 := SFmul prec64 emax64.

End Float.

(** ** [handy_parameter]  (parse_args.hpp, lines 32-52) *)

(** The lambda [is_a_float]: non-empty, only characters of
    "0123456789.", fewer than two dots. *)
Definition is_dot (c : ascii) : bool := (c =? ".")%char.

Definition is_a_float (s : string) : bool :=
  negb (slen s =? 0)
  && string_forallb (fun c => is_digit c || is_dot c) s
  && (string_count is_dot s <? 2).

(** A run of decimal digits: the number read so far, how many digits
    were read, and what is left. *)
Fixpoint scan_digits (s : string) (acc : Z) (n : nat) : Z * nat * string :=
  match s with
  | String c r =>
      if is_digit c then scan_digits r (10 * acc + digit_value c) (S n)
      else (acc, n, s)
  | EmptyString => (acc, n, s)
  end.

(** Zero or subnormal in binary32. *)
Definition is_tiny (f : spec_float) : bool :=
  match f with
  | S754_zero _ => true
  | S754_finite _ m _ => Zpos (digits2_pos m) <? Float.prec32
  | _ => false
  end.

(** The value [std::stof] returns for the numeral with the digits of
    [num], [k] of them after the point: the nearest float, or
    [std::out_of_range] when [strtof] reports ERANGE (overflow, or a
    tiny inexact result). *)
Definition stof_value (num : Z) (k : nat) : outcome spec_float :=
  let f := Float.decimal32 num k in
  match f with
  | S754_infinity _ => Throws out_of_range
  | _ => if is_tiny f && negb (Float.exactly f num k)
         then Throws out_of_range else Returns f
  end.

(** [std::stof] on a numeral without sign and exponent, the only shape
    [is_a_float] lets through: digits, an optional point, digits.  No
    digit at all is [std::invalid_argument]. *)
Definition stof (s : string) : outcome spec_float :=
  let '(i, ni, rest) := scan_digits s 0 0 in
  let '(num, nf, _) :=
    match rest with
    | String c r => if is_dot c then scan_digits r i 0 else (i, O, rest)
    | EmptyString => (i, O, rest)
    end in
  if (ni + nf =? 0)%nat then Throws invalid_argument
  else stof_value num nf.

Definition char_is (c : ascii) (a b : ascii) : bool := (c =? a)%char || (c =? b)%char.

(** Lines 32-52.  [str_len - 1] is computed in [uint64_t]; the result
    of the [int] cast is returned as [int64_t]. *)
Definition handy_parameter (value : string) : outcome Z :=
  let str_len := slen value in
  last <- string_at value (to_uint64 (str_len - 1)) ;;
  let '(exp, str_len) :=
    if char_is last "k" "K" then (3, str_len - 1)
    else if char_is last "m" "M" then (6, str_len - 1)
    else if char_is last "g" "G" then (9, str_len - 1)
    else (0, str_len) in
  let tmp := substr0 value str_len in
  if is_a_float tmp then
    f <- stof tmp ;;
    Float.to_int (Float.mul64 f (Float.pow10 exp))
  else Returns (-1).

(** ** [std::stoi] *)

(** Base-10 [std::stoi]: leading white space, an optional sign, a run
    of digits; [std::invalid_argument] without a digit,
    [std::out_of_range] outside [int]. *)
Fixpoint skip_space (s : string) : string :=
  match s with
  | String c r => if isspace c then skip_space r else s
  | EmptyString => s
  end.

Definition stoi (s : string) : outcome Z :=
  let s := skip_space s in
  let '(neg, body) :=
    match s with
    | String c r =>
        if (c =? "-")%char then (true, r)
        else if (c =? "+")%char then (false, r) else (false, s)
    | EmptyString => (false, s)
    end in
  let '(n, nd, _) := scan_digits body 0 0 in
  if (nd =? 0)%nat then Throws invalid_argument
  else
    let v := if neg then - n else n in
    if (INT_MIN <=? v) && (v <=? INT_MAX) then Returns v
    else Throws out_of_range.

(** ** Command-line flags  (common/args.hxx) *)

(** What the program reads of an [args::Flag] or [args::ValueFlag]:
    [if (flag)] is [matched], [args::get(flag)] is [get].  A flag takes
    part in [parser.ParseCLI] only if it has been declared, in a group of
    the parser, when [ParseCLI] runs; one declared later is still as its
    constructor left it, [unparsed] with the default value of its type. *)
Record flag (T : Type) : Type := Flag { matched : bool; get : T }.
Arguments Flag {T} matched get.
Arguments matched {T} f.
Arguments get {T} f.

Definition unparsed {T} (default : T) : flag T := Flag false default.
Definition given {T} (v : T) : flag T := Flag true v.

(** The flags declared before [parser.ParseCLI(argc, argv)]
    (parse_args.hpp, lines 70-130), as [ParseCLI] leaves them. *)
Record command_line : Type := CommandLine {
  target_sequence_file : flag string;
  query_sequence_file : flag string;
  write_index : flag string;
  read_index : flag string;
  index_by : flag string;                (* -b, --batch *)
  sketch_size : flag Z;
  kmer_size : flag Z;
  approx_mapping : flag unit;            (* -m, --approx-mapping *)
  map_pct_identity : flag spec_float;    (* -p, a float *)
  num_mappings : flag Z;
  segment_length : flag string;          (* -s, --segment-length *)
  block_length : flag string;
  one_to_one : flag unit;
  lower_triangular : flag unit;
  skip_prefix : flag ascii;
  no_split : flag unit;
  chain_gap : flag string;
  max_mapping_length : flag string;
  no_filter : flag unit;
  no_merge : flag unit;
  input_mapping : flag string;           (* -i, --input-mapping *)
  wfa_params : flag string;              (* -g, --wfa-params (line 106) *)
  sam_format : flag unit;
  emit_md_tag : flag unit;
  no_seq_in_sam : flag unit;
  thread_count : flag Z;
  tmp_base : flag string;
  keep_temp_files : flag unit;
  version : flag unit
}.

(** How [parser.ParseCLI] ends: [args::Help], [args::ParseError], or
    normally with the declared flags filled in. *)
Inductive parse_cli : Type :=
| ParseHelp
| ParseError
| Parsed (cli : command_line).

(** What the callees outside parse_args.hpp answer.  Lines 274, 309,
    328, 342 and 570 call [wfmash::handy_parameter], which
    common/utils.hpp declares and the sources do not hold; it is not
    the [yeet::handy_parameter] of lines 32-52, which nothing in the
    file calls.  [wfmash_handy_parameter v] is the [int64_t] that the
    initialisers of those lines get from the call on [v], when it
    returns one. *)
Record environment : Type := Environment {
  wfmash_handy_parameter : string -> outcome Z;   (* wfmash::handy_parameter *)
  getReferenceSize : outcome Z;           (* skch::CommonFunc::getReferenceSize *)
  sequenceIdManager : outcome unit;       (* the SequenceIdManager constructor *)
  getcwd : option string;                 (* NULL is None *)
  temp_file_create : string;              (* temp_file::create() *)
  validateInputFiles : outcome unit       (* skch::validateInputFiles *)
}.

(** ** The parameter structures, as far as parse_args fills them *)

Inductive filter_mode : Type := MAP | ONETOONE | NONE.

(** [yeet::Parameters] (parse_args.hpp, lines 26-30). *)
Record yeet_Parameters : Type := YeetParameters {
  yeet_approx_mapping : bool;
  yeet_remapping : bool
}.

(** The value a default-constructed [yeet::Parameters] holds. *)
Definition yeet_default : yeet_Parameters := YeetParameters false false.

(** [skch::Parameters]. *)
Record skch_Parameters : Type := SkchParameters {
  skip_self : bool;
  map_lower_triangular : bool;
  keep_low_pct_id : bool;
  prefix_delim : ascii;
  map_skip_prefix : bool;
  refSequences : list string;
  querySequences : list string;
  referenceSize : Z;
  alphabetSize : Z;
  filterMode : filter_mode;
  sparsity_hash_threshold : Z;
  map_split : bool;
  mergeMappings : bool;
  segLength : Z;
  map_block_length : Z;
  map_chain_gap : Z;
  map_max_mapping_length : Z;
  kmerSize : Z;
  map_threads : Z;
  stage1_topANI_filter : bool;
  indexFilename : string;
  index_by_size : Z;
  outFileName : string;
  numMappingsForSegment : Z
}.

(** [align::Parameters]. *)
Record align_Parameters : Type := AlignParameters {
  align_refSequences : list string;
  align_querySequences : list string;
  wfa_mismatch_score : Z;
  wfa_gap_opening_score : Z;
  wfa_gap_extension_score : Z;
  wflign_mismatch_score : Z;
  wflign_gap_opening_score : Z;
  wflign_gap_extension_score : Z;
  wflign_min_wavefront_length : Z;
  emit_md_tag_p : bool;
  sam_format_p : bool;
  no_seq_in_sam_p : bool;
  force_wflign : bool;
  align_split : bool;
  align_chain_gap : Z;
  align_kmerSize : Z;
  min_identity : Z;
  wflambda_segment_length : Z;
  wflign_max_len_major : Z;
  wflign_max_len_minor : Z;
  wflign_erode_k : Z;
  wflign_max_patching_score : Z;
  align_threads : Z;
  mashmapPafFile : string;
  pafOutputFile : string
}.

Record parameters : Type := ParametersOut {
  map_parameters : skch_Parameters;
  align_parameters : align_Parameters;
  yeet_parameters : yeet_Parameters
}.

(** Structures whose vectors and strings are empty, for a caller that
    passes them so.  The other fields hold zero and false: parse_args
    assigns each of them and reads none. *)
Definition skch_empty : skch_Parameters :=
  {| skip_self := false; map_lower_triangular := false;
     keep_low_pct_id := false; prefix_delim := zero;
     map_skip_prefix := false; refSequences := []; querySequences := [];
     referenceSize := 0; alphabetSize := 0; filterMode := MAP;
     sparsity_hash_threshold := 0; map_split := false;
     mergeMappings := false; segLength := 0; map_block_length := 0;
     map_chain_gap := 0; map_max_mapping_length := 0; kmerSize := 0;
     map_threads := 0; stage1_topANI_filter := false; indexFilename := "";
     index_by_size := 0; outFileName := ""; numMappingsForSegment := 0 |}.

Definition align_empty : align_Parameters :=
  {| align_refSequences := []; align_querySequences := [];
     wfa_mismatch_score := 0; wfa_gap_opening_score := 0;
     wfa_gap_extension_score := 0; wflign_mismatch_score := 0;
     wflign_gap_opening_score := 0; wflign_gap_extension_score := 0;
     wflign_min_wavefront_length := 0; emit_md_tag_p := false;
     sam_format_p := false; no_seq_in_sam_p := false; force_wflign := false;
     align_split := false; align_chain_gap := 0; align_kmerSize := 0;
     min_identity := 0; wflambda_segment_length := 0;
     wflign_max_len_major := 0; wflign_max_len_minor := 0;
     wflign_erode_k := 0; wflign_max_patching_score := 0;
     align_threads := 0; mashmapPafFile := ""; pafOutputFile := "" |}.

(** ** [parse_args]  (parse_args.hpp, lines 54-667) *)

Definition INT64_MAX : Z := 2 ^ 63 - 1.

(** [std::numeric_limits<size_t>::max()] and
    [std::numeric_limits<uint64_t>::max()] on the 64-bit target. *)
Definition SIZE_MAX : Z := UINT64_MAX.

(** The double nearest to an unsigned integer. *)
Definition uint64_to_double (z : Z) : spec_float :=
  binary_normalize Float.prec64 Float.emax64 z 0 false.

Definition double_one : spec_float := S754_finite false (2 ^ 52) (-52).
Definition float_fifty : spec_float := S754_finite false 13107200 (-18).

(** Lines 213-224: the sparsification factor. *)
Definition sparsification_block (map_sparsification : flag spec_float) : outcome Z :=
  if matched map_sparsification then
    if SFeqb (get map_sparsification) double_one then
      Returns UINT64_MAX
    else
      Float.to_uint64
        (Float.mul64 (get map_sparsification) (uint64_to_double UINT64_MAX))
  else Returns UINT64_MAX.

(** Lines 273-296: the segment length.  [approx] is what
    [yeet_parameters.approx_mapping] holds when line 287 reads it, and
    [handy] is the callee [wfmash::handy_parameter], here and in the
    blocks below. *)
Definition segment_length_block (handy : string -> outcome Z)
  (segment_length : flag string) (approx : bool) : outcome Z :=
  if matched segment_length then
    s <- handy (get segment_length) ;;
    if s <=? 0 then Exits 1
    else if s <? 100 then Exits 1
    else if negb approx && (10000 <? s) then Exits 1
    else Returns s
  else Returns 1000.

(** Lines 298-306, the test only. *)
Definition map_pct_identity_block (map_pct_identity : flag spec_float) : outcome unit :=
  if matched map_pct_identity then
    if SFltb (get map_pct_identity) float_fifty then Exits 1 else Returns tt
  else Returns tt.

(** Lines 308-325. *)
Definition block_length_block (handy : string -> outcome Z)
  (block_length : flag string) (approx : bool) (segLength : Z) : outcome Z :=
  if matched block_length then
    l <- handy (get block_length) ;;
    if l <? 0 then Exits 1
    else if negb approx && (30000 <? l) then Exits 1
    else Returns l
  else Returns (3 * segLength).

(** Lines 327-338. *)
Definition chain_gap_block (handy : string -> outcome Z)
  (chain_gap : flag string) : outcome Z :=
  if matched chain_gap then
    l <- handy (get chain_gap) ;;
    if l <? 0 then Exits 1 else Returns l
  else Returns 2000.

(** Lines 340-356. *)
Definition max_mapping_length_block (handy : string -> outcome Z)
  (max_mapping_length : flag string) (approx : bool) : outcome Z :=
  if matched max_mapping_length then
    l <- (if (get max_mapping_length =? "inf")%string then Returns INT64_MAX
          else handy (get max_mapping_length)) ;;
    if l <=? 0 then Exits 1
    else if negb approx && (100000 <? l) then Exits 1
    else Returns l
  else Returns 50000.

(** Lines 482-492, the test only. *)
Definition hg_numerator_block (hg_numerator : flag spec_float) : outcome unit :=
  if matched hg_numerator then
    if SFltb (get hg_numerator) double_one then Exits 1 else Returns tt
  else Returns tt.

(** Lines 569-578: the batch size of the index. *)
Definition index_by_block (handy : string -> outcome Z)
  (index_by : flag string) : outcome Z :=
  if matched index_by then
    index_size <- handy (get index_by) ;;
    if index_size <=? 0 then Exits 1 else Returns index_size
  else Returns SIZE_MAX.

(** Lines 580-610: the output files, [yeet_parameters] and the mapping
    file the aligner reads. *)
Record output_files : Type := OutputFiles {
  of_outFileName : string;
  of_mashmapPafFile : string;
  of_pafOutputFile : string;
  of_yeet : yeet_Parameters
}.

(** With -m, lines 581-582 leave [mashmapPafFile] and [pafOutputFile]
    as the caller passed them in [align_parameters], here [align0]. *)
Definition approx_mapping_block (cli : command_line) (env : environment)
  (align0 : align_Parameters) (yeet : yeet_Parameters) : outcome output_files :=
  if matched (approx_mapping cli) then
    Returns (OutputFiles "/dev/stdout" (mashmapPafFile align0)
               (pafOutputFile align0)
               (YeetParameters true (yeet_remapping yeet)))
  else
    _ <- (if matched (tmp_base cli) then Returns tt
          else match getcwd env with
               | Some _ => Returns tt
               | None => Exits 1
               end) ;;
    if matched (input_mapping cli) then
      Returns (OutputFiles (get (input_mapping cli)) (get (input_mapping cli))
                 "/dev/stdout" (YeetParameters false true))
    else
      Returns (OutputFiles (temp_file_create env) (temp_file_create env)
                 "/dev/stdout" (YeetParameters false (yeet_remapping yeet))).

(** Lines 632-642. *)
Definition num_mappings_for_segments_block (f : flag Z) : outcome Z :=
  if matched f then
    if 0 <? get f then Returns (get f) else Exits 1
  else Returns 1.

Section ParseArgs.

(** [skch::CommonFunc::split] lives in map/include/commonFunc.hpp,
    which is not among the sources: the functions that call it take
    it as a parameter. *)
Variable split : string -> ascii -> list string.

(** Lines 227-246: the three end-to-end penalties. *)
Definition wfa_score_params_block (wfa_score_params : flag string)
  : outcome (Z * Z * Z) :=
  if negb (slen (get wfa_score_params) =? 0) then
    let params_str := split (get wfa_score_params) "," in
    if negb (Z.of_nat (List.length params_str) =? 3) then Exits 1
    else
      match params_str with
      | [s0; s1; s2] =>
          p0 <- stoi s0 ;; p1 <- stoi s1 ;; p2 <- stoi s2 ;;
          Returns (p0, p1, p2)
      | _ => Exits 1
      end
  else Returns (2, 3, 1).

(** [parse_args], given how [ParseCLI] ended, the three structures as
    the caller passed them ([map0], [align0], [yeet0]) and the answers of
    the callees.  Of the caller's structures the function reads the
    sequence files, to which lines 182-197 add, the two file names that
    lines 581-582 leave alone, and [yeet_parameters].  The tests that
    can end the process are all here, in the order of the source; of
    the assignments, those of floating-point fields
    ([percentageIdentity], [overlap_threshold], [sketchSize], the
    hypergeometric filter) and of the name filters are left out, no
    test of [parse_args] reads them. *)
Definition parse_args (argc : Z) (cli_result : parse_cli)
  (map0 : skch_Parameters) (align0 : align_Parameters)
  (yeet0 : yeet_Parameters) (env : environment) : outcome parameters :=
  (* lines 132-141 *)
  match cli_result with
  | ParseHelp => Exits 0
  | ParseError => Exits 1
  | Parsed cli =>
  (* lines 143-151 *)
  if matched (version cli) then Exits 0
  else if (argc =? 1) || negb (matched (target_sequence_file cli)) then Exits 1
  else
  (* lines 157-163 *)
  let delim := if matched (skip_prefix cli) then get (skip_prefix cli) else "#"%char in
  let skip_pfx := if matched (skip_prefix cli)
                  then negb (get (skip_prefix cli) =? zero)%char else true in
  (* lines 181-185: the target is matched here, see line 148 *)
  let refs := (refSequences map0 ++ [get (target_sequence_file cli)])%list in
  let arefs :=
    (align_refSequences align0 ++ [get (target_sequence_file cli)])%list in
  referenceSize <- getReferenceSize env ;;
  (* lines 187-190 *)
  let queries := if matched (query_sequence_file cli)
                 then (querySequences map0 ++ [get (query_sequence_file cli)])%list
                 else querySequences map0 in
  let aqueries := if matched (query_sequence_file cli)
                  then (align_querySequences align0
                        ++ [get (query_sequence_file cli)])%list
                  else align_querySequences align0 in
  (* lines 194-198: the test reads the vector of map_parameters only *)
  let no_query := match queries with [] => true | _ :: _ => false end in
  let queries := if no_query then (queries ++ [List.last refs ""])%list
                 else queries in
  let aqueries := if no_query then (aqueries ++ [List.last arefs ""])%list
                  else aqueries in
  (* lines 202-210 *)
  let mode := if matched (no_filter cli) then NONE
              else if matched (one_to_one cli) then ONETOONE else MAP in
  (* line 212: declared here, after ParseCLI has run *)
  let map_sparsification : flag spec_float := unparsed (S754_zero false) in
  sparsity <- sparsification_block map_sparsification ;;
  (* line 226: declared here, after ParseCLI has run *)
  let wfa_score_params : flag string := unparsed "" in
  wfa <- wfa_score_params_block wfa_score_params ;;
  (* line 265: declared here, after ParseCLI has run *)
  let force_wflign_flag : flag unit := unparsed tt in
  (* lines 273-296; yeet_parameters is still as the caller passed it *)
  s <- segment_length_block (wfmash_handy_parameter env) (segment_length cli)
         (yeet_approx_mapping yeet0) ;;
  _ <- map_pct_identity_block (map_pct_identity cli) ;;
  l <- block_length_block (wfmash_handy_parameter env) (block_length cli)
         (yeet_approx_mapping yeet0) s ;;
  c <- chain_gap_block (wfmash_handy_parameter env) (chain_gap cli) ;;
  P <- max_mapping_length_block (wfmash_handy_parameter env)
         (max_mapping_length cli) (yeet_approx_mapping yeet0) ;;
  (* lines 358-361 *)
  if P <=? s then Exits 1
  else
  (* lines 370-381 *)
  let k := if matched (kmer_size cli) then get (kmer_size cli) else 15 in
  (* line 438: declared here, after ParseCLI has run *)
  let wflambda_segment_length_flag : flag Z := unparsed 0 in
  let wflambda := if matched wflambda_segment_length_flag
                  then get wflambda_segment_length_flag else 256 in
  (* lines 451-457 *)
  let t := if matched (thread_count cli) then get (thread_count cli) else 1 in
  (* line 482: declared here, after ParseCLI has run *)
  let hg_numerator : flag spec_float := unparsed (S754_zero false) in
  _ <- hg_numerator_block hg_numerator ;;
  (* lines 495-502 *)
  _ <- sequenceIdManager env ;;
  (* line 526: declared here, after ParseCLI has run *)
  let no_hg_filter : flag unit := unparsed tt in
  (* lines 559-578 *)
  let index_file := if matched (read_index cli) then get (read_index cli) else "" in
  batch <- index_by_block (wfmash_handy_parameter env) (index_by cli) ;;
  (* lines 580-610 *)
  files <- approx_mapping_block cli env align0 yeet0 ;;
  (* line 632: declared here, after ParseCLI has run *)
  let num_mappings_for_segments : flag Z := unparsed 0 in
  n <- num_mappings_for_segments_block num_mappings_for_segments ;;
  (* line 649 *)
  _ <- validateInputFiles env ;;
  Returns
    (ParametersOut
       {| skip_self := false;
          map_lower_triangular := matched (lower_triangular cli);
          keep_low_pct_id := true;
          prefix_delim := delim;
          map_skip_prefix := skip_pfx;
          refSequences := refs;
          querySequences := queries;
          referenceSize := referenceSize;
          alphabetSize := 4;
          filterMode := mode;
          sparsity_hash_threshold := sparsity;
          map_split := negb (matched (no_split cli));
          mergeMappings := negb (matched (no_merge cli));
          segLength := s;
          map_block_length := l;
          map_chain_gap := c;
          map_max_mapping_length := P;
          kmerSize := k;
          map_threads := t;
          stage1_topANI_filter := negb (matched no_hg_filter);
          indexFilename := index_file;
          index_by_size := batch;
          outFileName := of_outFileName files;
          numMappingsForSegment := n |}
       {| align_refSequences := arefs;
          align_querySequences := aqueries;
          wfa_mismatch_score := fst (fst wfa);
          wfa_gap_opening_score := snd (fst wfa);
          wfa_gap_extension_score := snd wfa;
          wflign_mismatch_score := 2;
          wflign_gap_opening_score := 3;
          wflign_gap_extension_score := 1;
          wflign_min_wavefront_length := 1024;
          emit_md_tag_p := matched (emit_md_tag cli);
          sam_format_p := matched (sam_format cli);
          no_seq_in_sam_p := matched (no_seq_in_sam cli);
          force_wflign := matched force_wflign_flag;
          align_split := negb (matched (no_split cli));
          align_chain_gap := c;
          align_kmerSize := k;
          min_identity := 0;
          wflambda_segment_length := wflambda;
          wflign_max_len_major := s * 512;
          wflign_max_len_minor := s * 128;
          wflign_erode_k := -1;
          wflign_max_patching_score := 0;
          align_threads := t;
          mashmapPafFile := of_mashmapPafFile files;
          pafOutputFile := of_pafOutputFile files |}
       (of_yeet files))
  end.

End ParseArgs.

(** One way to fill the missing [split]: cut at every delimiter, as a
    [std::getline] loop does (a final empty piece is dropped). *)
Fixpoint split_at (s : string) (delim : ascii) (cur : string) : list string :=
  match s with
  | EmptyString => if slen cur =? 0 then [] else [cur]
  | String c r =>
      if (c =? delim)%char then cur :: split_at r delim ""
      else split_at r delim (cur ++ String c "")%string
  end.

Definition getline_split (s : string) (delim : ascii) : list string :=
  split_at s delim "".

(** ** [align::Aligner]  (computeAlignments.hpp) *)

(** [tokens[pos]] on a [std::vector]. *)
Definition vector_at {A} (v : list A) (pos : nat) : outcome A :=
  match nth_error v pos with
  | Some a => Returns a
  | None => Undefined (vector_index (Z.of_nat pos) (Z.of_nat (List.length v)))
  end.

(** [while (ss >> word) tokens.push_back(word)]: the maximal runs of
    characters that are not white space. *)
Fixpoint words (s : string) (cur : string) : list string :=
  match s with
  | EmptyString => if slen cur =? 0 then [] else [cur]
  | String c r =>
      if isspace c
      then (if slen cur =? 0 then words r "" else cur :: words r "")
      else words r (cur ++ String c "")%string
  end.

Definition tokenize (line : string) : list string := words line "".

Inductive strand_t : Type := FWD | REV.

(** [MappingBoundaryRow], the fields the aligner fills and reads. *)
Record MappingBoundaryRow : Type := Row {
  qId : string;
  qStartPos : Z;
  qEndPos : Z;
  strand : strand_t;
  refId : string;
  rStartPos : Z;
  rEndPos : Z;
  mashmap_estimated_identity : spec_float;
  rankMapping : Z
}.

Section Aligner.

(** Whether the translation unit is compiled with NDEBUG, which
    turns [assert] into nothing. *)
Variable NDEBUG : bool.

(** Lines 125-127 compute the identity from the thirteenth token with
    [skch::CommonFunc::split], [wfmash::is_a_number] and
    [skch::fixed::percentage_identity], all three declared in headers
    that are not among the sources; the computation is a parameter. *)
Variable estimated_identity : string -> outcome spec_float.

Definition cpp_assert (holds : bool) (cond : string) : outcome unit :=
  if NDEBUG || holds then Returns tt else AssertionFailed cond.

(** Lines 111-140; [currentRecord] is passed in and handed back,
    since the function leaves [rankMapping] as it was. *)
Definition parseMashmapRow (mappingRecordLine : string)
  (currentRecord : MappingBoundaryRow) : outcome MappingBoundaryRow :=
  let tokens := tokenize mappingRecordLine in
  _ <- cpp_assert (9 <=? Z.of_nat (List.length tokens)) "tokens.size() >= 9" ;;
  t12 <- vector_at tokens 12 ;;
  mm_id <- estimated_identity t12 ;;
  t0 <- vector_at tokens 0 ;;
  t2 <- vector_at tokens 2 ;;
  qs <- stoi t2 ;;
  t3 <- vector_at tokens 3 ;;
  qe <- stoi t3 ;;
  t4 <- vector_at tokens 4 ;;
  t5 <- vector_at tokens 5 ;;
  t7 <- vector_at tokens 7 ;;
  rs <- stoi t7 ;;
  t8 <- vector_at tokens 8 ;;
  re <- stoi t8 ;;
  Returns {| qId := t0;
             qStartPos := qs;
             qEndPos := qe;
             strand := if (t4 =? "+")%string then FWD else REV;
             refId := t5;
             rStartPos := rs;
             rEndPos := re;
             mashmap_estimated_identity := mm_id;
             rankMapping := rankMapping currentRecord |}.

(** Lines 165-179: the first pass over the mapping file, one
    [std::getline] per element of [lines]. *)
Fixpoint count_mapped_bases (lines : list string)
  (currentRecord : MappingBoundaryRow) (total_alignment_length : Z)
  : outcome Z :=
  match lines with
  | [] => Returns total_alignment_length
  | mappingRecordLine :: rest =>
      if negb (slen mappingRecordLine =? 0) then
        rec <- parseMashmapRow mappingRecordLine currentRecord ;;
        count_mapped_bases rest rec
          (to_uint64 (total_alignment_length + (qEndPos rec - qStartPos rec)))
      else count_mapped_bases rest currentRecord total_alignment_length
  end.

(** What [std::getline] returns call after call on a file with this
    content, until [eof()]. *)
Fixpoint getlines (content : string) (cur : string) : list string :=
  match content with
  | EmptyString => [cur]
  | String c r =>
      if (c =? "010")%char then cur :: getlines r ""
      else getlines r (cur ++ String c "")%string
  end.

Definition default_row : MappingBoundaryRow :=
  Row "" 0 0 FWD "" 0 0 (S754_zero false) 0.

(** How a run of [computeAlignments] ends, and what has been written
    to [outstrm] (param.pafOutputFile, "/dev/stdout" after
    [parse_args]) when it has ended. *)
Record run_result : Type := RunResult {
  ending : outcome Z;            (* normally: total_alignment_length *)
  written : list string
}.

(** Lines 161-412.  The reader, the workers and the writer (lines
    200-407, [reachable] below) start after the first pass has ended;
    [pipeline_output] stands for what one run of them writes. *)
Variable pipeline_output : list string -> list string.

(** Once the first pass has read out of bounds the source fixes nothing
    of what follows, the output included: [after_undefined] stands for
    whatever is written then.  An exception, [abort()] and [exit] leave
    the first pass, which writes nothing itself, before line 181. *)
Variable after_undefined : undefined -> list string.

Definition computeAlignments (mashmapPafFile : string) : run_result :=
  let lines := getlines mashmapPafFile "" in
  match count_mapped_bases lines default_row 0 with
  | Returns total => RunResult (Returns total) (pipeline_output lines)
  | Undefined u => RunResult (Undefined u) (after_undefined u)
  | stopped => RunResult stopped []
  end.

End Aligner.

(** *** [doAlignment], lines 435-477: the two regions handed to wflign *)

Definition to_int64 (z : Z) : Z := (z + 2 ^ 63) mod 2 ^ 64 - 2 ^ 63.

Record regions : Type := Regions {
  head_padding : Z;
  tail_padding : Z;
  fetch_begin : Z;       (* p_beg_i of faidx_fetch_seq64 *)
  fetch_end : Z;         (* p_end_i of faidx_fetch_seq64 *)
  target_offset : Z;     (* where ref_seq points after the shift *)
  target_length : Z;     (* refLen *)
  query_offset : Z;      (* where queryRegion points *)
  query_length : Z       (* queryLen, the characters copied *)
}.

(** [wflign_max_len_minor] is a [uint64_t], the positions of the record
    are signed: the comparisons and the conditional operator work on
    [uint64_t]. *)
Definition doAlignment_regions (wflign_max_len_minor : Z) (ref_size : Z)
  (currentRecord : MappingBoundaryRow) : regions :=
  let head :=
    if wflign_max_len_minor <=? to_uint64 (rStartPos currentRecord)
    then wflign_max_len_minor else to_uint64 (rStartPos currentRecord) in
  let tail :=
    if wflign_max_len_minor <=? to_uint64 (ref_size - rEndPos currentRecord)
    then wflign_max_len_minor else to_uint64 (ref_size - rEndPos currentRecord) in
  {| head_padding := head;
     tail_padding := tail;
     fetch_begin := to_int64 (to_uint64 (rStartPos currentRecord - head));
     fetch_end := to_int64 (to_uint64 (rEndPos currentRecord + tail));
     target_offset := rStartPos currentRecord;
     target_length := rEndPos currentRecord - rStartPos currentRecord;
     query_offset := qStartPos currentRecord;
     query_length := qEndPos currentRecord - qStartPos currentRecord |}.

(** ** The reader, the workers and the writer  (lines 181-407) *)

(** The capacity both queue types are instantiated with, [2 << 16]
    (lines 58 and 60). *)
Definition queue_capacity : Z := Z.shiftl 2 16.

(** Modelled from the spec: [atomic_queue::AtomicQueue]
    (common/atomic_queue/atomic_queue.h is not among the sources), "a
    bounded queue of fixed capacity using blocking push on full".
    [push] has no step while the queue holds [queue_capacity] elements,
    and appends otherwise. *)
Definition queue_push {A} (q : list A) (a : A) : option (list A) :=
  if Z.of_nat (List.length q) <? queue_capacity then Some (q ++ [a])%list else None.

(** Modelled from the spec: [AtomicQueue::try_pop] of the same missing
    header: it fails on an empty queue and otherwise takes the oldest
    element. *)
Definition queue_try_pop {A} (q : list A) : option (A * list A) :=
  match q with
  | [] => None
  | a :: r => Some (a, r)
  end.

(** [seq_record_t], lines 47-56. *)
Record seq_record_t : Type := SeqRecord {
  currentRecord : MappingBoundaryRow;
  mappingRecordLine : string;
  qSequence : string
}.

(** Where the reader thread stands: the records its loops will still
    push, in order, then [reader_done.store(true)] (line 276). *)
Inductive reader_pc : Type :=
| RPush (pending : list seq_record_t)
| RFinished.

(** Where a worker thread stands (lines 334-380). *)
Inductive worker_pc : Type :=
| WStart                         (* 337: is_working.store(true) *)
| WTryPop                        (* 340: seq_queue.try_pop(rec) *)
| WReaderDone                    (* 341: the pop failed; reader_done.load() *)
| WAlign (rec : seq_record_t)    (* 348: doAlignment on the popped record *)
| WPush (paf_rec : string)       (* 360: paf_queue.push(paf_rec) *)
| WStoreIdle                     (* 379: is_working.store(false) *)
| WExited.

(** Where the writer thread stands (lines 280-306). *)
Inductive writer_pc : Type :=
| PTryPop                        (* 296: paf_queue.try_pop(paf_lines) *)
| PStillWorking (i : nat)        (* 283-285: the pop failed; working[i].load() *)
| PWrite (paf_lines : string)    (* 300: outstrm << *paf_lines *)
| PExited.

Record pipeline : Type := Pipeline {
  reader : reader_pc;
  seq_queue : list seq_record_t;
  paf_queue : list string;
  reader_done : bool;
  working : list bool;
  workers : list worker_pc;
  writer : writer_pc;
  outstrm : list string
}.

Inductive thread : Type :=
| Reader
| Writer
| Worker (tid : nat).

Fixpoint update {A} (l : list A) (i : nat) (a : A) : list A :=
  match l, i with
  | [], _ => []
  | _ :: r, O => a :: r
  | x :: r, S j => x :: update r j a
  end.

Section Pipeline.

(** What [doAlignment] leaves in [output] for a record on thread
    [tid]; wflign, which writes it, is not among the sources. *)
Variable doAlignment : seq_record_t -> nat -> string.

Definition set_worker (s : pipeline) (tid : nat) (pc : worker_pc) : pipeline :=
  {| reader := reader s; seq_queue := seq_queue s; paf_queue := paf_queue s;
     reader_done := reader_done s; working := working s;
     workers := update (workers s) tid pc;
     writer := writer s; outstrm := outstrm s |}.

Definition set_writer (s : pipeline) (pc : writer_pc) : pipeline :=
  {| reader := reader s; seq_queue := seq_queue s; paf_queue := paf_queue s;
     reader_done := reader_done s; working := working s;
     workers := workers s;
     writer := pc; outstrm := outstrm s |}.

Definition step_reader (s : pipeline) : option pipeline :=
  match reader s with
  | RPush (q :: rest) =>
      match queue_push (seq_queue s) q with
      | Some sq =>
          Some {| reader := RPush rest; seq_queue := sq; paf_queue := paf_queue s;
                  reader_done := reader_done s; working := working s;
                  workers := workers s; writer := writer s; outstrm := outstrm s |}
      | None => None
      end
  | RPush [] =>
      Some {| reader := RFinished; seq_queue := seq_queue s; paf_queue := paf_queue s;
              reader_done := true; working := working s;
              workers := workers s; writer := writer s; outstrm := outstrm s |}
  | RFinished => None
  end.

Definition step_worker (tid : nat) (s : pipeline) : option pipeline :=
  match nth_error (workers s) tid with
  | None => None
  | Some WStart =>
      Some {| reader := reader s; seq_queue := seq_queue s; paf_queue := paf_queue s;
              reader_done := reader_done s; working := update (working s) tid true;
              workers := update (workers s) tid WTryPop;
              writer := writer s; outstrm := outstrm s |}
  | Some WTryPop =>
      match queue_try_pop (seq_queue s) with
      | Some (rec, sq) =>
          Some {| reader := reader s; seq_queue := sq; paf_queue := paf_queue s;
                  reader_done := reader_done s; working := working s;
                  workers := update (workers s) tid (WAlign rec);
                  writer := writer s; outstrm := outstrm s |}
      | None => Some (set_worker s tid WReaderDone)
      end
  | Some WReaderDone =>
      if reader_done s then Some (set_worker s tid WStoreIdle)
      else Some (set_worker s tid WTryPop)           (* 376: sleep, loop *)
  | Some (WAlign rec) =>
      let paf_rec := doAlignment rec tid in
      if negb (slen paf_rec =? 0) then Some (set_worker s tid (WPush paf_rec))
      else Some (set_worker s tid WTryPop)
  | Some (WPush paf_rec) =>
      match queue_push (paf_queue s) paf_rec with
      | Some pq =>
          Some {| reader := reader s; seq_queue := seq_queue s; paf_queue := pq;
                  reader_done := reader_done s; working := working s;
                  workers := update (workers s) tid WTryPop;
                  writer := writer s; outstrm := outstrm s |}
      | None => None
      end
  | Some WStoreIdle =>
      Some {| reader := reader s; seq_queue := seq_queue s; paf_queue := paf_queue s;
              reader_done := reader_done s; working := update (working s) tid false;
              workers := update (workers s) tid WExited;
              writer := writer s; outstrm := outstrm s |}
  | Some WExited => None
  end.

Definition step_writer (s : pipeline) : option pipeline :=
  match writer s with
  | PTryPop =>
      match queue_try_pop (paf_queue s) with
      | Some (paf_lines, pq) =>
          Some {| reader := reader s; seq_queue := seq_queue s; paf_queue := pq;
                  reader_done := reader_done s; working := working s;
                  workers := workers s;
                  writer := PWrite paf_lines; outstrm := outstrm s |}
      | None => Some (set_writer s (PStillWorking 0))
      end
  | PStillWorking i =>
      match nth_error (working s) i with
      | Some true => Some (set_writer s PTryPop)     (* 303: sleep, loop *)
      | Some false => Some (set_writer s (PStillWorking (S i)))
      | None => Some (set_writer s PExited)          (* 298: break *)
      end
  | PWrite paf_lines =>
      Some {| reader := reader s; seq_queue := seq_queue s; paf_queue := paf_queue s;
              reader_done := reader_done s; working := working s;
              workers := workers s;
              writer := PTryPop; outstrm := (outstrm s ++ [paf_lines])%list |}
  | PExited => None
  end.

(** One atomic action of one thread; [None] when the thread cannot
    move (it has returned, or its push finds the queue full). *)
Definition step (t : thread) (s : pipeline) : option pipeline :=
  match t with
  | Reader => step_reader s
  | Writer => step_writer s
  | Worker tid => step_worker tid s
  end.

(** The state when the threads are launched (lines 184-198 and
    383-396): empty queues, [reader_done] false, every [working]
    flag true. *)
Definition launch (to_push : list seq_record_t) (nthreads : nat) : pipeline :=
  {| reader := RPush to_push; seq_queue := []; paf_queue := [];
     reader_done := false; working := repeat true nthreads;
     workers := repeat WStart nthreads;
     writer := PTryPop; outstrm := [] |}.

(** A schedule names the thread that moves next; a thread that
    cannot move leaves the state as it is. *)
Fixpoint run (schedule : list thread) (s : pipeline) : pipeline :=
  match schedule with
  | [] => s
  | t :: rest =>
      match step t s with
      | Some s' => run rest s'
      | None => run rest s
      end
  end.

Definition reachable (to_push : list seq_record_t) (nthreads : nat)
  (s : pipeline) : Prop :=
  exists schedule, run schedule (launch to_push nthreads) = s.

(** Every thread has returned: [join] on all of them succeeds. *)
Definition all_joined (s : pipeline) : bool :=
  match reader s, writer s with
  | RFinished, PExited =>
      forallb (fun pc => match pc with WExited => true | _ => false end) (workers s)
  | _, _ => false
  end.

End Pipeline.

(** ** Inputs used in the examples below *)

(** A command line on which only the listed flags matched. *)
Definition command_line_with (target : flag string) (approx : flag unit)
  (segment batch wfa input : flag string) : command_line :=
  {| target_sequence_file := target;
     query_sequence_file := unparsed "";
     write_index := unparsed "";
     read_index := unparsed "";
     index_by := batch;
     sketch_size := unparsed 0;
     kmer_size := unparsed 0;
     approx_mapping := approx;
     map_pct_identity := unparsed (S754_zero false);
     num_mappings := unparsed 0;
     segment_length := segment;
     block_length := unparsed "";
     one_to_one := unparsed tt;
     lower_triangular := unparsed tt;
     skip_prefix := unparsed zero;
     no_split := unparsed tt;
     chain_gap := unparsed "";
     max_mapping_length := unparsed "";
     no_filter := unparsed tt;
     no_merge := unparsed tt;
     input_mapping := input;
     wfa_params := wfa;
     sam_format := unparsed tt;
     emit_md_tag := unparsed tt;
     no_seq_in_sam := unparsed tt;
     thread_count := unparsed 0;
     tmp_base := unparsed "";
     keep_temp_files := unparsed tt;
     version := unparsed tt |}.

(** [wfmash t.fa] *)
Definition cli_target_only : command_line :=
  command_line_with (given "t.fa") (unparsed tt) (unparsed "") (unparsed "")
    (unparsed "") (unparsed "").

(** [wfmash t.fa -m -s 20000] *)
Definition cli_approx_20000 : command_line :=
  command_line_with (given "t.fa") (given tt) (given "20000") (unparsed "")
    (unparsed "") (unparsed "").

(** [wfmash t.fa -s 99] and [wfmash t.fa -s 5k] *)
Definition cli_segment_99 : command_line :=
  command_line_with (given "t.fa") (unparsed tt) (given "99") (unparsed "")
    (unparsed "") (unparsed "").

Definition cli_segment_5k : command_line :=
  command_line_with (given "t.fa") (unparsed tt) (given "5k") (unparsed "")
    (unparsed "") (unparsed "").

(** [wfmash t.fa --wfa-params 5,6,7]: the name matches the flag of
    line 106, the first one declared with it. *)
Definition cli_wfa_567 : command_line :=
  command_line_with (given "t.fa") (unparsed tt) (unparsed "") (unparsed "")
    (given "5,6,7") (unparsed "").

(** [wfmash t.fa -i in.paf] *)
Definition cli_input_mapping : command_line :=
  command_line_with (given "t.fa") (unparsed tt) (unparsed "") (unparsed "")
    (unparsed "") (given "in.paf").

(** Callees that all succeed; [wfmash::handy_parameter] answers here as
    the [handy_parameter] of lines 32-52 does. *)
Definition env_ok : environment :=
  {| wfmash_handy_parameter := handy_parameter;
     getReferenceSize := Returns 5000000;
     sequenceIdManager := Returns tt;
     getcwd := Some "/tmp";
     temp_file_create := "/tmp/wfmash-1.paf";
     validateInputFiles := Returns tt |}.

(** A row of nine columns, and one of three. *)
Definition row_nine_columns : string := "q1 100 0 50 + t1 200 10 60".
Definition row_three_columns : string := "q1 100 0".

(** A row as the mapper writes it: twelve columns and the identity tag. *)
Definition row_with_identity : string :=
  "q1 100 0 50 + t1 200 10 60 40 50 255 id:f:99.1".

Definition identity_zero (tag : string) : outcome spec_float :=
  Returns (S754_zero false).

Definition no_pipeline_output (lines : list string) : list string := [].

Definition nothing_after_undefined (u : undefined) : list string := [].

(** A mapping close to the start of a target of 1000 bases. *)
Definition row_near_start : MappingBoundaryRow :=
  Row "q1" 20 70 FWD "t1" 10 60 (S754_zero false) 0.

Definition one_record : seq_record_t :=
  SeqRecord row_near_start row_with_identity "ACGTACGT".

Definition align_to_x (rec : seq_record_t) (tid : nat) : string := "x".

(** The command line [cli] with the flag of line 106 replaced. *)
Definition with_wfa_params (cli : command_line) (f : flag string) : command_line :=
  {| target_sequence_file := target_sequence_file cli;
     query_sequence_file := query_sequence_file cli;
     write_index := write_index cli;
     read_index := read_index cli;
     index_by := index_by cli;
     sketch_size := sketch_size cli;
     kmer_size := kmer_size cli;
     approx_mapping := approx_mapping cli;
     map_pct_identity := map_pct_identity cli;
     num_mappings := num_mappings cli;
     segment_length := segment_length cli;
     block_length := block_length cli;
     one_to_one := one_to_one cli;
     lower_triangular := lower_triangular cli;
     skip_prefix := skip_prefix cli;
     no_split := no_split cli;
     chain_gap := chain_gap cli;
     max_mapping_length := max_mapping_length cli;
     no_filter := no_filter cli;
     no_merge := no_merge cli;
     input_mapping := input_mapping cli;
     wfa_params := f;
     sam_format := sam_format cli;
     emit_md_tag := emit_md_tag cli;
     no_seq_in_sam := no_seq_in_sam cli;
     thread_count := thread_count cli;
     tmp_base := tmp_base cli;
     keep_temp_files := keep_temp_files cli;
     version := version cli |}.

(** The doubles 0.5 and 2.0. *)
Definition double_half : spec_float := S754_finite false (2 ^ 52) (-53).
Definition double_two : spec_float := S754_finite false (2 ^ 52) (-51).

(** A non-empty line of fewer than nine columns. *)
Definition short_row (line : string) : bool :=
  negb (slen line =? 0) && (Z.of_nat (List.length (tokenize line)) <? 9).

(** A line [parseMashmapRow] turns into a record. *)
Definition well_formed_row (NDEBUG : bool)
  (estimated_identity : string -> outcome spec_float) (line : string) : Prop :=
  forall cur, exists rec,
    parseMashmapRow NDEBUG estimated_identity line cur = Returns rec.

(** A mapping file: a well-formed row, then one of three columns. *)
Definition file_with_short_row : string :=
  (row_with_identity ++ String "010" row_three_columns)%string.

(** A mapping in the middle of a target of ten million bases. *)
Definition row_in_the_middle : MappingBoundaryRow :=
  Row "q1" 2000 7000 FWD "t1" 5000000 5005000 (S754_zero false) 0.

Definition record_in_the_middle : seq_record_t :=
  SeqRecord row_in_the_middle row_with_identity "ACGTACGT".

(** The number a string of decimal digits denotes. *)
Fixpoint decimal_value (digits : string) (acc : Z) : Z :=
  match digits with
  | EmptyString => acc
  | String c r => decimal_value r (10 * acc + digit_value c)
  end.

Definition all_digits (s : string) : bool := string_forallb is_digit s.

(** The suffixes of [handy_parameter] and the power of ten of each. *)
Inductive suffix : Type :=
| no_suffix | suffix_k | suffix_K | suffix_m | suffix_M | suffix_g | suffix_G.

Definition suffix_string (x : suffix) : string :=
  match x with
  | no_suffix => ""
  | suffix_k => "k" | suffix_K => "K"
  | suffix_m => "m" | suffix_M => "M"
  | suffix_g => "g" | suffix_G => "G"
  end.

Definition suffix_exp (x : suffix) : Z :=
  match x with
  | no_suffix => 0
  | suffix_k | suffix_K => 3
  | suffix_m | suffix_M => 6
  | suffix_g | suffix_G => 9
  end.

Definition is_suffix_letter (c : ascii) : bool :=
  char_is c "k" "K" || char_is c "m" "M" || char_is c "g" "G".

(** The numeral with integer digits [ip] and, after a point, [fp]. *)
Definition numeral (ip : string) (point : bool) (fp : string) : string :=
  if point then (ip ++ String "." fp)%string else ip.

(** The last character of a string, if it has one. *)
Fixpoint last_char (s : string) : option ascii :=
  match s with
  | EmptyString => None
  | String c EmptyString => Some c
  | String _ r => last_char r
  end.

(** Neither queue holds more than its capacity. *)
Definition within_capacity (s : pipeline) : Prop :=
  Z.of_nat (List.length (seq_queue s)) <= queue_capacity
  /\ Z.of_nat (List.length (paf_queue s)) <= queue_capacity.

(** The shape of a numeral: digits, and digits after the point if there
    is one, with a digit somewhere. *)
Definition well_shaped (ip : string) (point : bool) (fp : string) : Prop :=
  all_digits ip = true /\ all_digits fp = true
  /\ (point = false -> fp = "")
  /\ 0 < slen ip + slen fp.

(** The binary32 mantissa of a positive integer below 2^24. *)
Definition mantissa32 (p : positive) : positive :=
  Z.to_pos (Zpos p * 2 ^ (24 - Zpos (digits2_pos p))).

(** What holds of the flags in every reachable state: a flag is false
    only once its worker has returned; a worker past its loop has seen
    [reader_done]; the flags the writer has already read in its scan,
    and all of them once it has returned, are false. *)
Definition shutdown_invariant (s : pipeline) : Prop :=
  List.length (working s) = List.length (workers s)
  /\ (forall tid, nth_error (working s) tid = Some false ->
                  nth_error (workers s) tid = Some WExited)
  /\ (forall tid, nth_error (workers s) tid = Some WStoreIdle
                  \/ nth_error (workers s) tid = Some WExited ->
                  reader_done s = true)
  /\ (forall i, writer s = PStillWorking i ->
                forall j, (j < i)%nat -> (j < List.length (working s))%nat ->
                          nth_error (working s) j = Some false)
  /\ (writer s = PExited ->
      forall j, (j < List.length (working s))%nat ->
                nth_error (working s) j = Some false).

(** ** [getRefSequences]  (computeAlignments.hpp, lines 147-155) *)

(** One [faidx_t] per thread, each loaded from the only reference file;
    a handle is modelled by the name of the file it was loaded from.
    [front()] on an empty vector is undefined. *)
Definition getRefSequences (NDEBUG : bool) (refSequences : list string)
  (nthreads : Z) : outcome (list string) :=
  _ <- cpp_assert NDEBUG (Z.of_nat (List.length refSequences) =? 1)
         "param.refSequences.size() == 1" ;;
  filename <- vector_at refSequences 0 ;;
  Returns (repeat filename (Z.to_nat nthreads)).

(** ** The reader thread  (computeAlignments.hpp, lines 201-277) *)

(** The [std::ifstream] over the mapping file, opened on an existing
    file: either good(), with the results [std::getline] has still to
    give ([getlines] of what is left of the file), or with [eofbit] set,
    and [failbit] set or not. *)
Inductive ifstream : Type :=
| Good (unread : list string)
| AtEof (failbit : bool).

Definition ifstream_open (content : string) : ifstream :=
  Good (getlines content "").

Definition eof (stream : ifstream) : bool :=
  match stream with Good _ => false | AtEof _ => true end.

Definition fail (stream : ifstream) : bool :=
  match stream with Good _ => false | AtEof f => f end.

(** [std::getline(stream, str)]: the stream and [str] afterwards.  On a
    stream that is not good() the sentry fails: [failbit] is set and
    [str] is left as it is.  Otherwise [str] is erased and filled up to
    the next newline, which is dropped; reaching the end of the file
    sets [eofbit], and [failbit] too when no character was read. *)
Definition getline (stream : ifstream) (str : string) : ifstream * string :=
  match stream with
  | Good [] => (AtEof true, "")
  | Good [last] => (AtEof (slen last =? 0), last)
  | Good (l :: rest) => (Good rest, l)
  | AtEof _ => (AtEof true, str)
  end.

Definition set_rankMapping (r : MappingBoundaryRow) (rank : Z) : MappingBoundaryRow :=
  {| qId := qId r;
     qStartPos := qStartPos r;
     qEndPos := qEndPos r;
     strand := strand r;
     refId := refId r;
     rStartPos := rStartPos r;
     rEndPos := rEndPos r;
     mashmap_estimated_identity := mashmap_estimated_identity r;
     rankMapping := rank |}.

(** What the callback of line 218 shares between its calls (lines
    212-214), and the records pushed so far, in the order of the pushes. *)
Record reader_state : Type := ReaderState {
  mappingListStream : ifstream;
  last_mappingRecordLine : string;
  last_currentRecord : MappingBoundaryRow;
  pushed : list seq_record_t
}.

(** Lines 236-239 on a good stream and an empty [mappingRecordLine]:
    [std::getline] until a line is not empty or the file has ended. *)
Fixpoint skip_empty_lines (unread : list string) : ifstream * string :=
  match unread with
  | [] => (AtEof true, "")
  | l :: rest =>
      match rest with
      | [] => (AtEof (slen l =? 0), l)
      | _ :: _ => if slen l =? 0 then skip_empty_lines rest else (Good rest, l)
      end
  end.

(** Lines 236-239: [while (!eof() && mappingRecordLine.empty())]. *)
Definition first_line_to_parse (stream : ifstream) (mappingRecordLine : string)
  : ifstream * string :=
  match stream with
  | Good unread =>
      if slen mappingRecordLine =? 0 then skip_empty_lines unread
      else (stream, mappingRecordLine)
  | AtEof _ => (stream, mappingRecordLine)
  end.

Section Reader.

Variable NDEBUG : bool.
Variable estimated_identity : string -> outcome spec_float.

(** Lines 225-229: the copy of the sequence, upper-cased and made
    canonical DNA by [skch::CommonFunc::makeUpperCaseAndValidDNA], which
    map/include/commonFunc.hpp declares and the sources do not hold. *)
Variable makeUpperCaseAndValidDNA : string -> string.

(** Lines 253-268 on a good stream: [while (std::getline(...))], a
    record pushed for every row of the same query, until a row of
    another query or the end of the file. *)
Fixpoint more_mappings (qSeqId seq : string) (unread : list string)
  (currentRecord : MappingBoundaryRow) (rank_mapping : Z)
  (pushed : list seq_record_t) : outcome reader_state :=
  match unread with
  | [] => Returns (ReaderState (AtEof true) "" currentRecord pushed)
  | l :: rest =>
      let stream :=
        match rest with [] => AtEof (slen l =? 0) | _ :: _ => Good rest end in
      if fail stream then Returns (ReaderState stream l currentRecord pushed)
      else
        rec <- parseMashmapRow NDEBUG estimated_identity l currentRecord ;;
        if negb (qId rec =? qSeqId)%string
        then Returns (ReaderState stream l rec pushed)
        else
          let q := SeqRecord (set_rankMapping rec rank_mapping) l seq in
          match rest with
          | [] => Returns (ReaderState (AtEof true) l rec (pushed ++ [q])%list)
          | _ :: _ =>
              more_mappings qSeqId seq rest rec (rank_mapping + 1)
                (pushed ++ [q])%list
          end
  end.

(** Lines 218-271: the callback, on the sequence [_seq] named [qSeqId].
    ([total_seqs], which line 220 counts and line 410 prints, is left
    out.) *)
Definition for_sequence (st : reader_state) (qSeqId _seq : string)
  : outcome reader_state :=
  let seq := makeUpperCaseAndValidDNA _seq in
  let '(stream, mappingRecordLine) :=
    first_line_to_parse (mappingListStream st) (last_mappingRecordLine st) in
  if negb (slen mappingRecordLine =? 0) then
    rec <- parseMashmapRow NDEBUG estimated_identity mappingRecordLine
             (last_currentRecord st) ;;
    if (qId rec =? qSeqId)%string then
      let q := SeqRecord (set_rankMapping rec 0) mappingRecordLine seq in
      match stream with
      | Good unread =>
          more_mappings qSeqId seq unread rec 1 (pushed st ++ [q])%list
      | AtEof _ =>
          Returns (ReaderState (AtEof true) mappingRecordLine rec
                     (pushed st ++ [q])%list)
      end
    else Returns (ReaderState stream mappingRecordLine rec (pushed st))
  else Returns (ReaderState stream mappingRecordLine (last_currentRecord st)
                  (pushed st)).

(** [seqiter::for_each_seq_in_file] (common/seqiter.hpp, not among the
    sources) calls the callback on every sequence of the file, in the
    order of the file: [sequences] holds their names and bases. *)
Fixpoint for_each_seq_in_file (sequences : list (string * string))
  (st : reader_state) : outcome reader_state :=
  match sequences with
  | [] => Returns st
  | (qSeqId, _seq) :: rest =>
      st' <- for_sequence st qSeqId _seq ;;
      for_each_seq_in_file rest st'
  end.

(** Lines 201-277: one pass over the mapping file for every file of
    [param.querySequences]; the result is what has been pushed to
    [seq_queue] when [reader_done] is set.  The [currentRecord] of line
    214 starts as [default_row]: of what it holds before the first call
    of [parseMashmapRow] only [rankMapping] is passed on, and that field
    is assigned in every record pushed (lines 249 and 265). *)
Fixpoint reader_thread (querySequences : list (list (string * string)))
  (mashmapPafFile : string) (pushed_before : list seq_record_t)
  : outcome (list seq_record_t) :=
  match querySequences with
  | [] => Returns pushed_before
  | sequences :: more =>
      st <- for_each_seq_in_file sequences
              (ReaderState (ifstream_open mashmapPafFile) "" default_row
                 pushed_before) ;;
      reader_thread more mashmapPafFile (pushed st)
  end.

(** The record [parseMashmapRow] makes of a line. *)
Definition row_of_line (line : string) : MappingBoundaryRow :=
  match parseMashmapRow NDEBUG estimated_identity line default_row with
  | Returns r => r
  | _ => default_row
  end.

(** The records of the rows of one query, numbered from [rank]. *)
Fixpoint ranked (rows : list string) (seq : string) (rank : Z)
  : list seq_record_t :=
  match rows with
  | [] => []
  | l :: rest =>
      SeqRecord (set_rankMapping (row_of_line l) rank) l seq
      :: ranked rest seq (rank + 1)
  end.

(** A non-empty line that parses, whatever [currentRecord] held, to a
    row of the query [name]. *)
Definition row_of_query (name : string) (line : string) : Prop :=
  (slen line =? 0) = false
  /\ forall cur, exists rec,
       parseMashmapRow NDEBUG estimated_identity line cur = Returns rec
       /\ qId rec = name.

(** The query span of a row, for the first pass. *)
Definition query_span (line : string) : Z :=
  qEndPos (row_of_line line) - qStartPos (row_of_line line).

(** The spans of the lines that are not empty, added up. *)
Fixpoint sum_of_spans (lines : list string) : Z :=
  match lines with
  | [] => 0
  | l :: rest =>
      (if slen l =? 0 then 0 else query_span l) + sum_of_spans rest
  end.

End Reader.

(** A query file with the rows the mapping file holds for each of its
    sequences: name, bases, rows. *)
Definition query_group : Type := (string * string * list string)%type.

Definition group_name (g : query_group) : string := fst (fst g).
Definition group_sequence (g : query_group) : string := snd (fst g).
Definition group_rows (g : query_group) : list string := snd g.

Definition sequences_of (groups : list query_group) : list (string * string) :=
  map fst groups.

Definition rows_of (groups : list query_group) : list string :=
  flat_map group_rows groups.

(** What the reader is to push for these groups: for each query in
    turn its rows in the order of the file, numbered from 0, each with
    the bases of its query. *)
Definition expected_records (NDEBUG : bool)
  (estimated_identity : string -> outcome spec_float)
  (makeUpperCaseAndValidDNA : string -> string)
  (groups : list query_group) : list seq_record_t :=
  flat_map
    (fun g => ranked NDEBUG estimated_identity (group_rows g)
                (makeUpperCaseAndValidDNA (group_sequence g)) 0)
    groups.

(** The reader has the rows [rows] still to treat: nothing of them
    read, or the first of them read and kept in [mappingRecordLine], or
    none left and the end of the file met. *)
Definition reader_at (rows : list string) (st : reader_state) : Prop :=
  (last_mappingRecordLine st = ""
   /\ mappingListStream st = Good (rows ++ [""])%list)
  \/ (exists l rest,
         rows = l :: rest
         /\ last_mappingRecordLine st = l
         /\ mappingListStream st = Good (rest ++ [""])%list)
  \/ (rows = [] /\ last_mappingRecordLine st = ""
      /\ mappingListStream st = AtEof true).

(** A record the reader may push: a row of the mapping file that names
    a sequence of a query file, with the bases of that sequence. *)
Definition from_the_input (NDEBUG : bool)
  (estimated_identity : string -> outcome spec_float)
  (makeUpperCaseAndValidDNA : string -> string)
  (querySequences : list (list (string * string))) (lines : list string)
  (q : seq_record_t) : Prop :=
  In (mappingRecordLine q) lines
  /\ (exists cur rec,
         parseMashmapRow NDEBUG estimated_identity (mappingRecordLine q) cur
         = Returns rec
         /\ currentRecord q
            = set_rankMapping rec (rankMapping (currentRecord q)))
  /\ (exists sequences _seq,
         In sequences querySequences
         /\ In (qId (currentRecord q), _seq) sequences
         /\ qSequence q = makeUpperCaseAndValidDNA _seq).

(** What the reader holds of the mapping file is of the file: the
    lines still to be read, and the line read last. *)
Definition within_the_file (lines : list string) (st : reader_state) : Prop :=
  (forall unread, mappingListStream st = Good unread -> incl unread lines)
  /\ (last_mappingRecordLine st = "" \/ In (last_mappingRecordLine st) lines).

(** ** Lines and tokens put together again *)

(** The lines with a newline between each two. *)
Fixpoint join_lines (lines : list string) : string :=
  match lines with
  | [] => ""
  | l :: rest =>
      match rest with
      | [] => l
      | _ :: _ => (l ++ String "010" (join_lines rest))%string
      end
  end.

(** The tokens with the separator [sep] between each two. *)
Fixpoint join_tokens (sep : ascii) (tokens : list string) : string :=
  match tokens with
  | [] => ""
  | t :: rest =>
      match rest with
      | [] => t
      | _ :: _ => (t ++ String sep (join_tokens sep rest))%string
      end
  end.

(** A string [ss >> word] can give: not empty, no white space. *)
Definition is_token (t : string) : bool :=
  negb (slen t =? 0) && string_forallb (fun c => negb (isspace c)) t.

Definition no_newline (s : string) : bool :=
  string_forallb (fun c => negb (c =? "010")%char) s.

(** A run of decimal digits that denotes an [int]. *)
Definition int_numeral (t : string) : bool :=
  negb (slen t =? 0) && all_digits t && (decimal_value t 0 <=? INT_MAX).

(** A run of decimal digits, whatever it denotes. *)
Definition digit_string (t : string) : bool :=
  negb (slen t =? 0) && all_digits t.

(** ** The pipeline with one worker *)

Definition pending (r : reader_pc) : list seq_record_t :=
  match r with
  | RPush l => l
  | RFinished => []
  end.

(** ** The records the workers take *)

(** What the step of thread [t] in state [s] takes from [seq_queue]:
    the record, with the worker it goes to, when the step is a
    [try_pop] of line 340 that succeeds; nothing for any other step. *)
Definition taken_by (t : thread) (s : pipeline) : list (nat * seq_record_t) :=
  match t with
  | Worker tid =>
      match nth_error (workers s) tid, queue_try_pop (seq_queue s) with
      | Some WTryPop, Some (rec, _) => [(tid, rec)]
      | _, _ => []
      end
  | Reader | Writer => []
  end.

Section Takes.

Variable doAlignment : seq_record_t -> nat -> string.

(** The takes along a schedule, the oldest first; it follows [run]. *)
Fixpoint takes (schedule : list thread) (s : pipeline)
  : list (nat * seq_record_t) :=
  match schedule with
  | [] => []
  | t :: rest =>
      match step doAlignment t s with
      | Some s' => (taken_by t s ++ takes rest s')%list
      | None => takes rest s
      end
  end.

End Takes.

Section OneWorker.

Variable doAlignment : seq_record_t -> nat -> string.

(** What worker 0 writes to [paf_queue] for these records: the outputs
    that are not empty (line 359), in the order of the records. *)
Fixpoint outputs (records : list seq_record_t) : list string :=
  match records with
  | [] => []
  | rec :: rest =>
      if negb (slen (doAlignment rec 0) =? 0)
      then doAlignment rec 0 :: outputs rest
      else outputs rest
  end.

Definition held_by_worker (pc : worker_pc) : list string :=
  match pc with
  | WAlign rec => outputs [rec]
  | WPush paf_rec => [paf_rec]
  | _ => []
  end.

Definition held_by_writer (pc : writer_pc) : list string :=
  match pc with
  | PWrite paf_lines => [paf_lines]
  | _ => []
  end.

(** With one worker, the results written, being written, queued, held
    by the worker and still to come are, in this order, the results of
    the records in the order of the input. *)
Definition in_input_order (to_push : list seq_record_t) (s : pipeline) : Prop :=
  exists pc,
    workers s = [pc]
    /\ (outstrm s ++ held_by_writer (writer s) ++ paf_queue s
        ++ held_by_worker pc ++ outputs (seq_queue s ++ pending (reader s)))%list
       = outputs to_push.

(** The schedule on which the reader pushes a record, the worker aligns
    it and pushes the result, and the writer writes it, before the next
    record is pushed. *)
Fixpoint one_at_a_time (to_push : list seq_record_t) : list thread :=
  match to_push with
  | [] => []
  | rec :: rest =>
      ([Reader; Worker 0; Worker 0]
       ++ (if negb (slen (doAlignment rec 0) =? 0)
           then [Worker 0; Writer; Writer] else [])
       ++ one_at_a_time rest)%list
  end.

Definition sequential_schedule (to_push : list seq_record_t) : list thread :=
  ([Worker 0] ++ one_at_a_time to_push
   ++ [Reader; Worker 0; Worker 0; Worker 0; Writer; Writer; Writer])%list.

End OneWorker.

(** A result in the pipeline is the output of [doAlignment] on a record
    of the input and on one of the threads, and is not empty. *)
Definition is_result (doAlignment : seq_record_t -> nat -> string)
  (to_push : list seq_record_t) (nthreads : nat) (x : string) : Prop :=
  exists rec tid,
    In rec to_push /\ (tid < nthreads)%nat
    /\ x = doAlignment rec tid /\ (slen x =? 0) = false.

(** Every result in the pipeline is a result of the input, and every
    record in it a record of the input. *)
Definition provenance (doAlignment : seq_record_t -> nat -> string)
  (to_push : list seq_record_t) (nthreads : nat) (s : pipeline) : Prop :=
  List.length (workers s) = nthreads
  /\ (forall x, In x (outstrm s) -> is_result doAlignment to_push nthreads x)
  /\ (forall x, In x (paf_queue s) -> is_result doAlignment to_push nthreads x)
  /\ (forall x, writer s = PWrite x -> is_result doAlignment to_push nthreads x)
  /\ (forall tid x, nth_error (workers s) tid = Some (WPush x) ->
                    is_result doAlignment to_push nthreads x)
  /\ (forall tid rec, nth_error (workers s) tid = Some (WAlign rec) ->
                      In rec to_push)
  /\ (forall rec, In rec (seq_queue s) -> In rec to_push)
  /\ (forall rec, In rec (pending (reader s)) -> In rec to_push).

(** No worker, nothing written. *)
Definition idle_pipeline (to_push : list seq_record_t) (s : pipeline) : Prop :=
  workers s = [] /\ working s = [] /\ paf_queue s = [] /\ outstrm s = []
  /\ (forall x, writer s <> PWrite x)
  /\ (seq_queue s ++ pending (reader s))%list = to_push.

(** The sign of a float is not set. *)
Definition not_negative (f : spec_float) : bool :=
  match f with
  | S754_zero s => negb s
  | S754_infinity s => negb s
  | S754_finite s _ _ => negb s
  | S754_nan => true
  end.

(** None of the callees of [parse_args] ends the process itself. *)
Definition callees_do_not_exit (env : environment) : Prop :=
  (forall v c, wfmash_handy_parameter env v <> Exits c)
  /\ (forall c, getReferenceSize env <> Exits c)
  /\ (forall c, sequenceIdManager env <> Exits c)
  /\ (forall c, validateInputFiles env <> Exits c).

(** The command line [cli] with the flag [-t] replaced. *)
Definition with_thread_count (cli : command_line) (f : flag Z) : command_line :=
  {| target_sequence_file := target_sequence_file cli;
     query_sequence_file := query_sequence_file cli;
     write_index := write_index cli;
     read_index := read_index cli;
     index_by := index_by cli;
     sketch_size := sketch_size cli;
     kmer_size := kmer_size cli;
     approx_mapping := approx_mapping cli;
     map_pct_identity := map_pct_identity cli;
     num_mappings := num_mappings cli;
     segment_length := segment_length cli;
     block_length := block_length cli;
     one_to_one := one_to_one cli;
     lower_triangular := lower_triangular cli;
     skip_prefix := skip_prefix cli;
     no_split := no_split cli;
     chain_gap := chain_gap cli;
     max_mapping_length := max_mapping_length cli;
     no_filter := no_filter cli;
     no_merge := no_merge cli;
     input_mapping := input_mapping cli;
     wfa_params := wfa_params cli;
     sam_format := sam_format cli;
     emit_md_tag := emit_md_tag cli;
     no_seq_in_sam := no_seq_in_sam cli;
     thread_count := f;
     tmp_base := tmp_base cli;
     keep_temp_files := keep_temp_files cli;
     version := version cli |}.

(** [wfmash t.fa -t 4] *)
Definition cli_four_threads : command_line :=
  with_thread_count cli_target_only (given 4).

(** Two queries and their rows, and a third query without any. *)
Definition row_q1_first : string :=
  "q1 100 0 50 + t1 200 10 60 40 50 255 id:f:99.1".
Definition row_q1_second : string :=
  "q1 100 50 100 - t2 300 0 50 40 50 255 id:f:98".
Definition row_q2_only : string :=
  "q2 80 0 80 + t1 200 100 180 70 80 255 id:f:97".

Definition two_queries : list query_group :=
  [("q1", "acgt", [row_q1_first; row_q1_second]);
   ("q3", "ttt", []);
   ("q2", "ggcc", [row_q2_only])].

Definition two_queries_file : string :=
  (row_q1_first ++ String "010" (row_q1_second ++ String "010"
     (row_q2_only ++ String "010" "")))%string.

Definition upper_case_stub (s : string) : string := s.

(** A row with a start position beyond [int]. *)
Definition row_beyond_int : list string :=
  ["q1"; "4000000000"; "3000000000"; "3000000050"; "+"; "t1"; "200"; "10";
   "60"; "40"; "50"; "255"; "id:f:99.1"].

Definition row_thirteen_tokens : list string :=
  ["q1"; "100"; "0"; "50"; "+"; "t1"; "200"; "10"; "60"; "40"; "50"; "255";
   "id:f:99.1"].

(** ** Facts about the models *)

(** Takes a successful run of a sequence of binds and tests apart. *)
Ltac returns_inv H :=
  repeat match type of H with
  | bind ?x _ = Returns _ =>
      let E := fresh "E" in destruct x eqn:E; cbn [bind] in H; try discriminate H
  | (if ?b then _ else _) = Returns _ =>
      let E := fresh "E" in destruct b eqn:E; try discriminate H
  | match ?x with _ => _ end = Returns _ =>
      let E := fresh "E" in destruct x eqn:E; try discriminate H
  end.

Section ParseArgsFacts.

Variable split : string -> ascii -> list string.

(** What a normal return of [parse_args] says about its inputs and
    about the fields the properties below read. *)
Lemma parse_args_returns argc r map0 align0 yeet0 env p :
  parse_args split argc r map0 align0 yeet0 env = Returns p ->
  exists cli,
    r = Parsed cli
    /\ segment_length_block (wfmash_handy_parameter env) (segment_length cli)
         (yeet_approx_mapping yeet0)
       = Returns (segLength (map_parameters p))
    /\ index_by_block (wfmash_handy_parameter env) (index_by cli)
       = Returns (index_by_size (map_parameters p))
    /\ sparsity_hash_threshold (map_parameters p) = UINT64_MAX
    /\ (wfa_mismatch_score (align_parameters p),
        wfa_gap_opening_score (align_parameters p),
        wfa_gap_extension_score (align_parameters p)) = (2, 3, 1)
    /\ wflign_max_len_minor (align_parameters p)
       = segLength (map_parameters p) * 128
    /\ segLength (map_parameters p) < map_max_mapping_length (map_parameters p)
    /\ yeet_approx_mapping (yeet_parameters p) = matched (approx_mapping cli)
    /\ approx_mapping_block cli env align0 yeet0
       = Returns (OutputFiles (outFileName (map_parameters p))
                    (mashmapPafFile (align_parameters p))
                    (pafOutputFile (align_parameters p))
                    (yeet_parameters p)).
Proof.
  intros H. unfold parse_args in H. returns_inv H.
  injection H as <-. exists cli. cbn.
  cbn in E3, E4. injection E3 as <-. injection E4 as <-.
  repeat split; try assumption; try reflexivity.
  - apply Z.leb_gt in E10. exact E10.
  - unfold approx_mapping_block in E14. returns_inv E14;
      injection E14 as <-; reflexivity.
  - rewrite E14. destruct a10. reflexivity.
Qed.

(** With -i and without -m, the file of -i is the mapping file the
    aligner reads, and the alignments go to the standard output. *)
Lemma input_mapping_is_the_mapping_file argc cli map0 align0 yeet0 env p :
  parse_args split argc (Parsed cli) map0 align0 yeet0 env = Returns p ->
  matched (approx_mapping cli) = false ->
  matched (input_mapping cli) = true ->
  mashmapPafFile (align_parameters p) = get (input_mapping cli)
  /\ pafOutputFile (align_parameters p) = "/dev/stdout"
  /\ yeet_remapping (yeet_parameters p) = true.
Proof.
  intros H Ha Hi.
  destruct (parse_args_returns argc _ map0 align0 yeet0 env p H)
    as (cli' & Hcli & _ & _ & _ & _ & _ & _ & _ & Hfiles).
  injection Hcli as <-.
  unfold approx_mapping_block in Hfiles. rewrite Ha, Hi in Hfiles.
  returns_inv Hfiles; injection Hfiles as _ <- <- <-; repeat split.
Qed.

End ParseArgsFacts.

Example input_mapping_of_dash_i :
  exists p,
    parse_args getline_split 4 (Parsed cli_input_mapping)
        skch_empty align_empty yeet_default env_ok
    = Returns p
    /\ mashmapPafFile (align_parameters p) = "in.paf"
    /\ pafOutputFile (align_parameters p) = "/dev/stdout"
    /\ yeet_remapping (yeet_parameters p) = true.
Proof.
  eexists. split; [reflexivity|].
  apply (input_mapping_is_the_mapping_file
           getline_split 4 cli_input_mapping
               skch_empty align_empty yeet_default env_ok);
    reflexivity.
Qed.

(** *** The segment length  (lines 273-296 and 580-584) *)

(** A value below 100 never passes the tests of lines 276 and 281. *)
Lemma segment_length_below_100_exits (handy : string -> outcome Z)
  (f : flag string) (approx : bool) (s : Z) :
  matched f = true ->
  handy (get f) = Returns s ->
  s < 100 ->
  segment_length_block handy f approx = Exits 1.
Proof.
  intros Hm Hs Hlt. unfold segment_length_block. rewrite Hm, Hs. cbn [bind].
  destruct (s <=? 0) eqn:E0; [reflexivity|].
  destruct (s <? 100) eqn:E1; [reflexivity|].
  apply Z.ltb_ge in E1. lia.
Qed.

(** Without the option the segment length is 1000. *)
Lemma segment_length_default (handy : string -> outcome Z)
  (f : flag string) (approx : bool) :
  matched f = false -> segment_length_block handy f approx = Returns 1000.
Proof. intros Hm. unfold segment_length_block. rewrite Hm. reflexivity. Qed.

(** Were line 287 to see [approx_mapping] set, every value from 100 on
    would pass. *)
Lemma segment_length_block_approx (handy : string -> outcome Z)
  (f : flag string) (s : Z) :
  matched f = true ->
  handy (get f) = Returns s ->
  100 <= s ->
  segment_length_block handy f true = Returns s.
Proof.
  intros Hm Hs Hge. unfold segment_length_block. rewrite Hm, Hs. cbn [bind].
  destruct (s <=? 0) eqn:E0; [apply Z.leb_le in E0; lia|].
  destruct (s <? 100) eqn:E1; [apply Z.ltb_lt in E1; lia|].
  reflexivity.
Qed.

Example segment_length_99_exits :
  parse_args getline_split 4 (Parsed cli_segment_99)
      skch_empty align_empty yeet_default env_ok
  = Exits 1.
Proof. reflexivity. Qed.

Example segment_length_5k_is_taken :
  exists p,
    parse_args getline_split 4 (Parsed cli_segment_5k)
        skch_empty align_empty yeet_default env_ok
    = Returns p
    /\ segLength (map_parameters p) = 5000
    /\ wflign_max_len_minor (align_parameters p) = 640000.
Proof. eexists. repeat split. Qed.

Example segment_length_absent_is_1000 :
  exists p,
    parse_args getline_split 2 (Parsed cli_target_only)
        skch_empty align_empty yeet_default env_ok
    = Returns p
    /\ segLength (map_parameters p) = 1000
    /\ wflign_max_len_minor (align_parameters p) = 128000.
Proof. eexists. repeat split. Qed.

(** C3.  The claim: a segment length above 10000 bp is an error only in
    align mode, so with -m (approximate mapping) every length from 100
    on is accepted.  The code: line 287 reads
    [yeet_parameters.approx_mapping], which is assigned only at line
    582; when the test runs it still holds what the caller passed, false
    for a default-constructed [yeet::Parameters].  So with -m on the
    command line a segment length above 10000 still ends in [exit(1)]. *)
Theorem segment_length_above_10k_exits_with_approx_flag :
  forall split argc cli map0 align0 yeet0 env n s,
    argc <> 1 ->
    matched (version cli) = false ->
    matched (target_sequence_file cli) = true ->
    getReferenceSize env = Returns n ->
    yeet_approx_mapping yeet0 = false ->
    matched (approx_mapping cli) = true ->
    matched (segment_length cli) = true ->
    wfmash_handy_parameter env (get (segment_length cli)) = Returns s ->
    10000 < s ->
    parse_args split argc (Parsed cli) map0 align0 yeet0 env = Exits 1.
Proof.
  intros split argc cli map0 align0 yeet0 env n s Hargc Hv Ht Hn Hy _ Hm Hs Hgt.
  unfold parse_args. rewrite Hv, Ht, Hn.
  apply Z.eqb_neq in Hargc. rewrite Hargc. cbn.
  unfold segment_length_block. rewrite Hm, Hs, Hy. cbn [bind negb andb].
  destruct (s <=? 0) eqn:E0; [reflexivity|].
  destruct (s <? 100) eqn:E1; [reflexivity|].
  apply Z.ltb_lt in Hgt. rewrite Hgt. reflexivity.
Qed.

(** [wfmash t.fa -m -s 20000] exits with code 1. *)
Lemma segment_length_20000_with_approx_flag_exits :
  matched (approx_mapping cli_approx_20000) = true
  /\ wfmash_handy_parameter env_ok (get (segment_length cli_approx_20000))
     = Returns 20000
  /\ parse_args getline_split 4 (Parsed cli_approx_20000)
      skch_empty align_empty yeet_default env_ok
     = Exits 1.
Proof.
  split; [reflexivity|]. split; [reflexivity|].
  apply (segment_length_above_10k_exits_with_approx_flag
           getline_split 4 cli_approx_20000
               skch_empty align_empty yeet_default env_ok 5000000 20000);
    try reflexivity; lia.
Defined.

(** *** The batch size of the index  (lines 569-578) *)

(** C5, as amended.  Without -b the batch budget [index_by_size] is
    [std::numeric_limits<size_t>::max()], 2^64 - 1: line 577 assigns it
    with the comment "Default to indexing all sequences", so no byte cap
    applies by default.  It is not the 4 GB that the help text of the
    option (line 75) announces. *)
Theorem index_by_size_default_is_size_max :
  forall split argc cli map0 align0 yeet0 env p,
    matched (index_by cli) = false ->
    parse_args split argc (Parsed cli) map0 align0 yeet0 env = Returns p ->
    index_by_size (map_parameters p) = 2 ^ 64 - 1
    /\ index_by_size (map_parameters p) <> 4 * 10 ^ 9.
Proof.
  intros split argc cli map0 align0 yeet0 env p Hm H.
  destruct (parse_args_returns split argc _ map0 align0 yeet0 env p H)
    as (cli' & Hcli & _ & Hidx & _).
  injection Hcli as <-.
  unfold index_by_block in Hidx. rewrite Hm in Hidx.
  injection Hidx as <-. split; [reflexivity|discriminate].
Qed.

(** [wfmash t.fa]: the budget is 2^64 - 1. *)
Lemma index_by_size_of_plain_run :
  exists p,
    parse_args getline_split 2 (Parsed cli_target_only)
        skch_empty align_empty yeet_default env_ok
    = Returns p
    /\ index_by_size (map_parameters p) = 2 ^ 64 - 1
    /\ index_by_size (map_parameters p) <> 4 * 10 ^ 9.
Proof.
  eexists. split; [reflexivity|].
  apply (index_by_size_default_is_size_max
           getline_split 2 cli_target_only
               skch_empty align_empty yeet_default env_ok);
    reflexivity.
Defined.

(** C5, as stated, fails: [wfmash t.fa] leaves a budget that is not
    4 * 10^9. *)
Lemma index_by_size_default_is_not_4G :
  exists p,
    parse_args getline_split 2 (Parsed cli_target_only)
        skch_empty align_empty yeet_default env_ok
    = Returns p
    /\ index_by_size (map_parameters p) <> 4 * 10 ^ 9.
Proof. eexists. split; [reflexivity|discriminate]. Qed.

(** With the option, the value the callee gives is taken when it is
    positive.  Were the callee the [handy_parameter] of lines 32-52,
    "4G" itself would be beyond its [int]. *)
Lemma index_by_block_given (handy : string -> outcome Z)
  (f : flag string) (n : Z) :
  matched f = true ->
  handy (get f) = Returns n ->
  0 < n ->
  index_by_block handy f = Returns n.
Proof.
  intros Hm Hn Hpos. unfold index_by_block. rewrite Hm, Hn. cbn [bind].
  destruct (n <=? 0) eqn:E; [apply Z.leb_le in E; lia|reflexivity].
Qed.

Example index_by_block_4G :
  index_by_block handy_parameter (given "4G") = Undefined float_to_int.
Proof. reflexivity. Qed.

(** *** The penalties of the end-to-end alignment  (lines 226-246) *)

(** Lines 227-241 on a flag that did match: three numbers are taken in
    the order mismatch, gap opening, gap extension, and any other count
    is [exit(1)]. *)
Example wfa_score_params_block_three :
  wfa_score_params_block getline_split (given "5,6,7") = Returns (5, 6, 7).
Proof. reflexivity. Qed.

Example wfa_score_params_block_two :
  wfa_score_params_block getline_split (given "5,6") = Exits 1.
Proof. reflexivity. Qed.

(** C6.  The claim: without --wfa-params the penalties are (2, 3, 1),
    and with it the three numbers given are taken.  The code: the flag
    that lines 227-241 read is declared at line 226, after
    [parser.ParseCLI] (line 133) has run, so it never matches; the
    --wfa-params of the command line goes to the flag of line 106, which
    nothing reads.  The penalties are (2, 3, 1) on every run, and
    [parse_args] does the same whatever --wfa-params carries. *)
Theorem wfa_params_option_is_never_read :
  forall split argc cli map0 align0 yeet0 env,
    (forall p,
        parse_args split argc (Parsed cli) map0 align0 yeet0 env = Returns p ->
        wfa_mismatch_score (align_parameters p) = 2
        /\ wfa_gap_opening_score (align_parameters p) = 3
        /\ wfa_gap_extension_score (align_parameters p) = 1)
    /\ (forall given_value,
           parse_args split argc (Parsed (with_wfa_params cli given_value))
               map0 align0 yeet0 env
           = parse_args split argc (Parsed cli) map0 align0 yeet0 env).
Proof.
  intros split argc cli map0 align0 yeet0 env. split.
  - intros p H.
    destruct (parse_args_returns split argc _ map0 align0 yeet0 env p H)
      as (cli' & _ & _ & _ & _ & Hwfa & _).
    injection Hwfa as -> -> ->. repeat split.
  - intros v. destruct cli. reflexivity.
Qed.

(** [wfmash t.fa --wfa-params 5,6,7]: the penalties are (2, 3, 1). *)
Lemma wfa_params_567_gives_231 :
  exists p,
    parse_args getline_split 4 (Parsed cli_wfa_567)
        skch_empty align_empty yeet_default env_ok = Returns p
    /\ get (wfa_params cli_wfa_567) = "5,6,7"
    /\ wfa_mismatch_score (align_parameters p) = 2
    /\ wfa_gap_opening_score (align_parameters p) = 3
    /\ wfa_gap_extension_score (align_parameters p) = 1.
Proof.
  eexists. split; [reflexivity|]. split; [reflexivity|].
  apply (proj1 (wfa_params_option_is_never_read
                  getline_split 4 cli_wfa_567
                      skch_empty align_empty yeet_default env_ok)).
  reflexivity.
Defined.

(** *** The sparsification threshold  (lines 212-224) *)

(** Lines 213-224 on a flag that did match: 1.0 gives [UINT64_MAX]; 0.5
    gives 2^63, the product with the double nearest to [UINT64_MAX],
    which is 2^64; 2.0 gives a product no [uint64_t] holds. *)
Example sparsification_block_one :
  sparsification_block (given double_one) = Returns UINT64_MAX.
Proof. reflexivity. Qed.

Example sparsification_block_half :
  sparsification_block (given double_half) = Returns (2 ^ 63).
Proof. reflexivity. Qed.

Example sparsification_block_two :
  sparsification_block (given double_two) = Undefined float_to_int.
Proof. reflexivity. Qed.

(** C8.  The claim: --sparsification 1.0 gives the threshold
    [UINT64_MAX], as without the option, and any other factor gives the
    factor times [UINT64_MAX].  The code: the flag is declared at line
    212, after [parser.ParseCLI] (line 133) has run, and tested on the
    next line: it never matches, so lines 214-220 never run and the
    threshold is [UINT64_MAX] on every run that returns. *)
Theorem sparsity_hash_threshold_is_always_uint64_max :
  forall split argc cli_result map0 align0 yeet0 env p,
    parse_args split argc cli_result map0 align0 yeet0 env = Returns p ->
    sparsity_hash_threshold (map_parameters p) = 2 ^ 64 - 1.
Proof.
  intros split argc r map0 align0 yeet0 env p H.
  destruct (parse_args_returns split argc r map0 align0 yeet0 env p H)
    as (cli & _ & _ & _ & Hs & _).
  exact Hs.
Qed.

(** A command line [ParseCLI] rejects, as it does an option it has no
    flag for, ends in [exit(1)] (lines 137-140). *)
Example parse_error_exits_with_1 :
  forall split argc map0 align0 yeet0 env,
    parse_args split argc ParseError map0 align0 yeet0 env = Exits 1.
Proof. reflexivity. Qed.

(** [wfmash t.fa]: the threshold is 2^64 - 1. *)
Lemma sparsity_hash_threshold_of_plain_run :
  exists p,
    parse_args getline_split 2 (Parsed cli_target_only)
        skch_empty align_empty yeet_default env_ok
    = Returns p
    /\ sparsity_hash_threshold (map_parameters p) = 2 ^ 64 - 1.
Proof.
  eexists. split; [reflexivity|].
  apply (sparsity_hash_threshold_is_always_uint64_max
           getline_split 2 (Parsed cli_target_only)
               skch_empty align_empty yeet_default env_ok).
  reflexivity.
Defined.

(** *** Rows of the mapping file  (lines 111-140 and 165-179) *)

Lemma vector_at_beyond {A} (v : list A) (pos : nat) :
  (List.length v <= pos)%nat ->
  vector_at v pos = Undefined (vector_index (Z.of_nat pos) (Z.of_nat (List.length v))).
Proof.
  intros H. unfold vector_at.
  apply nth_error_None in H. rewrite H. reflexivity.
Qed.

Lemma vector_at_within {A} (v : list A) (pos : nat) :
  (pos < List.length v)%nat -> exists a, vector_at v pos = Returns a.
Proof.
  intros H. unfold vector_at.
  destruct (nth_error v pos) eqn:E; [eauto|].
  apply nth_error_None in E. lia.
Qed.

(** With thirteen tokens or more, each of the eight reads of [tokens]
    is inside the vector. *)
Lemma token_reads_within_thirteen (line : string) :
  (13 <= List.length (tokenize line))%nat ->
  Forall (fun pos => exists t, vector_at (tokenize line) pos = Returns t)
         [12; 0; 2; 3; 4; 5; 7; 8]%nat.
Proof.
  intros H. repeat constructor; apply vector_at_within; lia.
Qed.

(** C9.  The claim: for a line of at least nine tokens (the
    precondition line 122 asserts) every read of [tokens] is in bounds,
    the one at index 12 included.  The code: line 125 reads [tokens[12]]
    right after asserting only [tokens.size() >= 9], so a line of nine
    to twelve tokens passes the assertion and is read past its end, in
    a build with assertions as in one without. *)
Theorem parseMashmapRow_reads_token_12_out_of_bounds :
  forall NDEBUG estimated_identity line cur,
    (9 <= List.length (tokenize line) <= 12)%nat ->
    parseMashmapRow NDEBUG estimated_identity line cur
    = Undefined (vector_index 12 (Z.of_nat (List.length (tokenize line)))).
Proof.
  intros NDEBUG ei line cur [H9 H12]. unfold parseMashmapRow, cpp_assert.
  replace (9 <=? Z.of_nat (List.length (tokenize line))) with true
    by (symmetry; apply Z.leb_le; lia).
  rewrite orb_true_r. cbn [bind].
  rewrite (vector_at_beyond (tokenize line) 12 H12). reflexivity.
Qed.

(** A row of exactly nine columns. *)
Lemma nine_column_row_is_read_out_of_bounds :
  List.length (tokenize row_nine_columns) = 9%nat
  /\ parseMashmapRow false identity_zero row_nine_columns default_row
     = Undefined (vector_index 12 9).
Proof.
  split; [reflexivity|].
  apply (parseMashmapRow_reads_token_12_out_of_bounds
           false identity_zero row_nine_columns default_row).
  vm_compute. split; apply Nat.leb_le; reflexivity.
Defined.

(** A line of fewer than nine tokens never gives a record: the
    assertion fails, or without it the read of [tokens[12]] is out of
    bounds. *)
Lemma parseMashmapRow_short NDEBUG estimated_identity line cur :
  (List.length (tokenize line) < 9)%nat ->
  parseMashmapRow NDEBUG estimated_identity line cur
  = if NDEBUG
    then Undefined (vector_index 12 (Z.of_nat (List.length (tokenize line))))
    else AssertionFailed "tokens.size() >= 9".
Proof.
  intros H. unfold parseMashmapRow, cpp_assert.
  replace (9 <=? Z.of_nat (List.length (tokenize line))) with false
    by (symmetry; apply Z.leb_gt; lia).
  rewrite orb_false_r. destruct NDEBUG; cbn [bind]; [|reflexivity].
  rewrite vector_at_beyond by lia. reflexivity.
Qed.

Lemma short_row_spec (line : string) :
  short_row line = true ->
  (slen line =? 0) = false /\ (List.length (tokenize line) < 9)%nat.
Proof.
  unfold short_row. intros H. apply andb_true_iff in H as [H1 H2].
  apply negb_true_iff in H1. apply Z.ltb_lt in H2. split; [exact H1|lia].
Qed.

(** With every other row well formed, the first pass ends at the first
    short row: in the failed assertion, or without assertions in the
    read of [tokens[12]]. *)
Lemma count_mapped_bases_stops NDEBUG estimated_identity lines :
  existsb short_row lines = true ->
  Forall (fun l => slen l = 0 \/ short_row l = true
                   \/ well_formed_row NDEBUG estimated_identity l) lines ->
  forall cur total,
    exists n,
      (n < 9)%nat
      /\ count_mapped_bases NDEBUG estimated_identity lines cur total
         = if NDEBUG then Undefined (vector_index 12 (Z.of_nat n))
           else AssertionFailed "tokens.size() >= 9".
Proof.
  induction lines as [|l rest IH]; intros Hex Hall cur total; [discriminate|].
  inversion Hall as [|? ? Hl Hrest]; subst.
  cbn [existsb] in Hex. cbn [count_mapped_bases].
  destruct (short_row l) eqn:Hs.
  - destruct (short_row_spec l Hs) as [Hne Hlen]. rewrite Hne. cbn [negb].
    rewrite (parseMashmapRow_short NDEBUG estimated_identity l cur Hlen).
    exists (List.length (tokenize l)). split; [exact Hlen|].
    destruct NDEBUG; reflexivity.
  - cbn [orb] in Hex. destruct Hl as [Hl|[Hl|Hl]]; [|discriminate|].
    + apply Z.eqb_eq in Hl. rewrite Hl. cbn [negb]. apply IH; assumption.
    + destruct (negb (slen l =? 0)); [|apply IH; assumption].
      destruct (Hl cur) as [rec Hrec]. rewrite Hrec. cbn [bind].
      apply IH; assumption.
Qed.

(** C1, as amended.  Take a mapping file with a non-empty row of fewer
    than nine columns, every other row of which is well formed.  In a
    build with assertions [computeAlignments] stops in its first pass
    over the file (lines 167-179), before the reader, the workers and
    the writer exist: the run ends in the failed assertion
    [tokens.size() >= 9], that is in [abort()], not in an exit code,
    and nothing has been written to the output.  In a build without
    assertions the first such row makes [parseMashmapRow] read
    [tokens[12]] of a vector of fewer than nine elements (line 125):
    the behaviour is undefined, and nothing is known of how the run
    ends or of what it writes. *)
Theorem short_row_stops_the_first_pass :
  forall NDEBUG estimated_identity pipeline_output after_undefined file,
    existsb short_row (getlines file "") = true ->
    Forall (fun l => slen l = 0 \/ short_row l = true
                     \/ well_formed_row NDEBUG estimated_identity l)
           (getlines file "") ->
    let r := computeAlignments NDEBUG estimated_identity pipeline_output
               after_undefined file in
    (NDEBUG = false ->
     ending r = AssertionFailed "tokens.size() >= 9"
     /\ ending r <> Exits 2
     /\ written r = [])
    /\ (NDEBUG = true ->
        exists n,
          (n < 9)%nat
          /\ ending r = Undefined (vector_index 12 (Z.of_nat n))).
Proof.
  intros NDEBUG ei po au file Hex Hall r. subst r. unfold computeAlignments.
  destruct (count_mapped_bases_stops NDEBUG ei _ Hex Hall default_row 0)
    as (n & Hn & E).
  rewrite E. split; intros ->; cbn [ending written].
  - split; [reflexivity|]. split; [discriminate|reflexivity].
  - exists n. split; [exact Hn|reflexivity].
Qed.

Lemma row_with_identity_well_formed :
  well_formed_row false identity_zero row_with_identity.
Proof. intros cur. eexists. reflexivity. Qed.

(** A well-formed row followed by a row of three columns, in a build
    with assertions. *)
Lemma file_with_short_row_stops_the_first_pass :
  existsb short_row (getlines file_with_short_row "") = true
  /\ ending (computeAlignments false identity_zero no_pipeline_output
               nothing_after_undefined file_with_short_row)
     = AssertionFailed "tokens.size() >= 9"
  /\ written (computeAlignments false identity_zero no_pipeline_output
                nothing_after_undefined file_with_short_row) = [].
Proof.
  split; [reflexivity|].
  assert (Hall : Forall (fun l => slen l = 0 \/ short_row l = true
                                  \/ well_formed_row false identity_zero l)
                        (getlines file_with_short_row "")).
  { replace (getlines file_with_short_row "")
      with [row_with_identity; row_three_columns] by reflexivity.
    apply Forall_cons; [|apply Forall_cons; [|apply Forall_nil]].
    - right. right. exact row_with_identity_well_formed.
    - right. left. reflexivity. }
  destruct (short_row_stops_the_first_pass
              false identity_zero no_pipeline_output nothing_after_undefined
              file_with_short_row eq_refl Hall) as [Hab _].
  destruct (Hab eq_refl) as (He & _ & Hw).
  split; [exact He|exact Hw].
Defined.

(** C1, as stated, fails: a row of three columns ends the run in the
    failed assertion, which is not [exit(2)]. *)
Lemma three_column_row_does_not_exit_with_2 :
  ending (computeAlignments false identity_zero no_pipeline_output
            nothing_after_undefined row_three_columns)
  = AssertionFailed "tokens.size() >= 9"
  /\ ending (computeAlignments false identity_zero no_pipeline_output
               nothing_after_undefined row_three_columns)
     <> Exits 2.
Proof. split; [reflexivity|discriminate]. Qed.

(** The same row in a build without assertions: [tokens[12]] of a
    vector of three elements. *)
Example three_column_row_without_assertions :
  ending (computeAlignments true identity_zero no_pipeline_output
            nothing_after_undefined row_three_columns)
  = Undefined (vector_index 12 3).
Proof. reflexivity. Qed.

(** *** The regions [doAlignment] works on  (lines 435-477) *)

Lemma to_uint64_small (z : Z) : 0 <= z < 2 ^ 64 -> to_uint64 z = z.
Proof. intros H. unfold to_uint64. apply Z.mod_small. exact H. Qed.

Lemma to_int64_small (z : Z) : 0 <= z < 2 ^ 63 -> to_int64 z = z.
Proof.
  intros H. unfold to_int64. rewrite Z.mod_small; lia.
Qed.

(** C4, as amended.  Only the target interval is extended, and by the
    flank that exists: at its head by the smaller of
    [wflign_max_len_minor] and the bases before [rStartPos], at its tail
    by the smaller of [wflign_max_len_minor] and the bases after
    [rEndPos]; the fetched range stays inside the target sequence.  The
    query interval is handed over as it is, [qStartPos] to [qEndPos]. *)
Theorem doAlignment_pads_the_target_by_the_available_flank :
  forall wflign_max_len_minor ref_size rec,
    0 <= wflign_max_len_minor < 2 ^ 63 ->
    0 <= rStartPos rec <= rEndPos rec ->
    rEndPos rec <= ref_size < 2 ^ 63 ->
    let r := doAlignment_regions wflign_max_len_minor ref_size rec in
    head_padding r = Z.min wflign_max_len_minor (rStartPos rec)
    /\ tail_padding r = Z.min wflign_max_len_minor (ref_size - rEndPos rec)
    /\ fetch_begin r = rStartPos rec - head_padding r
    /\ fetch_end r = rEndPos rec + tail_padding r
    /\ 0 <= fetch_begin r
    /\ fetch_end r <= ref_size
    /\ target_offset r = rStartPos rec
    /\ target_length r = rEndPos rec - rStartPos rec
    /\ query_offset r = qStartPos rec
    /\ query_length r = qEndPos rec - qStartPos rec.
Proof.
  intros minor ref_size rec Hm Hr He r. subst r.
  unfold doAlignment_regions.
  cbn [head_padding tail_padding fetch_begin fetch_end target_offset
       target_length query_offset query_length].
  rewrite (to_uint64_small (rStartPos rec)) by lia.
  rewrite (to_uint64_small (ref_size - rEndPos rec)) by lia.
  assert (Hh : (if minor <=? rStartPos rec then minor else rStartPos rec)
               = Z.min minor (rStartPos rec)).
  { destruct (minor <=? rStartPos rec) eqn:E;
      [apply Z.leb_le in E|apply Z.leb_gt in E]; lia. }
  assert (Ht : (if minor <=? ref_size - rEndPos rec then minor
                else ref_size - rEndPos rec)
               = Z.min minor (ref_size - rEndPos rec)).
  { destruct (minor <=? ref_size - rEndPos rec) eqn:E;
      [apply Z.leb_le in E|apply Z.leb_gt in E]; lia. }
  rewrite Hh, Ht.
  rewrite (to_uint64_small (rStartPos rec - _)) by lia.
  rewrite (to_uint64_small (rEndPos rec + _)) by lia.
  rewrite !to_int64_small by lia.
  repeat split; lia.
Qed.

(** A mapping ten bases after the start of a target of 1000 bases, with
    the default [wflign_max_len_minor] of 128000. *)
Lemma regions_of_row_near_start :
  let r := doAlignment_regions 128000 1000 row_near_start in
  head_padding r = Z.min 128000 (rStartPos row_near_start)
  /\ tail_padding r = Z.min 128000 (1000 - rEndPos row_near_start)
  /\ fetch_begin r = rStartPos row_near_start - head_padding r
  /\ fetch_end r = rEndPos row_near_start + tail_padding r
  /\ 0 <= fetch_begin r
  /\ fetch_end r <= 1000
  /\ target_offset r = rStartPos row_near_start
  /\ target_length r = rEndPos row_near_start - rStartPos row_near_start
  /\ query_offset r = qStartPos row_near_start
  /\ query_length r = qEndPos row_near_start - qStartPos row_near_start.
Proof.
  apply (doAlignment_pads_the_target_by_the_available_flank
           128000 1000 row_near_start); cbn; lia.
Defined.

(** C4, as stated, fails.  Near the start of the target the head flank
    is 10 bases and the tail flank 940, not 128000; and in the middle of
    a long target, where both target flanks are 128000 bases, the query
    region is still the 5000 bases from [qStartPos] to [qEndPos]. *)
Lemma query_is_not_padded_and_target_flank_is_clipped :
  (let r := doAlignment_regions 128000 1000 row_near_start in
   head_padding r = 10 /\ tail_padding r = 940
   /\ fetch_begin r = 0 /\ fetch_end r = 1000)
  /\ (let r := doAlignment_regions 128000 10000000 row_in_the_middle in
      head_padding r = 128000 /\ tail_padding r = 128000
      /\ query_offset r = 2000 /\ query_length r = 5000
      /\ query_offset r <> qStartPos row_in_the_middle - 128000
      /\ query_length r
         <> qEndPos row_in_the_middle - qStartPos row_in_the_middle + 2 * 128000).
Proof. cbv zeta. repeat split; try reflexivity; discriminate. Qed.

(** *** The two queues  (lines 57-60, 250, 266, 360) *)

Section PipelineFacts.

Variable doAlignment : seq_record_t -> nat -> string.

Lemma queue_push_some {A} (q q' : list A) (a : A) :
  queue_push q a = Some q' ->
  q' = (q ++ [a])%list /\ Z.of_nat (List.length q') <= queue_capacity.
Proof.
  unfold queue_push. destruct (Z.of_nat (List.length q) <? queue_capacity) eqn:E;
    [|discriminate].
  intros H. injection H as <-. split; [reflexivity|].
  apply Z.ltb_lt in E. rewrite length_app. cbn [List.length]. lia.
Qed.

Lemma queue_push_none {A} (q : list A) (a : A) :
  queue_push q a = None <-> queue_capacity <= Z.of_nat (List.length q).
Proof.
  unfold queue_push.
  destruct (Z.of_nat (List.length q) <? queue_capacity) eqn:E.
  - apply Z.ltb_lt in E. split; [discriminate|lia].
  - apply Z.ltb_ge in E. split; [intros _; exact E|reflexivity].
Qed.

Lemma queue_try_pop_some {A} (q q' : list A) (a : A) :
  queue_try_pop q = Some (a, q') -> q = a :: q'.
Proof.
  destruct q as [|b r]; [discriminate|].
  intros H. injection H as -> ->. reflexivity.
Qed.

(** Takes a step apart into the cases of its definition. *)
Ltac step_cases H :=
  unfold step, step_reader, step_worker, step_writer, set_worker, set_writer in H;
  repeat match type of H with
  | context [match ?x with _ => _ end] => destruct x eqn:?; try discriminate H
  end;
  injection H as <-.

Lemma step_within_capacity (t : thread) (s s' : pipeline) :
  step doAlignment t s = Some s' -> within_capacity s -> within_capacity s'.
Proof.
  intros H [Hs Hp]. unfold within_capacity.
  step_cases H; cbn [seq_queue paf_queue]; try (split; assumption);
    repeat match goal with
    | E : queue_push _ _ = Some _ |- _ => apply queue_push_some in E; destruct E as [-> ?]
    | E : queue_try_pop _ = Some _ |- _ =>
        apply queue_try_pop_some in E; rewrite E in *; cbn [List.length] in *
    end;
    split; try assumption; lia.
Qed.

Lemma run_within_capacity (schedule : list thread) (s : pipeline) :
  within_capacity s -> within_capacity (run doAlignment schedule s).
Proof.
  revert s. induction schedule as [|t rest IH]; intros s H; [exact H|].
  cbn [run]. destruct (step doAlignment t s) eqn:E; apply IH; [|exact H].
  exact (step_within_capacity t s p E H).
Qed.

Lemma launch_within_capacity (to_push : list seq_record_t) (nthreads : nat) :
  within_capacity (launch to_push nthreads).
Proof. split; cbn; discriminate. Qed.

(** C2, as amended.  Both queues have capacity [2 << 16] = 131072.  In
    every state the threads can reach, neither queue holds more than
    131072 elements; the reader's push has no step exactly when the work
    queue holds 131072 records, and a worker's push has no step exactly
    when the result queue holds 131072 strings, so each waits until a
    pop has made room. *)
Theorem queues_hold_at_most_131072 :
  forall to_push nthreads schedule,
    let s := run doAlignment schedule (launch to_push nthreads) in
    Z.of_nat (List.length (seq_queue s)) <= 131072
    /\ Z.of_nat (List.length (paf_queue s)) <= 131072
    /\ (forall q rest,
           reader s = RPush (q :: rest) ->
           (step doAlignment Reader s = None
            <-> Z.of_nat (List.length (seq_queue s)) = 131072))
    /\ (forall tid paf_rec,
           nth_error (workers s) tid = Some (WPush paf_rec) ->
           (step doAlignment (Worker tid) s = None
            <-> Z.of_nat (List.length (paf_queue s)) = 131072)).
Proof.
  intros to_push nthreads schedule s.
  assert (H : within_capacity s)
    by (apply run_within_capacity, launch_within_capacity).
  destruct H as [Hs Hp]. change queue_capacity with 131072 in Hs, Hp.
  split; [exact Hs|]. split; [exact Hp|]. split.
  - intros q rest Hr. cbn [step]. unfold step_reader. rewrite Hr.
    destruct (queue_push (seq_queue s) q) eqn:E.
    + split; [discriminate|]. intros Hfull.
      assert (N : queue_push (seq_queue s) q = None)
        by (apply queue_push_none; change queue_capacity with 131072; lia).
      congruence.
    + apply queue_push_none in E. change queue_capacity with 131072 in E.
      split; [intros _; lia|reflexivity].
  - intros tid paf_rec Hw. cbn [step]. unfold step_worker. rewrite Hw.
    destruct (queue_push (paf_queue s) paf_rec) eqn:E.
    + split; [discriminate|]. intros Hfull.
      assert (N : queue_push (paf_queue s) paf_rec = None)
        by (apply queue_push_none; change queue_capacity with 131072; lia).
      congruence.
    + apply queue_push_none in E. change queue_capacity with 131072 in E.
      split; [intros _; lia|reflexivity].
Qed.

(** The reader alone, [n] steps in a row, with room for [n] records. *)
Lemma reader_fills_the_queue (r : seq_record_t) (n : nat) :
  forall s more,
    reader s = RPush (repeat r n ++ more)%list ->
    Z.of_nat (List.length (seq_queue s)) + Z.of_nat n <= queue_capacity ->
    seq_queue (run doAlignment (repeat Reader n) s)
    = (seq_queue s ++ repeat r n)%list.
Proof.
  induction n as [|n IH]; intros s more Hr Hroom.
  - cbn. rewrite app_nil_r. reflexivity.
  - cbn [repeat run step]. unfold step_reader. rewrite Hr. cbn [repeat app].
    unfold queue_push.
    replace (Z.of_nat (List.length (seq_queue s)) <? queue_capacity) with true
      by (symmetry; apply Z.ltb_lt; lia).
    rewrite (IH _ more); cbn [reader seq_queue].
    + rewrite <- app_assoc. reflexivity.
    + reflexivity.
    + rewrite length_app. cbn [List.length]. lia.
Qed.

End PipelineFacts.

(** C2, as stated, fails: when the reader pushes 65537 records before a
    worker pops one, the work queue holds 65537 records. *)
Lemma work_queue_can_hold_65537_records :
  let s := run align_to_x (repeat Reader (Z.to_nat 65537))
               (launch (repeat one_record (Z.to_nat 65537)) 1) in
  Z.of_nat (List.length (seq_queue s)) = 65537
  /\ ~ Z.of_nat (List.length (seq_queue s)) <= 65536.
Proof.
  cbv zeta.
  assert (Hn : Z.of_nat (Z.to_nat 65537) = 65537) by (apply Z2Nat.id; lia).
  revert Hn. generalize (Z.to_nat 65537). intros n Hn.
  assert (E : seq_queue (run align_to_x (repeat Reader n)
                           (launch (repeat one_record n) 1))
              = repeat one_record n).
  { apply (reader_fills_the_queue align_to_x one_record n
             (launch (repeat one_record n) 1) []).
    - cbn [launch reader]. rewrite app_nil_r. reflexivity.
    - cbn [launch seq_queue List.length]. rewrite Hn.
      change queue_capacity with 131072. lia. }
  rewrite E, repeat_length, Hn. split; lia.
Qed.

(** *** The end of the pipeline  (lines 280-306 and 334-380) *)

(** C7.  The claim: a worker leaves its loop only when the work queue
    is empty and [reader_done] is true, and the writer only when the
    result queue is empty and no worker is working, so that no result is
    left behind.  The code tests the queue ([try_pop], lines 296 and
    340) and the flags (lines 297 and 341) in two steps.  First
    schedule: the worker's pop fails, the reader pushes the record and
    sets [reader_done], the worker reads [reader_done] and leaves; every
    thread returns with the record still in the work queue.  Second
    schedule: the writer's pop fails, the worker pushes its result and
    leaves, the writer reads the flag and leaves; every thread returns
    with the result still in the result queue.  Nothing is written in
    either. *)
Theorem threads_can_return_with_a_queue_not_empty :
  (let s := run align_to_x
              [Worker 0; Worker 0; Reader; Reader; Worker 0; Worker 0;
               Writer; Writer; Writer]%nat
              (launch [one_record] 1) in
   all_joined s = true /\ seq_queue s = [one_record]
   /\ paf_queue s = [] /\ outstrm s = [])
  /\ (let s := run align_to_x
                 [Worker 0; Reader; Worker 0; Reader; Worker 0; Writer;
                  Worker 0; Worker 0; Worker 0; Worker 0; Writer; Writer]%nat
                 (launch [one_record] 1) in
      all_joined s = true /\ seq_queue s = []
      /\ paf_queue s = ["x"] /\ outstrm s = []).
Proof. cbv zeta. repeat split. Qed.

(** The same input under a schedule without these interleavings: the
    result is written. *)
Example threads_return_after_writing :
  let s := run align_to_x
             [Reader; Reader; Worker 0; Worker 0; Worker 0; Worker 0;
              Worker 0; Worker 0; Worker 0; Writer; Writer; Writer; Writer;
              Writer; Writer]%nat
             (launch [one_record] 1) in
  all_joined s = true /\ seq_queue s = [] /\ paf_queue s = []
  /\ outstrm s = ["x"].
Proof. cbv zeta. repeat split. Qed.

Lemma length_update {A} (l : list A) (i : nat) (a : A) :
  List.length (update l i a) = List.length l.
Proof.
  revert i. induction l as [|x l IH]; intros [|i]; cbn; try reflexivity.
  rewrite IH. reflexivity.
Qed.

Lemma nth_error_update_eq {A} (l : list A) (i : nat) (a x : A) :
  nth_error l i = Some x -> nth_error (update l i a) i = Some a.
Proof.
  revert i. induction l as [|y l IH]; intros [|i]; cbn; try discriminate.
  - reflexivity.
  - apply IH.
Qed.

Lemma nth_error_update_neq {A} (l : list A) (i j : nat) (a : A) :
  i <> j -> nth_error (update l i a) j = nth_error l j.
Proof.
  revert i j. induction l as [|y l IH]; intros [|i] [|j] H; cbn;
    try reflexivity; try congruence.
  apply IH. congruence.
Qed.

Lemma nth_error_update {A} (l : list A) (i j : nat) (a x : A) :
  nth_error l i = Some x ->
  nth_error (update l i a) j = if Nat.eqb i j then Some a else nth_error l j.
Proof.
  intros H. destruct (Nat.eqb i j) eqn:E.
  - apply Nat.eqb_eq in E. subst j. exact (nth_error_update_eq l i a x H).
  - apply Nat.eqb_neq in E. exact (nth_error_update_neq l i j a E).
Qed.

Section ShutdownFacts.

Variable doAlignment : seq_record_t -> nat -> string.

Lemma launch_shutdown_invariant to_push nthreads :
  shutdown_invariant (launch to_push nthreads).
Proof.
  unfold shutdown_invariant, launch. cbn.
  rewrite !repeat_length. split; [reflexivity|]. split; [|split; [|split]].
  - intros tid H. apply nth_error_In, repeat_spec in H. discriminate.
  - intros tid [H|H]; apply nth_error_In, repeat_spec in H; discriminate.
  - discriminate.
  - discriminate.
Qed.

Lemma worker_has_flag (s : pipeline) tid pc :
  List.length (working s) = List.length (workers s) ->
  nth_error (workers s) tid = Some pc ->
  exists b, nth_error (working s) tid = Some b.
Proof.
  intros Hlen H. destruct (nth_error (working s) tid) eqn:E; [eauto|].
  apply nth_error_None in E. assert (nth_error (workers s) tid <> None) by congruence.
  apply nth_error_Some in H0. lia.
Qed.

Lemma step_shutdown_invariant (t : thread) (s s' : pipeline) :
  step doAlignment t s = Some s' -> shutdown_invariant s -> shutdown_invariant s'.
Proof.
  intros H (Hlen & Hfalse & Hdone & Hscan & Hexit).
  destruct t as [| |tid].
  - (* reader *)
    cbn [step] in H. unfold step_reader in H.
    destruct (reader s) as [[|q rest]|]; [| |discriminate].
    + injection H as <-. unfold shutdown_invariant. cbn.
      repeat split; auto.
    + destruct (queue_push (seq_queue s) q); [|discriminate].
      injection H as <-. unfold shutdown_invariant. cbn.
      repeat split; auto.
  - (* writer *)
    cbn [step] in H. unfold step_writer, set_writer in H.
    destruct (writer s) as [|i|l|] eqn:Hw; [| | |discriminate].
    + destruct (queue_try_pop (paf_queue s)) as [[l pq]|];
        injection H as <-; unfold shutdown_invariant; cbn;
        repeat split; auto; try discriminate.
      intros i Hi j Hj. injection Hi as <-. lia.
    + destruct (nth_error (working s) i) as [[|]|] eqn:Hi;
        injection H as <-; unfold shutdown_invariant; cbn;
        repeat split; auto; try discriminate.
      * intros i' Hi' j Hj Hjl. injection Hi' as <-.
        destruct (Nat.eq_dec j i) as [->|Hne]; [exact Hi|].
        apply (Hscan i eq_refl); lia.
      * intros _ j Hj. apply nth_error_None in Hi.
        apply (Hscan i eq_refl); lia.
    + injection H as <-. unfold shutdown_invariant; cbn.
      repeat split; auto; discriminate.
  - (* worker *)
    cbn [step] in H. unfold step_worker, set_worker in H.
    destruct (nth_error (workers s) tid) as [pc|] eqn:Hpc; [|discriminate].
    destruct (worker_has_flag s tid pc Hlen Hpc) as [b Hb].
    assert (Hb' : b = true).
    { destruct b; [reflexivity|]. specialize (Hfalse tid Hb).
      rewrite Hfalse in Hpc. injection Hpc as <-. discriminate. }
    subst b.
    assert (Hkeep : forall j, nth_error (working s) j = Some false ->
                              j <> tid) by (intros j Hj ->; congruence).
    destruct pc; try discriminate.
    + (* WStart *)
      injection H as <-. unfold shutdown_invariant. cbn.
      rewrite !length_update. split; [exact Hlen|].
      split; [|split; [|split]].
      * intros j Hj. rewrite (nth_error_update _ tid j _ _ Hb) in Hj.
        rewrite (nth_error_update _ tid j _ _ Hpc).
        destruct (Nat.eqb tid j); [congruence|auto].
      * intros j Hj. rewrite (nth_error_update _ tid j _ _ Hpc) in Hj.
        destruct (Nat.eqb tid j); [destruct Hj; congruence|eauto].
      * intros i Hi j Hj Hjl.
        specialize (Hscan i Hi j Hj Hjl).
        rewrite (nth_error_update _ tid j _ _ Hb).
        destruct (Nat.eqb tid j) eqn:E; [|exact Hscan].
        apply Nat.eqb_eq in E. subst j. congruence.
      * intros Hw j Hj. specialize (Hexit Hw j Hj).
        rewrite (nth_error_update _ tid j _ _ Hb).
        destruct (Nat.eqb tid j) eqn:E; [|exact Hexit].
        apply Nat.eqb_eq in E. subst j. congruence.
    + (* WTryPop *)
      destruct (queue_try_pop (seq_queue s)) as [[rec sq]|];
        injection H as <-; unfold shutdown_invariant; cbn;
        rewrite ?length_update; (split; [exact Hlen|]);
        (split; [|split; [|split]]); auto.
      * intros j Hj. rewrite (nth_error_update_neq _ tid j _); auto.
        intros ->. congruence.
      * intros j Hj. rewrite (nth_error_update _ tid j _ _ Hpc) in Hj.
        destruct (Nat.eqb tid j); [destruct Hj; congruence|eauto].
      * intros j Hj. rewrite (nth_error_update_neq _ tid j _); auto.
        intros ->. congruence.
      * intros j Hj. rewrite (nth_error_update _ tid j _ _ Hpc) in Hj.
        destruct (Nat.eqb tid j); [destruct Hj; congruence|eauto].
    + (* WReaderDone *)
      destruct (reader_done s) eqn:Hrd;
        injection H as <-; unfold shutdown_invariant; cbn;
        rewrite ?length_update; (split; [exact Hlen|]);
        (split; [|split; [|split]]); auto.
      * intros j Hj. rewrite (nth_error_update_neq _ tid j _); auto.
        intros ->. congruence.
      * intros j Hj. rewrite (nth_error_update_neq _ tid j _); auto.
        intros ->. congruence.
      * intros j Hj. rewrite (nth_error_update _ tid j _ _ Hpc) in Hj.
        destruct (Nat.eqb tid j); [destruct Hj; congruence|eauto].
    + (* WAlign *)
      destruct (negb (slen (doAlignment rec tid) =? 0));
        injection H as <-; unfold shutdown_invariant; cbn;
        rewrite ?length_update; (split; [exact Hlen|]);
        (split; [|split; [|split]]); auto.
      * intros j Hj. rewrite (nth_error_update_neq _ tid j _); auto.
        intros ->. congruence.
      * intros j Hj. rewrite (nth_error_update _ tid j _ _ Hpc) in Hj.
        destruct (Nat.eqb tid j); [destruct Hj; congruence|eauto].
      * intros j Hj. rewrite (nth_error_update_neq _ tid j _); auto.
        intros ->. congruence.
      * intros j Hj. rewrite (nth_error_update _ tid j _ _ Hpc) in Hj.
        destruct (Nat.eqb tid j); [destruct Hj; congruence|eauto].
    + (* WPush *)
      destruct (queue_push (paf_queue s) paf_rec); [|discriminate].
      injection H as <-; unfold shutdown_invariant; cbn;
        rewrite ?length_update; (split; [exact Hlen|]);
        (split; [|split; [|split]]); auto.
      * intros j Hj. rewrite (nth_error_update_neq _ tid j _); auto.
        intros ->. congruence.
      * intros j Hj. rewrite (nth_error_update _ tid j _ _ Hpc) in Hj.
        destruct (Nat.eqb tid j); [destruct Hj; congruence|eauto].
    + (* WStoreIdle *)
      assert (Hrd : reader_done s = true) by (apply (Hdone tid); auto).
      injection H as <-; unfold shutdown_invariant; cbn;
        rewrite ?length_update; (split; [exact Hlen|]);
        (split; [|split; [|split]]); auto.
      * intros j Hj. rewrite (nth_error_update _ tid j _ _ Hb) in Hj.
        rewrite (nth_error_update _ tid j _ _ Hpc).
        destruct (Nat.eqb tid j); [reflexivity|auto].
      * intros i Hi j Hj Hjl. specialize (Hscan i Hi j Hj Hjl).
        rewrite (nth_error_update _ tid j _ _ Hb).
        destruct (Nat.eqb tid j); [reflexivity|exact Hscan].
      * intros Hw j Hj. specialize (Hexit Hw j Hj).
        rewrite (nth_error_update _ tid j _ _ Hb).
        destruct (Nat.eqb tid j); [reflexivity|exact Hexit].
Qed.

Lemma run_shutdown_invariant (schedule : list thread) (s : pipeline) :
  shutdown_invariant s -> shutdown_invariant (run doAlignment schedule s).
Proof.
  revert s. induction schedule as [|t rest IH]; intros s H; [exact H|].
  cbn [run]. destruct (step doAlignment t s) eqn:E; apply IH; [|exact H].
  exact (step_shutdown_invariant t s p E H).
Qed.

(** What the two tests of the worker and of the writer do ensure, in
    every state the threads can reach: a worker that has left its loop
    has seen [reader_done] true, and when the writer has returned every
    worker has returned, so none is still holding a result it has not
    pushed. *)
Lemma writer_returns_after_the_workers to_push nthreads (s : pipeline) :
  reachable doAlignment to_push nthreads s ->
  (forall tid,
      nth_error (workers s) tid = Some WStoreIdle
      \/ nth_error (workers s) tid = Some WExited ->
      reader_done s = true)
  /\ (writer s = PExited ->
      forall tid pc, nth_error (workers s) tid = Some pc -> pc = WExited).
Proof.
  intros [schedule <-].
  pose proof (run_shutdown_invariant schedule _
                (launch_shutdown_invariant to_push nthreads))
    as (Hlen & Hfalse & Hdone & _ & Hexit).
  split; [exact Hdone|].
  intros Hw tid pc Hpc.
  assert (Hlt : (tid < List.length (working (run doAlignment schedule
                                               (launch to_push nthreads))))%nat).
  { rewrite Hlen. apply nth_error_Some. congruence. }
  specialize (Hfalse tid (Hexit Hw tid Hlt)). congruence.
Qed.

End ShutdownFacts.



(** *** [handy_parameter]  (lines 32-52) *)

Lemma slen_append (s t : string) : slen (s ++ t) = slen s + slen t.
Proof.
  unfold slen. induction s as [|c s IH]; [reflexivity|].
  cbn [append String.length]. rewrite !Nat2Z.inj_succ. lia.
Qed.

Lemma slen_nonneg (s : string) : 0 <= slen s.
Proof. unfold slen. lia. Qed.

Lemma substr0_append (s t : string) : substr0 (s ++ t) (slen s) = s.
Proof.
  unfold substr0, slen. rewrite Nat2Z.id.
  induction s as [|c s IH].
  - destruct t; reflexivity.
  - cbn [append String.length substring]. rewrite IH. reflexivity.
Qed.

Lemma substr0_all (s : string) : substr0 s (slen s) = s.
Proof.
  unfold substr0, slen. rewrite Nat2Z.id.
  induction s as [|c s IH]; [reflexivity|].
  cbn [String.length substring]. rewrite IH. reflexivity.
Qed.

Lemma get_last (s : string) (c : ascii) :
  last_char s = Some c -> String.get (String.length s - 1) s = Some c.
Proof.
  induction s as [|a s IH]; [discriminate|].
  destruct s as [|b s].
  - cbn. intros H. exact H.
  - intros H. cbn [last_char] in H. specialize (IH H).
    cbn [String.length] in *. cbn [Nat.sub] in *.
    rewrite Nat.sub_0_r in IH. cbn [String.get]. exact IH.
Qed.

Lemma last_char_append (s : string) (c : ascii) :
  last_char (s ++ String c "") = Some c.
Proof.
  induction s as [|a s IH]; [reflexivity|].
  cbn [append last_char]. rewrite IH.
  destruct (s ++ String c "") eqn:E; [|reflexivity].
  destruct s; discriminate.
Qed.

Lemma last_char_length (s : string) (c : ascii) :
  last_char s = Some c -> 1 <= slen s.
Proof. destruct s; [discriminate|]. intros _. unfold slen. cbn [String.length]. lia. Qed.

(** The last character read at line 39, for a string that has one. *)
Lemma string_at_last (s : string) (c : ascii) :
  last_char s = Some c ->
  slen s < 2 ^ 64 ->
  string_at s (to_uint64 (slen s - 1)) = Returns c.
Proof.
  intros Hl Hb. pose proof (last_char_length s c Hl) as H1.
  unfold string_at. rewrite to_uint64_small by lia.
  replace ((0 <=? slen s - 1) && (slen s - 1 <=? slen s)) with true
    by (symmetry; apply andb_true_iff; split; apply Z.leb_le; lia).
  unfold slen in *. replace (Z.to_nat (Z.of_nat (String.length s) - 1))
    with (String.length s - 1)%nat by lia.
  rewrite (get_last s c Hl). reflexivity.
Qed.

(** [handy_parameter] on a string with last character [c]. *)
Lemma handy_parameter_last (value : string) (c : ascii) :
  last_char value = Some c ->
  slen value < 2 ^ 64 ->
  handy_parameter value
  = let '(exp, str_len) :=
      if char_is c "k" "K" then (3, slen value - 1)
      else if char_is c "m" "M" then (6, slen value - 1)
      else if char_is c "g" "G" then (9, slen value - 1)
      else (0, slen value) in
    if is_a_float (substr0 value str_len) then
      f <- stof (substr0 value str_len) ;;
      Float.to_int (Float.mul64 f (Float.pow10 exp))
    else Returns (-1).
Proof.
  intros Hl Hb. unfold handy_parameter. rewrite (string_at_last value c Hl Hb).
  reflexivity.
Qed.

(** With a suffix, the part before it is what [is_a_float] and
    [std::stof] see. *)
Lemma handy_parameter_suffix (tmp : string) (x : suffix) :
  x <> no_suffix ->
  slen (tmp ++ suffix_string x) < 2 ^ 64 ->
  handy_parameter (tmp ++ suffix_string x)
  = if is_a_float tmp then
      f <- stof tmp ;;
      Float.to_int (Float.mul64 f (Float.pow10 (suffix_exp x)))
    else Returns (-1).
Proof.
  intros Hx Hb.
  assert (Hsub : substr0 (tmp ++ suffix_string x)
                   (slen (tmp ++ suffix_string x) - 1) = tmp).
  { rewrite slen_append.
    replace (slen tmp + slen (suffix_string x) - 1) with (slen tmp)
      by (destruct x; [contradiction| | | | | |];
          unfold slen; cbn [suffix_string String.length]; lia).
    apply substr0_append. }
  destruct x; [contradiction| | | | | |];
    cbn [suffix_exp suffix_string] in *;
    rewrite (handy_parameter_last _ _ (last_char_append tmp _) Hb);
    cbn [char_is Ascii.eqb Bool.eqb orb andb];
    cbv zeta; rewrite Hsub; reflexivity.
Qed.

(** Without a suffix, the whole string is. *)
Lemma handy_parameter_no_suffix (value : string) (c : ascii) :
  last_char value = Some c ->
  is_suffix_letter c = false ->
  slen value < 2 ^ 64 ->
  handy_parameter value
  = if is_a_float value then
      f <- stof value ;;
      Float.to_int (Float.mul64 f (Float.pow10 0))
    else Returns (-1).
Proof.
  intros Hl Hc Hb. rewrite (handy_parameter_last value c Hl Hb).
  unfold is_suffix_letter in Hc.
  apply orb_false_iff in Hc as [Hc Hg]. apply orb_false_iff in Hc as [Hk Hm].
  rewrite Hk, Hm, Hg. rewrite substr0_all. reflexivity.
Qed.

Lemma suffix_eq_dec (x y : suffix) : {x = y} + {x <> y}.
Proof. decide equality. Defined.

Lemma append_empty (s : string) : s ++ "" = s.
Proof. induction s as [|c s IH]; [reflexivity|]. cbn [append]. rewrite IH. reflexivity. Qed.

Lemma string_forallb_append (p : ascii -> bool) (s t : string) :
  string_forallb p (s ++ t) = string_forallb p s && string_forallb p t.
Proof.
  induction s as [|c s IH]; [reflexivity|].
  cbn [append string_forallb]. rewrite IH. apply andb_assoc.
Qed.

Lemma string_count_append (p : ascii -> bool) (s t : string) :
  string_count p (s ++ t) = string_count p s + string_count p t.
Proof.
  induction s as [|c s IH]; [reflexivity|].
  cbn [append string_count]. rewrite IH. lia.
Qed.

Lemma last_char_forallb (p : ascii -> bool) (s : string) (c : ascii) :
  string_forallb p s = true -> last_char s = Some c -> p c = true.
Proof.
  induction s as [|a s IH]; [discriminate|].
  cbn [string_forallb]. intros H Hl. apply andb_true_iff in H as [Ha Hs].
  destruct s as [|b s].
  - injection Hl as <-. exact Ha.
  - apply IH; assumption.
Qed.

Lemma suffix_letter_cases (c : ascii) :
  is_suffix_letter c = true ->
  c = "k"%char \/ c = "K"%char \/ c = "m"%char \/ c = "M"%char
  \/ c = "g"%char \/ c = "G"%char.
Proof.
  unfold is_suffix_letter, char_is. intros H.
  repeat (apply orb_true_iff in H; destruct H as [H|H]);
    apply Ascii.eqb_eq in H; auto 10.
Qed.

Lemma digit_or_dot_not_suffix (c : ascii) :
  is_digit c || is_dot c = true -> is_suffix_letter c = false.
Proof.
  intros H. destruct (is_suffix_letter c) eqn:E; [|reflexivity].
  destruct (suffix_letter_cases c E) as [->|[->|[->|[->|[->| ->]]]]];
    discriminate H.
Qed.

Lemma digit_not_dot (c : ascii) : is_digit c = true -> is_dot c = false.
Proof.
  intros H. destruct (is_dot c) eqn:E; [|reflexivity].
  apply Ascii.eqb_eq in E. subst c. discriminate H.
Qed.

Lemma all_digits_no_dot (s : string) :
  all_digits s = true -> string_count is_dot s = 0.
Proof.
  induction s as [|c s IH]; [reflexivity|].
  unfold all_digits. cbn [string_forallb string_count]. intros H.
  apply andb_true_iff in H as [Hc Hs].
  rewrite (digit_not_dot c Hc), (IH Hs). reflexivity.
Qed.

Lemma all_digits_digit_or_dot (s : string) :
  all_digits s = true ->
  string_forallb (fun c => is_digit c || is_dot c) s = true.
Proof.
  induction s as [|c s IH]; [reflexivity|].
  unfold all_digits. cbn [string_forallb]. intros H.
  apply andb_true_iff in H as [Hc Hs]. rewrite Hc, (IH Hs). reflexivity.
Qed.

Lemma numeral_digit_or_dot ip point fp :
  well_shaped ip point fp ->
  string_forallb (fun c => is_digit c || is_dot c) (numeral ip point fp) = true.
Proof.
  intros (Hi & Hf & _ & _). unfold numeral. destruct point.
  - rewrite string_forallb_append. cbn [string_forallb].
    rewrite (all_digits_digit_or_dot ip Hi), (all_digits_digit_or_dot fp Hf).
    reflexivity.
  - exact (all_digits_digit_or_dot ip Hi).
Qed.

Lemma numeral_length ip point fp :
  well_shaped ip point fp -> 0 < slen (numeral ip point fp).
Proof.
  intros (_ & _ & Hp & Hlen). unfold numeral. destruct point.
  - rewrite slen_append. unfold slen at 2. cbn [String.length].
    pose proof (slen_nonneg ip). lia.
  - rewrite (Hp eq_refl) in Hlen. unfold slen at 2 in Hlen. cbn in Hlen. lia.
Qed.

Lemma is_a_float_numeral ip point fp :
  well_shaped ip point fp -> is_a_float (numeral ip point fp) = true.
Proof.
  intros H. unfold is_a_float.
  rewrite (numeral_digit_or_dot ip point fp H).
  pose proof (numeral_length ip point fp H) as Hlen.
  replace (slen (numeral ip point fp) =? 0) with false
    by (symmetry; apply Z.eqb_neq; lia).
  destruct H as (Hi & Hf & _ & _). unfold numeral. destruct point.
  - rewrite string_count_append. cbn [string_count].
    rewrite (all_digits_no_dot ip Hi), (all_digits_no_dot fp Hf). reflexivity.
  - rewrite (all_digits_no_dot ip Hi). reflexivity.
Qed.

Lemma decimal_value_append (a b : string) (acc : Z) :
  decimal_value (a ++ b) acc = decimal_value b (decimal_value a acc).
Proof.
  revert acc. induction a as [|c a IH]; intros acc; [reflexivity|].
  cbn [append decimal_value]. apply IH.
Qed.

(** A run of digits followed by something that is not a digit. *)
Lemma scan_digits_run (ds rest : string) :
  all_digits ds = true ->
  match rest with String c _ => is_digit c = false | EmptyString => True end ->
  forall acc n,
    scan_digits (ds ++ rest) acc n
    = (decimal_value ds acc, (n + String.length ds)%nat, rest).
Proof.
  intros Hd Hrest. induction ds as [|c ds IH]; intros acc n.
  - cbn [append decimal_value String.length]. rewrite Nat.add_0_r.
    destruct rest as [|c r]; [reflexivity|]. cbn [scan_digits]. rewrite Hrest.
    reflexivity.
  - unfold all_digits in Hd. cbn [string_forallb] in Hd.
    apply andb_true_iff in Hd as [Hc Hds].
    cbn [append scan_digits decimal_value String.length]. rewrite Hc.
    rewrite (IH Hds). f_equal. f_equal. lia.
Qed.

Lemma stof_numeral ip point fp :
  well_shaped ip point fp ->
  stof (numeral ip point fp)
  = stof_value (decimal_value (ip ++ fp) 0) (String.length fp).
Proof.
  intros (Hi & Hf & Hp & Hlen). unfold stof, numeral. destruct point.
  - rewrite (scan_digits_run ip (String "." fp) Hi eq_refl).
    cbn [is_dot Ascii.eqb Bool.eqb andb].
    change (is_dot ".") with true. cbv iota.
    rewrite <- (append_empty fp) at 1.
    rewrite (scan_digits_run fp "" Hf I).
    rewrite decimal_value_append.
    destruct (0 + String.length ip + (0 + String.length fp) =? 0)%nat eqn:E;
      [|reflexivity].
    apply Nat.eqb_eq in E. unfold slen in Hlen. lia.
  - rewrite (Hp eq_refl) in *. rewrite append_empty.
    rewrite <- (append_empty ip) at 1.
    rewrite (scan_digits_run ip "" Hi I).
    destruct (0 + String.length ip + 0 =? 0)%nat eqn:E; [|reflexivity].
    apply Nat.eqb_eq in E. unfold slen in Hlen. cbn in Hlen. lia.
Qed.

Lemma numeral_last_char ip point fp :
  well_shaped ip point fp ->
  exists c, last_char (numeral ip point fp) = Some c
            /\ is_suffix_letter c = false.
Proof.
  intros H. pose proof (numeral_length ip point fp H) as Hlen.
  destruct (last_char (numeral ip point fp)) as [c|] eqn:E.
  - exists c. split; [reflexivity|]. apply digit_or_dot_not_suffix.
    exact (last_char_forallb _ _ c (numeral_digit_or_dot ip point fp H) E).
  - exfalso. destruct (numeral ip point fp) as [|a s]; [cbn in Hlen; lia|].
    clear - E. revert a E. induction s as [|b s IH]; intros a E; [discriminate|].
    cbn [last_char] in E. exact (IH b E).
Qed.

(** The numerals: the result is the truncated product of the float
    [std::stof] returns and the power of ten. *)
Lemma handy_parameter_numeral ip point fp (x : suffix) :
  well_shaped ip point fp ->
  slen (numeral ip point fp ++ suffix_string x) < 2 ^ 64 ->
  handy_parameter (numeral ip point fp ++ suffix_string x)
  = f <- stof_value (decimal_value (ip ++ fp) 0) (String.length fp) ;;
    Float.to_int (Float.mul64 f (Float.pow10 (suffix_exp x))).
Proof.
  intros H Hb. destruct (suffix_eq_dec x no_suffix) as [->|Hx].
  - cbn [suffix_string suffix_exp] in *. rewrite append_empty in *.
    destruct (numeral_last_char ip point fp H) as (c & Hc & Hs).
    rewrite (handy_parameter_no_suffix _ c Hc Hs Hb).
    rewrite (is_a_float_numeral ip point fp H), (stof_numeral ip point fp H).
    reflexivity.
  - rewrite (handy_parameter_suffix _ x Hx Hb).
    rewrite (is_a_float_numeral ip point fp H), (stof_numeral ip point fp H).
    reflexivity.
Qed.

(** Anything else before the suffix: the result is -1. *)
Lemma handy_parameter_not_a_numeral (tmp : string) (x : suffix) :
  is_a_float tmp = false ->
  (x = no_suffix ->
   exists c, last_char tmp = Some c /\ is_suffix_letter c = false) ->
  slen (tmp ++ suffix_string x) < 2 ^ 64 ->
  handy_parameter (tmp ++ suffix_string x) = Returns (-1).
Proof.
  intros Hf Hc Hb. destruct (suffix_eq_dec x no_suffix) as [->|Hx].
  - cbn [suffix_string] in *. rewrite append_empty in *.
    destruct (Hc eq_refl) as (c & Hl & Hs).
    rewrite (handy_parameter_no_suffix _ c Hl Hs Hb), Hf. reflexivity.
  - rewrite (handy_parameter_suffix _ x Hx Hb), Hf. reflexivity.
Qed.

(** *** Exact cases of the float arithmetic *)

Lemma digits2_bounds (p : positive) :
  2 ^ (Zpos (digits2_pos p) - 1) <= Zpos p < 2 ^ Zpos (digits2_pos p).
Proof.
  induction p as [p IH|p IH|]; cbn [digits2_pos].
  - rewrite Pos2Z.inj_succ. replace (Z.succ (Zpos (digits2_pos p)) - 1)
      with (Z.succ (Zpos (digits2_pos p) - 1)) by lia.
    rewrite !Z.pow_succ_r by lia. lia.
  - rewrite Pos2Z.inj_succ. replace (Z.succ (Zpos (digits2_pos p)) - 1)
      with (Z.succ (Zpos (digits2_pos p) - 1)) by lia.
    rewrite !Z.pow_succ_r by lia. lia.
  - cbn. lia.
Qed.

Lemma digits2_unique (p : positive) (D : Z) :
  2 ^ (D - 1) <= Zpos p < 2 ^ D -> 0 < D -> Zpos (digits2_pos p) = D.
Proof.
  intros [Hlo Hhi] HD. pose proof (digits2_bounds p) as [Blo Bhi].
  destruct (Z.lt_trichotomy (Zpos (digits2_pos p)) D) as [Hlt|[Heq|Hgt]];
    [|exact Heq|].
  - assert (2 ^ Zpos (digits2_pos p) <= 2 ^ (D - 1))
      by (apply Z.pow_le_mono_r; lia). lia.
  - assert (2 ^ D <= 2 ^ (Zpos (digits2_pos p) - 1))
      by (apply Z.pow_le_mono_r; lia). lia.
Qed.

Lemma digits2_le (p : positive) (D : Z) :
  Zpos p < 2 ^ D -> 0 <= D -> Zpos (digits2_pos p) <= D.
Proof.
  intros Hhi HD. pose proof (digits2_bounds p) as [Blo _].
  destruct (Z_le_gt_dec (Zpos (digits2_pos p)) D) as [H|H]; [exact H|].
  assert (2 ^ D <= 2 ^ (Zpos (digits2_pos p) - 1))
    by (apply Z.pow_le_mono_r; lia). lia.
Qed.

(** A mantissa that fits is left as it is. *)
Lemma round_exact (prec emax : Z) (s : bool) (m : positive) (e : Z) :
  Zpos (digits2_pos m) <= prec ->
  3 - emax - prec <= e ->
  e <= emax - prec ->
  binary_round_aux prec emax s (Zpos m) e loc_Exact = S754_finite s m e.
Proof.
  intros Hd Hlo Hhi.
  assert (Hshr : shr_fexp prec emax (Zpos m) e loc_Exact
                 = (Build_shr_record (Zpos m) false false, e)).
  { unfold shr_fexp, fexp, emin. cbn [Zdigits2 shr_record_of_loc].
    destruct (Z.max (Zpos (digits2_pos m) + e - prec) (3 - emax - prec) - e)
      as [|n|n] eqn:E; [reflexivity|lia|reflexivity]. }
  unfold binary_round_aux. rewrite Hshr.
  cbn [shr_m loc_of_shr_record round_nearest_even]. rewrite Hshr.
  cbn [shr_m]. replace (e <=? emax - prec) with true
    by (symmetry; apply Z.leb_le; lia).
  reflexivity.
Qed.

(** A mantissa one bit too long and even loses its last bit. *)
Lemma round_exact_even (prec emax : Z) (s : bool) (m : positive) (e : Z) :
  Zpos (digits2_pos m) = prec ->
  3 - emax - prec <= e + 1 ->
  e + 1 <= emax - prec ->
  binary_round_aux prec emax s (Zpos m~0) e loc_Exact
  = S754_finite s m (e + 1).
Proof.
  intros Hd Hlo Hhi.
  assert (H1 : shr_fexp prec emax (Zpos m~0) e loc_Exact
               = (Build_shr_record (Zpos m) false false, e + 1)).
  { unfold shr_fexp, fexp, emin. cbn [Zdigits2 shr_record_of_loc digits2_pos].
    rewrite Pos2Z.inj_succ.
    replace (Z.max (Z.succ (Zpos (digits2_pos m)) + e - prec)
               (3 - emax - prec) - e) with 1 by lia.
    reflexivity. }
  assert (H2 : shr_fexp prec emax (Zpos m) (e + 1) loc_Exact
               = (Build_shr_record (Zpos m) false false, e + 1)).
  { unfold shr_fexp, fexp, emin. cbn [Zdigits2 shr_record_of_loc].
    replace (Z.max (Zpos (digits2_pos m) + (e + 1) - prec)
               (3 - emax - prec) - (e + 1)) with 0 by lia.
    reflexivity. }
  unfold binary_round_aux. rewrite H1.
  cbn [shr_m loc_of_shr_record round_nearest_even]. rewrite H2.
  cbn [shr_m]. replace (e + 1 <=? emax - prec) with true
    by (symmetry; apply Z.leb_le; lia).
  reflexivity.
Qed.

Lemma div_eucl_one (a : Z) : Z.div_eucl a 1 = (a, 0).
Proof.
  pose proof (Z_div_mod a 1 ltac:(lia)) as H.
  destruct (Z.div_eucl a 1) as [q r]. destruct H as [H1 H2].
  f_equal; lia.
Qed.

Lemma mantissa32_value (p : positive) :
  Zpos p < 2 ^ 24 ->
  Zpos (mantissa32 p) = Zpos p * 2 ^ (24 - Zpos (digits2_pos p))
  /\ Zpos (digits2_pos (mantissa32 p)) = 24.
Proof.
  intros Hp. pose proof (digits2_le p 24 Hp ltac:(lia)) as Hd.
  pose proof (digits2_bounds p) as [Blo Bhi].
  set (d := Zpos (digits2_pos p)) in *.
  assert (Hpow : 0 < 2 ^ (24 - d)) by (apply Z.pow_pos_nonneg; lia).
  assert (Hv : Zpos (mantissa32 p) = Zpos p * 2 ^ (24 - d)).
  { unfold mantissa32. fold d. rewrite Z2Pos.id by lia. reflexivity. }
  split; [exact Hv|].
  apply digits2_unique; [|lia]. rewrite Hv.
  assert (E1 : 2 ^ (24 - 1) = 2 ^ (d - 1) * 2 ^ (24 - d))
    by (rewrite <- Z.pow_add_r by lia; f_equal; lia).
  assert (E2 : 2 ^ 24 = 2 ^ d * 2 ^ (24 - d))
    by (rewrite <- Z.pow_add_r by lia; f_equal; lia).
  rewrite E1, E2. split.
  - apply Z.mul_le_mono_nonneg_r; lia.
  - apply Z.mul_lt_mono_pos_r; lia.
Qed.

(** [std::stof] on an integer below 2^24: no rounding. *)
Lemma decimal32_integer (p : positive) :
  Zpos p < 2 ^ 24 ->
  Float.decimal32 (Zpos p) 0
  = S754_finite false (mantissa32 p) (Zpos (digits2_pos p) - 24).
Proof.
  intros Hp. pose proof (digits2_le p 24 Hp ltac:(lia)) as Hd.
  destruct (mantissa32_value p Hp) as [Hv Hdig].
  assert (Hd1 : 1 <= Zpos (digits2_pos p)) by lia.
  set (d := Zpos (digits2_pos p)) in *.
  assert (Hcore : SFdiv_core_binary Float.prec32 Float.emax32 (Zpos p) 0 1 0
                  = (Zpos (mantissa32 p)~0, d - 25, loc_Exact)).
  { unfold SFdiv_core_binary, fexp, emin, Float.prec32, Float.emax32.
    cbn [Zdigits2 digits2_pos]. fold d.
    replace (Z.min (Z.max (d + 0 - (1 + 0) - 24) (3 - 128 - 24)) (0 - 0))
      with (d - 25) by lia.
    replace (0 - 0 - (d - 25)) with (25 - d) by lia.
    destruct (25 - d) as [|n|n] eqn:E; [lia| |lia].
    rewrite <- E. rewrite Z.shiftl_mul_pow2 by lia.
    rewrite div_eucl_one.
    replace (Zpos p * 2 ^ (25 - d)) with (Zpos (mantissa32 p)~0);
      [reflexivity|].
    rewrite Pos2Z.inj_xO, Hv.
    replace (25 - d) with (Z.succ (24 - d)) by lia.
    rewrite Z.pow_succ_r by lia. lia. }
  unfold Float.decimal32, SFdiv, Float.of_pos.
  change (Z.to_pos (10 ^ Z.of_nat 0)) with 1%positive.
  rewrite Hcore. cbn [xorb].
  rewrite round_exact_even; unfold Float.prec32, Float.emax32; try lia.
  f_equal. lia.
Qed.

(** The double product of such a float and a power of ten, truncated:
    no rounding either. *)
Lemma truncate_mul64_exact (q c : positive) (E v : Z) :
  Zpos (digits2_pos q) = 24 ->
  -23 <= E <= 0 ->
  Zpos c < 2 ^ 30 ->
  (c = 1%positive \/ exists c', c = (c'~0)%positive) ->
  Zpos q * Zpos c = v * 2 ^ (- E) ->
  Float.truncate
    (Float.mul64 (S754_finite false q E) (S754_finite false c 0))
  = Some v.
Proof.
  intros Hq HE Hc Hshape Hv.
  pose proof (digits2_bounds q) as [_ Bq]. rewrite Hq in Bq.
  assert (Hpow : 0 < 2 ^ (- E)) by (apply Z.pow_pos_nonneg; lia).
  assert (Hprod : Zpos (q * c) < 2 ^ 54).
  { rewrite Pos2Z.inj_mul. change (2 ^ 54) with (2 ^ 24 * 2 ^ 30).
    apply Z.mul_lt_mono_nonneg; lia. }
  pose proof (digits2_le (q * c) 54 Hprod ltac:(lia)) as HD.
  unfold Float.mul64, SFmul. cbn [xorb].
  destruct (Z_le_gt_dec (Zpos (digits2_pos (q * c))) 53) as [H53|H54].
  - rewrite round_exact; unfold Float.prec64, Float.emax64; try lia.
    unfold Float.truncate. rewrite Pos2Z.inj_mul, Hv.
    destruct (0 <=? E + 0) eqn:E0.
    + apply Z.leb_le in E0. replace E with 0 in * by lia.
      cbn. f_equal. lia.
    + replace (- (E + 0)) with (- E) by lia.
      rewrite Z.div_mul by lia. reflexivity.
  - destruct Hshape as [->|[c' ->]].
    + rewrite Pos.mul_1_r in H54. lia.
    + rewrite Pos.mul_xO_r in *.
      assert (Hd : Zpos (digits2_pos (q * c')) = 53).
      { cbn [digits2_pos] in H54, HD. rewrite Pos2Z.inj_succ in H54, HD. lia. }
      rewrite round_exact_even; unfold Float.prec64, Float.emax64; try lia.
      unfold Float.truncate.
      rewrite Pos2Z.inj_xO in Hv. rewrite Pos2Z.inj_mul.
      destruct (0 <=? E + 0 + 1) eqn:E0.
      * apply Z.leb_le in E0.
        assert (E = 0 \/ E = -1) as [->| ->] by lia; cbn in *; f_equal; lia.
      * apply Z.leb_gt in E0.
        replace (- (E + 0 + 1)) with (- E - 1) by lia.
        assert (Hsplit : 2 ^ (- E) = 2 * 2 ^ (- E - 1)).
        { replace (- E) with (Z.succ (- E - 1)) at 1 by lia.
          apply Z.pow_succ_r. lia. }
        assert (Hpow' : 0 < 2 ^ (- E - 1)) by (apply Z.pow_pos_nonneg; lia).
        replace (Zpos q * Zpos c') with (v * 2 ^ (- E - 1)) by lia.
        rewrite Z.div_mul by lia. reflexivity.
Qed.

Lemma digit_value_range (c : ascii) : is_digit c = true -> 0 <= digit_value c <= 9.
Proof.
  unfold is_digit, digit_value. intros H. apply andb_true_iff in H as [H1 H2].
  apply Z.leb_le in H1, H2. lia.
Qed.

Lemma decimal_value_nonneg (ds : string) :
  all_digits ds = true -> forall acc, 0 <= acc -> 0 <= decimal_value ds acc.
Proof.
  induction ds as [|c ds IH]; intros Hd acc Hacc; [exact Hacc|].
  unfold all_digits in Hd. cbn [string_forallb] in Hd.
  apply andb_true_iff in Hd as [Hc Hds]. cbn [decimal_value].
  apply (IH Hds). pose proof (digit_value_range c Hc). lia.
Qed.

Lemma suffix_pow10 (x : suffix) :
  exists c, Float.pow10 (suffix_exp x) = S754_finite false c 0
            /\ Zpos c = 10 ^ suffix_exp x
            /\ Zpos c < 2 ^ 30
            /\ (c = 1%positive \/ exists c', c = (c'~0)%positive).
Proof.
  destruct x; cbn [suffix_exp]; eexists; (split; [reflexivity|]);
    (split; [reflexivity|]); (split; [reflexivity|]);
    first [left; reflexivity | right; eexists; reflexivity].
Qed.

(** An integer below 2^24 with or without a suffix: the result is the
    integer times the power of ten, when that is an [int]. *)
Lemma handy_parameter_integer (ip : string) (x : suffix) :
  all_digits ip = true ->
  0 < slen ip ->
  decimal_value ip 0 < 2 ^ 24 ->
  decimal_value ip 0 * 10 ^ suffix_exp x <= INT_MAX ->
  slen (ip ++ suffix_string x) < 2 ^ 64 ->
  handy_parameter (ip ++ suffix_string x)
  = Returns (decimal_value ip 0 * 10 ^ suffix_exp x).
Proof.
  intros Hd Hlen Hn Hfit Hb.
  assert (Hshape : well_shaped ip false "").
  { repeat split; try assumption; try reflexivity.
    unfold slen at 2. cbn. lia. }
  pose proof (handy_parameter_numeral ip false "" x Hshape) as H.
  cbn [numeral String.length] in H. rewrite append_empty in H.
  rewrite (H Hb). clear H.
  pose proof (decimal_value_nonneg ip Hd 0 ltac:(lia)) as Hnn.
  destruct (suffix_pow10 x) as (c & Hc & Hcv & Hcb & Hcs).
  destruct (decimal_value ip 0) as [|p|p] eqn:En; [|clear Hnn|lia].
  - rewrite Hc. reflexivity.
  - destruct (mantissa32_value p Hn) as [Hv Hdig].
    pose proof (digits2_le p 24 Hn ltac:(lia)) as Hd24.
    unfold stof_value. rewrite (decimal32_integer p Hn).
    unfold is_tiny. rewrite Hdig. cbn [Z.ltb Z.compare Pos.compare andb bind].
    change (24 <? Float.prec32) with false. cbn [andb bind].
    unfold Float.to_int. rewrite Hc.
    rewrite (truncate_mul64_exact (mantissa32 p) c
               (Zpos (digits2_pos p) - 24) (Zpos p * 10 ^ suffix_exp x));
      try assumption; try lia.
    + assert (0 <= Zpos p * 10 ^ suffix_exp x)
        by (apply Z.mul_nonneg_nonneg; [lia|apply Z.pow_nonneg; lia]).
      replace ((INT_MIN <=? Zpos p * 10 ^ suffix_exp x)
               && (Zpos p * 10 ^ suffix_exp x <=? INT_MAX)) with true;
        [reflexivity|].
      symmetry. apply andb_true_iff. split; apply Z.leb_le;
        [unfold INT_MIN; lia|exact Hfit].
    + rewrite Hv, Hcv.
      replace (- (Zpos (digits2_pos p) - 24)) with (24 - Zpos (digits2_pos p))
        by lia.
      ring.
Qed.

(** C10, as amended.  For an input made of digits with at most one
    point and at least one digit, followed or not by one of k, K, m, M,
    g, G, [handy_parameter] returns the [int] cast of the double product
    of the float [std::stof] reads, which is the binary32 value nearest
    to the number, and 10^3, 10^6, 10^9 (1 without a suffix), unless
    [std::stof] reports a range error; the cast truncates, and is
    defined when the truncated product is an [int].
    For an integer below 2^24 that result is the integer times the power
    of ten.  It returns -1 whenever the part before the suffix is empty,
    holds a character other than a digit and the point, or holds more
    than one point. *)
Theorem handy_parameter_scales_the_float_stof_reads :
  (forall ip point fp x,
      well_shaped ip point fp ->
      slen (numeral ip point fp ++ suffix_string x) < 2 ^ 64 ->
      handy_parameter (numeral ip point fp ++ suffix_string x)
      = (f <- stof_value (decimal_value (ip ++ fp) 0) (String.length fp) ;;
         Float.to_int (Float.mul64 f (Float.pow10 (suffix_exp x)))))
  /\ (forall ip x,
         all_digits ip = true ->
         0 < slen ip ->
         decimal_value ip 0 < 2 ^ 24 ->
         decimal_value ip 0 * 10 ^ suffix_exp x <= INT_MAX ->
         slen (ip ++ suffix_string x) < 2 ^ 64 ->
         handy_parameter (ip ++ suffix_string x)
         = Returns (decimal_value ip 0 * 10 ^ suffix_exp x))
  /\ (forall tmp x,
         is_a_float tmp = false ->
         (x = no_suffix ->
          exists c, last_char tmp = Some c /\ is_suffix_letter c = false) ->
         slen (tmp ++ suffix_string x) < 2 ^ 64 ->
         handy_parameter (tmp ++ suffix_string x) = Returns (-1)).
Proof.
  split; [|split].
  - exact handy_parameter_numeral.
  - exact handy_parameter_integer.
  - exact handy_parameter_not_a_numeral.
Qed.

(** "0.7k", "50k" and "x7": the truncated float product 699, the exact
    50000, and -1. *)
Lemma handy_parameter_on_three_inputs :
  handy_parameter "0.7k" = Returns 699
  /\ handy_parameter "50k" = Returns 50000
  /\ handy_parameter "x7" = Returns (-1).
Proof.
  destruct handy_parameter_scales_the_float_stof_reads as (H1 & H2 & H3).
  split; [|split].
  - refine (eq_trans (H1 "0" true "7" suffix_k _ _) _);
      [repeat split; try reflexivity; discriminate|reflexivity|reflexivity].
  - apply (H2 "50" suffix_k); try reflexivity.
    apply Z.leb_le. reflexivity.
  - apply (H3 "x7" no_suffix); [reflexivity| |reflexivity].
    intros _. exists "7"%char. split; reflexivity.
Defined.

(** C10, as stated, fails.  0.7 * 10^3 = 700 is an [int], and "0.7k"
    gives 699: the float nearest to 0.7 is below 0.7.  16777217 is an
    [int], and "16777217" gives 16777216.  The part before the suffix
    of "." is not a decimal number, and the call ends in
    [std::invalid_argument], not in -1. *)
Lemma handy_parameter_rounds_and_throws :
  handy_parameter "0.7k" = Returns 699
  /\ handy_parameter "16777217" = Returns 16777216
  /\ handy_parameter "." = Throws invalid_argument
  /\ handy_parameter "." <> Returns (-1).
Proof. repeat split; discriminate. Qed.

(** ** Further properties of the command line  (parse_args.hpp) *)

(** *** The values [handy_parameter] can give  (lines 32-52) *)

Lemma round_aux_not_negative (prec emax m e : Z) (l : location) :
  not_negative (binary_round_aux prec emax false m e l) = true.
Proof.
  unfold binary_round_aux.
  destruct (shr_fexp prec emax m e l) as [mrs' e'].
  destruct (shr_fexp prec emax
              (round_nearest_even (shr_m mrs') (loc_of_shr_record mrs'))
              e' loc_Exact) as [mrs'' e''].
  destruct (shr_m mrs''); [reflexivity| |reflexivity].
  destruct (e'' <=? emax - prec); reflexivity.
Qed.

Lemma decimal32_not_negative (num : Z) (k : nat) :
  not_negative (Float.decimal32 num k) = true.
Proof.
  unfold Float.decimal32. destruct num; try reflexivity.
  unfold SFdiv, Float.of_pos.
  destruct (SFdiv_core_binary _ _ _ _ _ _) as [[mz ez] lz].
  apply round_aux_not_negative.
Qed.

Lemma stof_not_negative (s : string) (f : spec_float) :
  stof s = Returns f -> not_negative f = true.
Proof.
  unfold stof. destruct (scan_digits s 0 0) as [[i ni] rest].
  destruct (match rest with
            | String c r => if is_dot c then scan_digits r i 0 else (i, O, rest)
            | EmptyString => (i, O, rest)
            end) as [[num nf] r'].
  destruct (ni + nf =? 0)%nat; [discriminate|].
  unfold stof_value.
  pose proof (decimal32_not_negative num nf) as Hn.
  destruct (Float.decimal32 num nf) eqn:E; try discriminate;
    destruct (is_tiny _ && negb _); try discriminate;
    intros H; injection H as <-; exact Hn.
Qed.

Lemma mul64_pow10_not_negative (f : spec_float) (exp : Z) :
  not_negative f = true ->
  not_negative (Float.mul64 f (Float.pow10 exp)) = true.
Proof.
  intros Hf. unfold Float.mul64, Float.pow10, Float.of_pos, SFmul.
  destruct f as [s|s| |s m e]; cbn [not_negative] in Hf; try reflexivity;
    apply negb_true_iff in Hf; subst s; cbn [xorb]; try reflexivity.
  apply round_aux_not_negative.
Qed.

Lemma truncated_magnitude_nonneg (m : positive) (e : Z) :
  0 <= (if 0 <=? e then Zpos m * 2 ^ e else Zpos m / 2 ^ (- e)).
Proof.
  destruct (0 <=? e) eqn:E.
  - apply Z.leb_le in E. apply Z.mul_nonneg_nonneg; [lia|].
    apply Z.pow_nonneg. lia.
  - apply Z.div_pos; [lia|]. apply Z.pow_pos_nonneg; [lia|].
    apply Z.leb_gt in E. lia.
Qed.

Lemma truncate_not_negative (f : spec_float) (z : Z) :
  not_negative f = true -> Float.truncate f = Some z -> 0 <= z.
Proof.
  intros Hf. destruct f as [s|s| |s m e]; try discriminate.
  - intros H. injection H as <-. lia.
  - cbn [not_negative] in Hf. apply negb_true_iff in Hf. subst s.
    intros H. injection H as <-. apply truncated_magnitude_nonneg.
Qed.

Lemma to_int_range (d : spec_float) (z : Z) :
  Float.to_int d = Returns z ->
  Float.truncate d = Some z /\ INT_MIN <= z <= INT_MAX.
Proof.
  unfold Float.to_int. destruct (Float.truncate d) as [v|]; [|discriminate].
  destruct ((INT_MIN <=? v) && (v <=? INT_MAX)) eqn:E; [|discriminate].
  intros H. injection H as <-.
  apply andb_true_iff in E as [E1 E2]. apply Z.leb_le in E1, E2.
  split; [reflexivity|lia].
Qed.

(** The scaled value of a numeral is an [int] that is not negative. *)
Lemma scaled_range (tmp : string) (exp z : Z) :
  (f <- stof tmp ;; Float.to_int (Float.mul64 f (Float.pow10 exp))) = Returns z ->
  0 <= z <= INT_MAX.
Proof.
  destruct (stof tmp) as [f| | | |] eqn:Ef; cbn [bind]; try discriminate.
  intros H. apply to_int_range in H as [Ht [_ Hmax]].
  split; [|exact Hmax].
  apply (truncate_not_negative _ z
           (mul64_pow10_not_negative f exp (stof_not_negative tmp f Ef)) Ht).
Qed.

Lemma handy_parameter_range (value : string) (z : Z) :
  handy_parameter value = Returns z -> z = -1 \/ 0 <= z <= INT_MAX.
Proof.
  unfold handy_parameter.
  destruct (string_at value (to_uint64 (slen value - 1))) as [last| | | |];
    cbn [bind]; try discriminate.
  destruct (char_is last "k" "K");
    [|destruct (char_is last "m" "M"); [|destruct (char_is last "g" "G")]];
    cbv zeta iota beta;
    (match goal with
     | |- context [is_a_float ?t] => destruct (is_a_float t)
     end;
     [intros H; right; exact (scaled_range _ _ _ H)
     |intros H; injection H as <-; left; reflexivity]).
Qed.

Lemma string_at_not_exit (s : string) (pos c : Z) : string_at s pos <> Exits c.
Proof.
  unfold string_at. destruct ((0 <=? pos) && (pos <=? slen s));
    [destruct (String.get (Z.to_nat pos) s)|]; discriminate.
Qed.

Lemma stof_not_exit (s : string) (c : Z) : stof s <> Exits c.
Proof.
  unfold stof. destruct (scan_digits s 0 0) as [[i ni] rest].
  destruct (match rest with
            | String c r => if is_dot c then scan_digits r i 0 else (i, O, rest)
            | EmptyString => (i, O, rest)
            end) as [[num nf] r'].
  destruct (ni + nf =? 0)%nat; [discriminate|].
  unfold stof_value.
  destruct (Float.decimal32 num nf); try discriminate;
    destruct (is_tiny _ && negb _); discriminate.
Qed.

Lemma to_int_not_exit (d : spec_float) (c : Z) : Float.to_int d <> Exits c.
Proof.
  unfold Float.to_int. destruct (Float.truncate d) as [v|]; [|discriminate].
  destruct ((INT_MIN <=? v) && (v <=? INT_MAX)); discriminate.
Qed.

Lemma handy_parameter_not_exit (value : string) (c : Z) :
  handy_parameter value <> Exits c.
Proof.
  unfold handy_parameter.
  pose proof (string_at_not_exit value (to_uint64 (slen value - 1))) as Hs.
  destruct (string_at value (to_uint64 (slen value - 1))) as [last| | |c'|];
    cbn [bind]; try discriminate;
    [|exfalso; exact (Hs c' eq_refl)].
  destruct (char_is last "k" "K");
    [|destruct (char_is last "m" "M"); [|destruct (char_is last "g" "G")]];
    cbv zeta iota beta;
    (match goal with
     | |- context [is_a_float ?t] =>
         destruct (is_a_float t); [|discriminate];
         pose proof (stof_not_exit t) as Hf;
         destruct (stof t) as [f| | |c'|]; cbn [bind]; try discriminate;
         [apply to_int_not_exit|exfalso; exact (Hf c' eq_refl)]
     end).
Qed.

(** X1.  Whatever the string, a value [handy_parameter] returns is -1
    or an [int] from 0 to 2^31 - 1: the result goes through the cast
    [(int)] of line 51, so no size of 2^31 or more can be given, with a
    suffix or without; and the function never ends the process
    itself. *)
Theorem handy_parameter_returns_minus_one_or_an_int :
  forall value,
    (forall z, handy_parameter value = Returns z ->
               z = -1 \/ 0 <= z <= 2 ^ 31 - 1)
    /\ (forall code, handy_parameter value <> Exits code).
Proof.
  intros value. split.
  - exact (handy_parameter_range value).
  - exact (handy_parameter_not_exit value).
Qed.

(** "2g" is two thousand million, and fits; "3g" does not. *)
Lemma handy_parameter_of_2g_and_3g :
  handy_parameter "2g" = Returns 2000000000
  /\ (2000000000 = -1 \/ 0 <= 2000000000 <= 2 ^ 31 - 1)
  /\ handy_parameter "3g" = Undefined float_to_int.
Proof.
  split; [reflexivity|]. split; [|reflexivity].
  apply (proj1 (handy_parameter_returns_minus_one_or_an_int "2g")).
  reflexivity.
Defined.

Lemma last_char_exists (s : string) :
  s <> "" -> exists c, last_char s = Some c.
Proof.
  destruct s as [|a s]; [congruence|]. intros _. revert a.
  induction s as [|b s IH]; intros a; [exists a; reflexivity|].
  destruct (IH b) as [c Hc]. exists c. exact Hc.
Qed.

Lemma stof_not_undefined (s : string) (u : undefined) : stof s <> Undefined u.
Proof.
  unfold stof. destruct (scan_digits s 0 0) as [[i ni] rest].
  destruct (match rest with
            | String c r => if is_dot c then scan_digits r i 0 else (i, O, rest)
            | EmptyString => (i, O, rest)
            end) as [[num nf] r'].
  destruct (ni + nf =? 0)%nat; [discriminate|].
  unfold stof_value.
  destruct (Float.decimal32 num nf); try discriminate;
    destruct (is_tiny _ && negb _); discriminate.
Qed.

Lemma to_int_not_string_index (d : spec_float) (pos size : Z) :
  Float.to_int d <> Undefined (string_index pos size).
Proof.
  unfold Float.to_int. destruct (Float.truncate d) as [v|]; [|discriminate].
  destruct ((INT_MIN <=? v) && (v <=? INT_MAX)); discriminate.
Qed.

(** X2.  Line 39 reads [value[str_len - 1]].  For the empty string the
    index is [(uint64_t) 0 - 1], far outside the string: the read is
    undefined.  For every other string it is the last character, and
    nothing else in the function indexes a string out of bounds. *)
Theorem handy_parameter_reads_out_of_bounds_only_when_empty :
  handy_parameter "" = Undefined (string_index (2 ^ 64 - 1) 0)
  /\ (forall value,
         value <> "" ->
         slen value < 2 ^ 64 ->
         forall pos size,
           handy_parameter value <> Undefined (string_index pos size)).
Proof.
  split; [reflexivity|].
  intros value Hne Hb pos size.
  destruct (last_char_exists value Hne) as [c Hc].
  rewrite (handy_parameter_last value c Hc Hb).
  destruct (char_is c "k" "K");
    [|destruct (char_is c "m" "M"); [|destruct (char_is c "g" "G")]];
    cbv zeta iota beta;
    (match goal with
     | |- context [is_a_float ?t] =>
         destruct (is_a_float t); [|discriminate];
         pose proof (stof_not_undefined t) as Hf;
         destruct (stof t) as [f| | | |u]; cbn [bind]; try discriminate;
         [apply to_int_not_string_index|exfalso; exact (Hf u eq_refl)]
     end).
Qed.

(** The string "k" has a last character, and the part before it is
    empty: the result is -1. *)
Lemma handy_parameter_of_a_lone_suffix :
  handy_parameter "k" = Returns (-1)
  /\ handy_parameter "k" <> Undefined (string_index 0 1).
Proof.
  split; [reflexivity|].
  apply (proj2 handy_parameter_reads_out_of_bounds_only_when_empty "k");
    [discriminate|reflexivity].
Defined.

(** X3.  The suffix letters are read without regard to case: "k" and
    "K", "m" and "M", "g" and "G" after the same text give the same
    result, whatever the text is. *)
Theorem handy_parameter_suffix_is_case_insensitive :
  forall tmp,
    slen tmp + 1 < 2 ^ 64 ->
    handy_parameter (tmp ++ "k") = handy_parameter (tmp ++ "K")
    /\ handy_parameter (tmp ++ "m") = handy_parameter (tmp ++ "M")
    /\ handy_parameter (tmp ++ "g") = handy_parameter (tmp ++ "G").
Proof.
  intros tmp Hb.
  assert (H : forall x, x <> no_suffix ->
                handy_parameter (tmp ++ suffix_string x)
                = if is_a_float tmp then
                    f <- stof tmp ;;
                    Float.to_int (Float.mul64 f (Float.pow10 (suffix_exp x)))
                  else Returns (-1)).
  { intros x Hx. apply (handy_parameter_suffix tmp x Hx).
    rewrite slen_append.
    replace (slen (suffix_string x)) with 1
      by (destruct x; [contradiction| | | | | |]; reflexivity).
    exact Hb. }
  split; [|split].
  - exact (eq_trans (H suffix_k ltac:(discriminate))
             (eq_sym (H suffix_K ltac:(discriminate)))).
  - exact (eq_trans (H suffix_m ltac:(discriminate))
             (eq_sym (H suffix_M ltac:(discriminate)))).
  - exact (eq_trans (H suffix_g ltac:(discriminate))
             (eq_sym (H suffix_G ltac:(discriminate)))).
Qed.

(** "1.5k" and "1.5K" are both 1500. *)
Lemma handy_parameter_of_1_5k :
  handy_parameter "1.5k" = Returns 1500
  /\ handy_parameter "1.5k" = handy_parameter "1.5K".
Proof.
  split; [reflexivity|].
  apply (proj1 (handy_parameter_suffix_is_case_insensitive "1.5" eq_refl)).
Defined.

(** *** What [parse_args] returns  (lines 143-667) *)

Section ParseArgsResult.

Variable split : string -> ascii -> list string.

Lemma parse_args_fields argc r map0 align0 yeet0 env p :
  parse_args split argc r map0 align0 yeet0 env = Returns p ->
  exists cli,
    r = Parsed cli
    /\ matched (version cli) = false
    /\ matched (target_sequence_file cli) = true
    /\ refSequences (map_parameters p)
       = (refSequences map0 ++ [get (target_sequence_file cli)])%list
    /\ align_refSequences (align_parameters p)
       = (align_refSequences align0 ++ [get (target_sequence_file cli)])%list
    /\ querySequences (map_parameters p)
       = (if matched (query_sequence_file cli)
          then querySequences map0 ++ [get (query_sequence_file cli)]
          else match querySequences map0 with
               | [] => [get (target_sequence_file cli)]
               | _ :: _ => querySequences map0
               end)%list
    /\ align_querySequences (align_parameters p)
       = (if matched (query_sequence_file cli)
          then align_querySequences align0 ++ [get (query_sequence_file cli)]
          else match querySequences map0 with
               | [] => align_querySequences align0
                       ++ [get (target_sequence_file cli)]
               | _ :: _ => align_querySequences align0
               end)%list
    /\ block_length_block (wfmash_handy_parameter env) (block_length cli)
         (yeet_approx_mapping yeet0) (segLength (map_parameters p))
       = Returns (map_block_length (map_parameters p))
    /\ chain_gap_block (wfmash_handy_parameter env) (chain_gap cli)
       = Returns (map_chain_gap (map_parameters p))
    /\ align_chain_gap (align_parameters p) = map_chain_gap (map_parameters p)
    /\ max_mapping_length_block (wfmash_handy_parameter env)
         (max_mapping_length cli) (yeet_approx_mapping yeet0)
       = Returns (map_max_mapping_length (map_parameters p))
    /\ map_threads (map_parameters p)
       = (if matched (thread_count cli) then get (thread_count cli) else 1)
    /\ align_threads (align_parameters p) = map_threads (map_parameters p)
    /\ wflign_max_len_major (align_parameters p)
       = segLength (map_parameters p) * 512
    /\ kmerSize (map_parameters p)
       = (if matched (kmer_size cli) then get (kmer_size cli) else 15)
    /\ align_kmerSize (align_parameters p) = kmerSize (map_parameters p).
Proof.
  intros H. unfold parse_args in H. returns_inv H.
  injection H as <-. exists cli. cbn.
  match goal with
  | E : (_ || negb _) = false |- _ =>
      apply orb_false_iff in E as [_ Ht]; apply negb_false_iff in Ht
  end.
  repeat split; try assumption; try reflexivity.
  - destruct (matched (query_sequence_file cli));
      destruct (querySequences map0); cbn; rewrite ?last_last; reflexivity.
  - destruct (matched (query_sequence_file cli));
      destruct (querySequences map0); cbn; rewrite ?last_last; reflexivity.
Qed.

End ParseArgsResult.

Lemma Returns_inj {A} (a b : A) : Returns a = Returns b -> a = b.
Proof.
  intros H.
  exact (f_equal (fun o => match o with Returns x => x | _ => a end) H).
Qed.

(** The blocks of [parse_args] that test a length: what a value that
    passes satisfies, and with what code the process ends otherwise. *)
Lemma segment_length_block_returns (handy : string -> outcome Z)
  (f : flag string) (approx : bool) (s : Z) :
  segment_length_block handy f approx = Returns s ->
  100 <= s /\ (approx = false -> s <= 10000).
Proof.
  unfold segment_length_block. destruct (matched f).
  - destruct (handy (get f)) as [v| | | |]; cbn [bind]; try discriminate.
    destruct (v <=? 0) eqn:E0; [discriminate|].
    destruct (v <? 100) eqn:E1; [discriminate|].
    destruct (negb approx && (10000 <? v)) eqn:E2; [discriminate|].
    intros H. injection H as <-.
    apply Z.ltb_ge in E1.
    split; [lia|]. intros ->. cbn [negb andb] in E2. apply Z.ltb_ge in E2. lia.
  - intros H. injection H as <-. split; [lia|]. intros _. lia.
Qed.

Lemma block_length_block_returns (handy : string -> outcome Z)
  (f : flag string) (approx : bool) (seg l : Z) :
  block_length_block handy f approx seg = Returns l ->
  0 <= seg ->
  0 <= l /\ (approx = false -> seg <= 10000 -> l <= 30000).
Proof.
  unfold block_length_block. destruct (matched f).
  - destruct (handy (get f)) as [v| | | |]; cbn [bind];
      try discriminate.
    destruct (v <? 0) eqn:E0; [discriminate|].
    destruct (negb approx && (30000 <? v)) eqn:E1; [discriminate|].
    intros H _. injection H as <-. apply Z.ltb_ge in E0.
    split; [lia|]. intros -> _. cbn [negb andb] in E1. apply Z.ltb_ge in E1. lia.
  - intros H Hseg. apply Returns_inj in H. subst l.
    split; [lia|]. intros _ Hs. lia.
Qed.

Lemma chain_gap_block_returns (handy : string -> outcome Z)
  (f : flag string) (c : Z) :
  chain_gap_block handy f = Returns c -> 0 <= c.
Proof.
  unfold chain_gap_block. destruct (matched f).
  - destruct (handy (get f)) as [v| | | |]; cbn [bind];
      try discriminate.
    destruct (v <? 0) eqn:E0; [discriminate|].
    intros H. injection H as <-. apply Z.ltb_ge in E0. exact E0.
  - intros H. injection H as <-. lia.
Qed.

Lemma max_mapping_length_block_returns (handy : string -> outcome Z)
  (f : flag string) (approx : bool) (P : Z) :
  max_mapping_length_block handy f approx = Returns P ->
  0 < P /\ (approx = false -> P <= 100000).
Proof.
  unfold max_mapping_length_block. destruct (matched f).
  - destruct (if (get f =? "inf")%string then Returns INT64_MAX
              else handy (get f)) as [v| | | |]; cbn [bind];
      try discriminate.
    destruct (v <=? 0) eqn:E0; [discriminate|].
    destruct (negb approx && (100000 <? v)) eqn:E1; [discriminate|].
    intros H. injection H as <-. apply Z.leb_gt in E0.
    split; [lia|]. intros ->. cbn [negb andb] in E1. apply Z.ltb_ge in E1. lia.
  - intros H. injection H as <-. split; [lia|]. intros _. lia.
Qed.

Lemma index_by_block_returns (handy : string -> outcome Z)
  (f : flag string) (n : Z) :
  index_by_block handy f = Returns n -> 0 < n.
Proof.
  unfold index_by_block. destruct (matched f).
  - destruct (handy (get f)) as [v| | | |]; cbn [bind];
      try discriminate.
    destruct (v <=? 0) eqn:E0; [discriminate|].
    intros H. injection H as <-. apply Z.leb_gt in E0. exact E0.
  - intros H. injection H as <-. reflexivity.
Qed.

(** X4.  The parameters of a run that [parse_args] lets through,
    whatever [wfmash::handy_parameter] answers: the segment length is at
    least 100 and below the maximum mapping length, the chain gap is
    not negative and the same for the mapper and the aligner, the batch
    size is positive.  When [yeet_parameters.approx_mapping] arrives
    false, as in a default-constructed [yeet::Parameters], the segment
    length is at most 10000, the block length between 0 and 30000 and
    the maximum mapping length at most 100000, with -m on the command
    line or without; [wflign_max_len_major] and [wflign_max_len_minor]
    are then 512 and 128 segment lengths. *)
Theorem parse_args_keeps_the_lengths_within_bounds :
  forall split argc cli_result map0 align0 yeet0 env p,
    parse_args split argc cli_result map0 align0 yeet0 env = Returns p ->
    let m := map_parameters p in
    let a := align_parameters p in
    100 <= segLength m
    /\ segLength m < map_max_mapping_length m
    /\ 0 <= map_chain_gap m
    /\ align_chain_gap a = map_chain_gap m
    /\ 0 < index_by_size m
    /\ (yeet_approx_mapping yeet0 = false ->
        segLength m <= 10000
        /\ 0 <= map_block_length m <= 30000
        /\ map_max_mapping_length m <= 100000
        /\ wflign_max_len_major a = 512 * segLength m
        /\ wflign_max_len_minor a = 128 * segLength m).
Proof.
  intros split argc r map0 align0 yeet0 env p H m a. subst m a.
  destruct (parse_args_returns split argc r map0 align0 yeet0 env p H)
    as (cli & Hr & Hseg & Hidx & _ & _ & Hminor & Hlt & _).
  destruct (parse_args_fields split argc r map0 align0 yeet0 env p H)
    as (cli' & Hr' & _ & _ & _ & _ & _ & _ & Hbl & Hcg & Hcg' & Hmax & _ & _
        & Hmajor & _).
  rewrite Hr in Hr'. injection Hr' as <-.
  destruct (segment_length_block_returns _ _ _ _ Hseg) as [Hs Hs'].
  destruct (block_length_block_returns _ _ _ _ _ Hbl ltac:(lia)) as [Hb Hb'].
  pose proof (chain_gap_block_returns _ _ _ Hcg) as Hc.
  destruct (max_mapping_length_block_returns _ _ _ _ Hmax) as [HP HP'].
  pose proof (index_by_block_returns _ _ _ Hidx) as Hi.
  split; [exact Hs|]. split; [exact Hlt|]. split; [exact Hc|].
  split; [exact Hcg'|]. split; [exact Hi|].
  intros Ha. specialize (Hs' Ha). specialize (HP' Ha).
  specialize (Hb' Ha Hs').
  repeat split; try lia; try assumption.
Qed.

(** [wfmash t.fa -s 5k]: segment length 5000, block length 15000,
    maximum mapping length 50000. *)
Lemma lengths_of_a_run_with_segment_5k :
  exists p,
    parse_args getline_split 4 (Parsed cli_segment_5k)
      skch_empty align_empty yeet_default env_ok
    = Returns p
    /\ segLength (map_parameters p) = 5000
    /\ map_block_length (map_parameters p) = 15000
    /\ (100 <= segLength (map_parameters p)
        /\ segLength (map_parameters p) < map_max_mapping_length (map_parameters p)
        /\ 0 <= map_chain_gap (map_parameters p)
        /\ align_chain_gap (align_parameters p) = map_chain_gap (map_parameters p)
        /\ 0 < index_by_size (map_parameters p)
        /\ (yeet_approx_mapping yeet_default = false ->
            segLength (map_parameters p) <= 10000
            /\ 0 <= map_block_length (map_parameters p) <= 30000
            /\ map_max_mapping_length (map_parameters p) <= 100000
            /\ wflign_max_len_major (align_parameters p)
               = 512 * segLength (map_parameters p)
            /\ wflign_max_len_minor (align_parameters p)
               = 128 * segLength (map_parameters p))).
Proof.
  eexists. split; [reflexivity|]. split; [reflexivity|]. split; [reflexivity|].
  apply (parse_args_keeps_the_lengths_within_bounds
           getline_split 4 (Parsed cli_segment_5k)
           skch_empty align_empty yeet_default env_ok).
  reflexivity.
Defined.

(** *** The exit codes of [parse_args] *)

Lemma segment_length_block_exits (handy : string -> outcome Z)
  (f : flag string) (approx : bool) (c : Z) :
  segment_length_block handy f approx = Exits c ->
  (forall v c', handy v <> Exits c') ->
  c = 1.
Proof.
  intros H Hh. revert H.
  unfold segment_length_block. destruct (matched f); [|discriminate].
  pose proof (Hh (get f)) as Hn.
  destruct (handy (get f)) as [v| | |c'|]; cbn [bind];
    try discriminate; [|intros _; exfalso; exact (Hn c' eq_refl)].
  destruct (v <=? 0); [intros H; injection H as <-; reflexivity|].
  destruct (v <? 100); [intros H; injection H as <-; reflexivity|].
  destruct (negb approx && (10000 <? v)); [|discriminate].
  intros H; injection H as <-; reflexivity.
Qed.

Lemma map_pct_identity_block_exits (f : flag spec_float) (c : Z) :
  map_pct_identity_block f = Exits c -> c = 1.
Proof.
  unfold map_pct_identity_block. destruct (matched f); [|discriminate].
  destruct (SFltb (get f) float_fifty); [|discriminate].
  intros H; injection H as <-; reflexivity.
Qed.

Lemma block_length_block_exits (handy : string -> outcome Z)
  (f : flag string) (approx : bool) (seg c : Z) :
  block_length_block handy f approx seg = Exits c ->
  (forall v c', handy v <> Exits c') ->
  c = 1.
Proof.
  intros H Hh. revert H.
  unfold block_length_block. destruct (matched f); [|discriminate].
  pose proof (Hh (get f)) as Hn.
  destruct (handy (get f)) as [v| | |c'|]; cbn [bind];
    try discriminate; [|intros _; exfalso; exact (Hn c' eq_refl)].
  destruct (v <? 0); [intros H; injection H as <-; reflexivity|].
  destruct (negb approx && (30000 <? v)); [|discriminate].
  intros H; injection H as <-; reflexivity.
Qed.

Lemma chain_gap_block_exits (handy : string -> outcome Z)
  (f : flag string) (c : Z) :
  chain_gap_block handy f = Exits c ->
  (forall v c', handy v <> Exits c') ->
  c = 1.
Proof.
  intros H Hh. revert H.
  unfold chain_gap_block. destruct (matched f); [|discriminate].
  pose proof (Hh (get f)) as Hn.
  destruct (handy (get f)) as [v| | |c'|]; cbn [bind];
    try discriminate; [|intros _; exfalso; exact (Hn c' eq_refl)].
  destruct (v <? 0); [|discriminate].
  intros H; injection H as <-; reflexivity.
Qed.

Lemma max_mapping_length_block_exits (handy : string -> outcome Z)
  (f : flag string) (approx : bool) (c : Z) :
  max_mapping_length_block handy f approx = Exits c ->
  (forall v c', handy v <> Exits c') ->
  c = 1.
Proof.
  intros H Hh. revert H.
  unfold max_mapping_length_block. destruct (matched f); [|discriminate].
  assert (Hn : forall c', (if (get f =? "inf")%string then Returns INT64_MAX
                           else handy (get f)) <> Exits c').
  { intros c'. destruct (get f =? "inf")%string; [discriminate|].
    apply Hh. }
  destruct (if (get f =? "inf")%string then Returns INT64_MAX
            else handy (get f)) as [v| | |c'|]; cbn [bind];
    try discriminate; [|intros _; exfalso; exact (Hn c' eq_refl)].
  destruct (v <=? 0); [intros H; injection H as <-; reflexivity|].
  destruct (negb approx && (100000 <? v)); [|discriminate].
  intros H; injection H as <-; reflexivity.
Qed.

Lemma index_by_block_exits (handy : string -> outcome Z)
  (f : flag string) (c : Z) :
  index_by_block handy f = Exits c ->
  (forall v c', handy v <> Exits c') ->
  c = 1.
Proof.
  intros H Hh. revert H.
  unfold index_by_block. destruct (matched f); [|discriminate].
  pose proof (Hh (get f)) as Hn.
  destruct (handy (get f)) as [v| | |c'|]; cbn [bind];
    try discriminate; [|intros _; exfalso; exact (Hn c' eq_refl)].
  destruct (v <=? 0); [|discriminate].
  intros H; injection H as <-; reflexivity.
Qed.

Lemma approx_mapping_block_exits cli env align0 yeet (c : Z) :
  approx_mapping_block cli env align0 yeet = Exits c -> c = 1.
Proof.
  unfold approx_mapping_block. destruct (matched (approx_mapping cli));
    [discriminate|].
  destruct (matched (tmp_base cli)); cbn [bind].
  - destruct (matched (input_mapping cli)); discriminate.
  - destruct (getcwd env); cbn [bind].
    + destruct (matched (input_mapping cli)); discriminate.
    + intros H; injection H as <-; reflexivity.
Qed.

(** Takes a run of binds and tests that ends in [exit] apart. *)
Ltac exits_inv H :=
  repeat match type of H with
  | bind ?x _ = Exits _ =>
      let E := fresh "E" in destruct x eqn:E; cbn [bind] in H; try discriminate H
  | (if ?b then _ else _) = Exits _ =>
      let E := fresh "E" in destruct b eqn:E; try discriminate H
  end.

(** X5.  When [parse_args] ends the process, and it is not one of its
    callees that does, the exit code is 0 or 1; it is 0 only for the
    help ([args::Help]) and for --version. *)
Theorem parse_args_exits_with_0_or_1 :
  forall split argc cli_result map0 align0 yeet0 env code,
    parse_args split argc cli_result map0 align0 yeet0 env = Exits code ->
    callees_do_not_exit env ->
    (code = 0 \/ code = 1)
    /\ (code = 0 ->
        cli_result = ParseHelp
        \/ exists cli, cli_result = Parsed cli /\ matched (version cli) = true).
Proof.
  intros split argc r map0 align0 yeet0 env code H (Hh & Hg & Hs & Hv).
  unfold parse_args in H. destruct r as [| |cli].
  - injection H as <-. split; [left; reflexivity|]. intros _. left. reflexivity.
  - injection H as <-. split; [right; reflexivity|]. discriminate.
  - destruct (matched (version cli)) eqn:Ever.
    + injection H as <-. split; [left; reflexivity|].
      intros _. right. exists cli. split; reflexivity || assumption.
    + assert (H1 : code = 1).
      { exits_inv H;
          try (injection H as <-);
          try reflexivity;
          try discriminate;
          try (exfalso; eapply Hg; reflexivity);
          try (exfalso; eapply Hs; reflexivity);
          try (exfalso; eapply Hv; reflexivity);
          try (match goal with
               | E : _ = Exits _ |- _ => cbn in E; discriminate E
               end);
          first [ eapply segment_length_block_exits; [eassumption|exact Hh]
                | eapply map_pct_identity_block_exits; eassumption
                | eapply block_length_block_exits; [eassumption|exact Hh]
                | eapply chain_gap_block_exits; [eassumption|exact Hh]
                | eapply max_mapping_length_block_exits; [eassumption|exact Hh]
                | eapply index_by_block_exits; [eassumption|exact Hh]
                | eapply approx_mapping_block_exits; eassumption ]. }
      subst code. split; [right; reflexivity|discriminate].
Qed.

(** [wfmash t.fa -s 99] ends with code 1. *)
Lemma exit_code_of_segment_99 :
  parse_args getline_split 4 (Parsed cli_segment_99)
      skch_empty align_empty yeet_default env_ok
  = Exits 1
  /\ (1 = 0 \/ 1 = 1).
Proof.
  split; [reflexivity|].
  apply (parse_args_exits_with_0_or_1
           getline_split 4 (Parsed cli_segment_99)
               skch_empty align_empty yeet_default env_ok 1);
    [reflexivity|].
  split; [intros v c; apply handy_parameter_not_exit|].
  repeat split; discriminate.
Defined.

(** *** The sequence files and the indexes of the aligner
    (parse_args.hpp, lines 181-198 and 451-457; computeAlignments.hpp,
    lines 147-155) *)

Lemma nth_error_repeat {A} (a : A) (n i : nat) :
  (i < n)%nat -> nth_error (repeat a n) i = Some a.
Proof.
  revert i. induction n as [|n IH]; intros i Hi; [lia|].
  destruct i as [|i]; [reflexivity|]. cbn. apply IH. lia.
Qed.

(** X6.  Lines 182-197 add to the vectors the caller passes: the
    target file goes to the end of both [refSequences], the query file,
    when one is named, to the end of both [querySequences], and when
    the [querySequences] of the mapper is then still empty the target
    file is added to both (all against all).  For a caller that passes
    the four vectors empty, the mapper and the aligner get exactly one
    target file and one query file, the assertion of [getRefSequences]
    (line 149) holds, one index of the target file is loaded per
    thread, and [faidxs[tid]] exists for every worker.  For a caller
    whose [align_parameters.refSequences] is not empty that assertion
    fails.  The number of threads is the value of -t as it is given, 1
    without the option: no test rejects zero or a negative number. *)
Theorem aligner_gets_one_target_file_and_an_index_per_thread :
  forall split argc cli map0 align0 yeet0 env p,
    parse_args split argc (Parsed cli) map0 align0 yeet0 env = Returns p ->
    let m := map_parameters p in
    let a := align_parameters p in
    let target := get (target_sequence_file cli) in
    refSequences m = (refSequences map0 ++ [target])%list
    /\ align_refSequences a = (align_refSequences align0 ++ [target])%list
    /\ align_threads a
       = (if matched (thread_count cli) then get (thread_count cli) else 1)
    /\ (align_refSequences align0 <> [] ->
        getRefSequences false (align_refSequences a) (align_threads a)
        = AssertionFailed "param.refSequences.size() == 1")
    /\ (refSequences map0 = [] -> querySequences map0 = [] ->
        align_refSequences align0 = [] -> align_querySequences align0 = [] ->
        align_refSequences a = [target]
        /\ align_querySequences a
           = [if matched (query_sequence_file cli)
              then get (query_sequence_file cli) else target]
        /\ refSequences m = align_refSequences a
        /\ querySequences m = align_querySequences a
        /\ (forall NDEBUG,
               getRefSequences NDEBUG (align_refSequences a) (align_threads a)
               = Returns (repeat target (Z.to_nat (align_threads a))))
        /\ (forall tid,
               Z.of_nat tid < align_threads a ->
               vector_at (repeat target (Z.to_nat (align_threads a))) tid
               = Returns target)).
Proof.
  intros split argc cli map0 align0 yeet0 env p H m a target. subst m a target.
  destruct (parse_args_fields split argc _ map0 align0 yeet0 env p H)
    as (cli' & Hr & _ & _ & Hrefs & Harefs & Hq & Haq & _ & _ & _ & _ & Ht & Hat & _).
  injection Hr as <-.
  rewrite Harefs, Haq, Hq, Hrefs, Hat, Ht.
  split; [reflexivity|]. split; [reflexivity|]. split; [reflexivity|]. split.
  - intros Hne. unfold getRefSequences, cpp_assert.
    rewrite length_app. cbn [List.length negb orb].
    destruct (align_refSequences align0) as [|x l]; [contradiction|].
    cbn [List.length].
    replace (Z.of_nat (S (List.length l) + 1) =? 1) with false
      by (symmetry; apply Z.eqb_neq; lia).
    reflexivity.
  - intros -> -> -> ->. cbn [app].
    split; [reflexivity|].
    split; [destruct (matched (query_sequence_file cli)); reflexivity|].
    split; [reflexivity|].
    split; [destruct (matched (query_sequence_file cli)); reflexivity|]. split.
    + intros NDEBUG. unfold getRefSequences, cpp_assert. cbn.
      rewrite orb_true_r. reflexivity.
    + intros tid Htid. unfold vector_at.
      rewrite nth_error_repeat by lia. reflexivity.
Qed.

(** [wfmash t.fa -t 4] from a caller with empty vectors: target and
    query are t.fa, and four indexes are loaded. *)
Lemma indexes_of_a_run_with_four_threads :
  exists p,
    parse_args getline_split 4 (Parsed cli_four_threads)
      skch_empty align_empty yeet_default env_ok
    = Returns p
    /\ align_refSequences (align_parameters p) = ["t.fa"]
    /\ align_querySequences (align_parameters p) = ["t.fa"]
    /\ getRefSequences false (align_refSequences (align_parameters p))
         (align_threads (align_parameters p))
       = Returns ["t.fa"; "t.fa"; "t.fa"; "t.fa"].
Proof.
  eexists. split; [reflexivity|].
  destruct (aligner_gets_one_target_file_and_an_index_per_thread
              getline_split 4 cli_four_threads
              skch_empty align_empty yeet_default env_ok _ eq_refl)
    as (_ & _ & _ & _ & H).
  destruct (H eq_refl eq_refl eq_refl eq_refl) as (H1 & H2 & _ & _ & H3 & _).
  split; [exact H1|]. split; [exact H2|exact (H3 false)].
Defined.

(** *** The files of the two phases  (lines 580-610) *)



(** ** Further properties of the aligner's input  (computeAlignments.hpp) *)

(** *** Lines of the mapping file  (lines 172-178) *)

Lemma append_assoc (a b c : string) : ((a ++ b) ++ c = a ++ (b ++ c))%string.
Proof.
  induction a as [|x a IH]; [reflexivity|]. cbn [append]. rewrite IH. reflexivity.
Qed.

Lemma getlines_not_empty (content cur : string) : getlines content cur <> [].
Proof.
  revert cur. induction content as [|c r IH]; intros cur; cbn [getlines].
  - discriminate.
  - destruct (c =? "010")%char; [discriminate|apply IH].
Qed.

Lemma join_lines_cons (l : string) (rest : list string) :
  rest <> [] ->
  join_lines (l :: rest) = (l ++ String "010" (join_lines rest))%string.
Proof. destruct rest; [congruence|reflexivity]. Qed.

Lemma getlines_join (content cur : string) :
  join_lines (getlines content cur) = (cur ++ content)%string.
Proof.
  revert cur. induction content as [|c r IH]; intros cur; cbn [getlines].
  - cbn [join_lines]. rewrite append_empty. reflexivity.
  - destruct (c =? "010")%char eqn:E.
    + apply Ascii.eqb_eq in E. subst c.
      rewrite join_lines_cons by apply getlines_not_empty.
      rewrite IH. reflexivity.
    + rewrite IH, append_assoc. reflexivity.
Qed.

Lemma getlines_no_newline (content cur : string) :
  no_newline cur = true ->
  Forall (fun l => no_newline l = true) (getlines content cur).
Proof.
  revert cur. induction content as [|c r IH]; intros cur Hcur; cbn [getlines].
  - constructor; [exact Hcur|constructor].
  - destruct (c =? "010")%char eqn:E.
    + constructor; [exact Hcur|]. apply IH. reflexivity.
    + apply IH. unfold no_newline in *. rewrite string_forallb_append, Hcur.
      cbn [string_forallb]. rewrite E. reflexivity.
Qed.

Lemma getlines_length (content cur : string) :
  Z.of_nat (List.length (getlines content cur))
  = 1 + string_count (fun c => (c =? "010")%char) content.
Proof.
  revert cur. induction content as [|c r IH]; intros cur;
    cbn [getlines string_count]; [reflexivity|].
  destruct (c =? "010")%char.
  - cbn [List.length]. rewrite Nat2Z.inj_succ, IH. lia.
  - rewrite IH. lia.
Qed.

(** X8.  The lines the first pass of [computeAlignments] reads with
    [std::getline] until [eof()] are the file cut at its newlines: put
    together again with a newline between each two they are the file;
    none holds a newline; and there is one more of them than newlines in
    the file, so that a file ending in a newline gives a last, empty
    line, and the empty file gives one empty line. *)
Theorem getlines_cuts_the_file_at_its_newlines :
  forall content,
    join_lines (getlines content "") = content
    /\ Forall (fun l => no_newline l = true) (getlines content "")
    /\ Z.of_nat (List.length (getlines content ""))
       = 1 + string_count (fun c => (c =? "010")%char) content.
Proof.
  intros content. split; [|split].
  - apply (getlines_join content "").
  - apply getlines_no_newline. reflexivity.
  - apply getlines_length.
Qed.

(** *** Tokens of a row  (lines 113-119) *)

Lemma words_are_tokens (s cur : string) :
  string_forallb (fun c => negb (isspace c)) cur = true ->
  Forall (fun t => is_token t = true) (words s cur).
Proof.
  revert cur. induction s as [|c r IH]; intros cur Hcur; cbn [words].
  - destruct (slen cur =? 0) eqn:E; constructor; [|constructor].
    unfold is_token. rewrite E, Hcur. reflexivity.
  - destruct (isspace c) eqn:Ec.
    + destruct (slen cur =? 0) eqn:E; [apply IH; reflexivity|].
      constructor; [|apply IH; reflexivity].
      unfold is_token. rewrite E, Hcur. reflexivity.
    + apply IH. rewrite string_forallb_append, Hcur. cbn [string_forallb].
      rewrite Ec. reflexivity.
Qed.

Lemma words_append_token (t rest cur : string) :
  string_forallb (fun c => negb (isspace c)) t = true ->
  words (t ++ rest) cur = words rest (cur ++ t).
Proof.
  revert cur. induction t as [|c t IH]; intros cur Ht.
  - cbn [append]. rewrite append_empty. reflexivity.
  - cbn [string_forallb] in Ht. apply andb_true_iff in Ht as [Hc Ht].
    apply negb_true_iff in Hc. cbn [append words]. rewrite Hc.
    rewrite (IH _ Ht), append_assoc. reflexivity.
Qed.

Lemma is_token_spec (t : string) :
  is_token t = true ->
  (slen t =? 0) = false
  /\ string_forallb (fun c => negb (isspace c)) t = true.
Proof.
  unfold is_token. intros H. apply andb_true_iff in H as [H1 H2].
  apply negb_true_iff in H1. split; assumption.
Qed.

Lemma tokenize_join (sep : ascii) (tokens : list string) :
  isspace sep = true ->
  Forall (fun t => is_token t = true) tokens ->
  tokenize (join_tokens sep tokens) = tokens.
Proof.
  intros Hsep Hall. unfold tokenize.
  induction Hall as [|t rest Ht Hrest IH]; [reflexivity|].
  destruct (is_token_spec t Ht) as [Hlen Hns].
  destruct rest as [|t' rest'].
  - cbn [join_tokens]. rewrite <- (append_empty t) at 1.
    rewrite (words_append_token t "" "" Hns). cbn [append words].
    rewrite Hlen. reflexivity.
  - change (join_tokens sep (t :: t' :: rest'))
      with (t ++ String sep (join_tokens sep (t' :: rest')))%string.
    rewrite (words_append_token t _ "" Hns). cbn [append words].
    rewrite Hsep, Hlen, IH. reflexivity.
Qed.

(** X9.  The words [ss >> word] gives for a row (lines 118-119) are
    never empty and hold no white space, whatever the row is; a row
    without a word, the empty one or one of blanks only, gives no token
    at all. *)
Theorem tokens_are_not_empty_and_hold_no_white_space :
  forall line,
    Forall (fun t => is_token t = true) (tokenize line)
    /\ (string_forallb isspace line = true -> tokenize line = []).
Proof.
  intros line. split.
  - apply words_are_tokens. reflexivity.
  - unfold tokenize. induction line as [|c r IH]; [reflexivity|].
    cbn [string_forallb words]. intros H. apply andb_true_iff in H as [Hc Hr].
    rewrite Hc. cbn. exact (IH Hr).
Qed.

(** X10.  Tokens written with one white-space character between each
    two, a tab as the mapper writes them or a blank, are read back as
    they are: the columns of a row are its tokens, in order. *)
Theorem tokenize_reads_back_the_columns :
  forall sep tokens,
    isspace sep = true ->
    Forall (fun t => is_token t = true) tokens ->
    tokenize (join_tokens sep tokens) = tokens.
Proof. exact tokenize_join. Qed.

(** Three columns, with tabs between them. *)
Lemma tokenize_of_three_columns :
  join_tokens "009" ["q1"; "100"; "+"] = String "q" (String "1" (String "009"
    (String "1" (String "0" (String "0" (String "009" "+"))))))
  /\ tokenize (join_tokens "009" ["q1"; "100"; "+"]) = ["q1"; "100"; "+"].
Proof.
  split; [reflexivity|].
  apply (tokenize_reads_back_the_columns "009" ["q1"; "100"; "+"]);
    [reflexivity|].
  repeat constructor.
Defined.

(** *** The fields of a row  (lines 121-139) *)

Lemma digit_not_space (c : ascii) : is_digit c = true -> isspace c = false.
Proof.
  unfold is_digit, isspace. intros H. apply andb_true_iff in H as [H1 H2].
  apply Z.leb_le in H1, H2.
  apply orb_false_iff. split; [apply Z.eqb_neq; lia|].
  apply andb_false_iff. right. apply Z.leb_gt. lia.
Qed.

Lemma digit_string_spec (t : string) :
  digit_string t = true ->
  exists c r, t = String c r /\ is_digit c = true /\ all_digits t = true.
Proof.
  unfold digit_string. intros H. apply andb_true_iff in H as [Hlen Hd].
  destruct t as [|c r]; [discriminate|].
  exists c, r. split; [reflexivity|]. split; [|exact Hd].
  unfold all_digits in Hd. cbn [string_forallb] in Hd.
  apply andb_true_iff in Hd as [Hc _]. exact Hc.
Qed.

(** [std::stoi] on a run of digits: its value, or [std::out_of_range]
    when the value is beyond [int]. *)
Lemma stoi_digit_string (t : string) :
  digit_string t = true ->
  stoi t = if decimal_value t 0 <=? INT_MAX then Returns (decimal_value t 0)
           else Throws out_of_range.
Proof.
  intros H. destruct (digit_string_spec t H) as (c & r & -> & Hc & Hd).
  unfold stoi. cbn [skip_space]. rewrite (digit_not_space c Hc).
  assert (Hm : (c =? "-")%char = false).
  { destruct (c =? "-")%char eqn:E; [|reflexivity].
    apply Ascii.eqb_eq in E. subst c. discriminate Hc. }
  assert (Hp : (c =? "+")%char = false).
  { destruct (c =? "+")%char eqn:E; [|reflexivity].
    apply Ascii.eqb_eq in E. subst c. discriminate Hc. }
  rewrite Hm, Hp.
  pose proof (scan_digits_run (String c r) "" Hd I 0 0%nat) as Hs.
  rewrite append_empty in Hs. rewrite Hs.
  cbn [String.length Nat.add Nat.eqb].
  pose proof (decimal_value_nonneg (String c r) Hd 0 ltac:(lia)) as Hnn.
  replace (INT_MIN <=? decimal_value (String c r) 0) with true
    by (symmetry; apply Z.leb_le; unfold INT_MIN; lia).
  cbn [andb]. reflexivity.
Qed.

Lemma vector_at_nth {A} (v : list A) (pos : nat) (d : A) :
  (pos < List.length v)%nat -> vector_at v pos = Returns (nth pos v d).
Proof.
  intros H. unfold vector_at. rewrite (nth_error_nth' v d H). reflexivity.
Qed.

Section RowFacts.

Variable NDEBUG : bool.
Variable estimated_identity : string -> outcome spec_float.

(** [parseMashmapRow] on a line of thirteen tokens or more, up to the
    four calls of [std::stoi]. *)
Lemma parseMashmapRow_thirteen (line : string) (cur : MappingBoundaryRow)
  (mm_id : spec_float) :
  (13 <= List.length (tokenize line))%nat ->
  estimated_identity (nth 12 (tokenize line) "") = Returns mm_id ->
  parseMashmapRow NDEBUG estimated_identity line cur
  = (qs <- stoi (nth 2 (tokenize line) "") ;;
     qe <- stoi (nth 3 (tokenize line) "") ;;
     rs <- stoi (nth 7 (tokenize line) "") ;;
     re <- stoi (nth 8 (tokenize line) "") ;;
     Returns {| qId := nth 0 (tokenize line) "";
                qStartPos := qs;
                qEndPos := qe;
                strand := if (nth 4 (tokenize line) "" =? "+")%string
                          then FWD else REV;
                refId := nth 5 (tokenize line) "";
                rStartPos := rs;
                rEndPos := re;
                mashmap_estimated_identity := mm_id;
                rankMapping := rankMapping cur |}).
Proof.
  intros Hlen Hid. unfold parseMashmapRow, cpp_assert.
  replace (9 <=? Z.of_nat (List.length (tokenize line))) with true
    by (symmetry; apply Z.leb_le; lia).
  rewrite orb_true_r. cbn [bind].
  rewrite !(vector_at_nth (tokenize line) _ "") by lia. cbn [bind].
  rewrite Hid. cbn [bind]. reflexivity.
Qed.

(** The result of [parseMashmapRow] takes nothing of [currentRecord]
    but [rankMapping]. *)
Lemma parseMashmapRow_other_record (line : string)
  (cur cur' rec : MappingBoundaryRow) :
  parseMashmapRow NDEBUG estimated_identity line cur = Returns rec ->
  parseMashmapRow NDEBUG estimated_identity line cur'
  = Returns (set_rankMapping rec (rankMapping cur')).
Proof.
  intros H. unfold parseMashmapRow in *. returns_inv H.
  injection H as <-. cbn [bind].
  repeat match goal with
  | E : ?x = Returns _ |- context [bind ?x _] => rewrite E; cbn [bind]
  end.
  reflexivity.
Qed.

End RowFacts.

(** X11.  A row of thirteen columns or more, with any white-space
    character between them, whose columns 3, 4, 8 and 9 are runs of
    digits that denote an [int]: [parseMashmapRow] returns the record
    with the query name of column 1, the query interval of columns 3 and
    4, the target name of column 6, the target interval of columns 8 and
    9, and the identity computed from column 13.  The strand is forward
    for "+" in column 5 and reverse for anything else; columns 2, 7, 10,
    11, 12 and those after the thirteenth are not read; [rankMapping] is
    left as it was. *)
Theorem parseMashmapRow_reads_columns_1_3_4_5_6_8_9_and_13 :
  forall NDEBUG estimated_identity sep tokens cur mm_id,
    isspace sep = true ->
    Forall (fun t => is_token t = true) tokens ->
    (13 <= List.length tokens)%nat ->
    forallb (fun i => int_numeral (nth i tokens "")) [2; 3; 7; 8]%nat = true ->
    estimated_identity (nth 12 tokens "") = Returns mm_id ->
    parseMashmapRow NDEBUG estimated_identity (join_tokens sep tokens) cur
    = Returns {| qId := nth 0 tokens "";
                 qStartPos := decimal_value (nth 2 tokens "") 0;
                 qEndPos := decimal_value (nth 3 tokens "") 0;
                 strand := if (nth 4 tokens "" =? "+")%string then FWD else REV;
                 refId := nth 5 tokens "";
                 rStartPos := decimal_value (nth 7 tokens "") 0;
                 rEndPos := decimal_value (nth 8 tokens "") 0;
                 mashmap_estimated_identity := mm_id;
                 rankMapping := rankMapping cur |}.
Proof.
  intros NDEBUG ei sep tokens cur mm_id Hsep Htok Hlen Hnum Hid.
  pose proof (tokenize_join sep tokens Hsep Htok) as Ht.
  rewrite (parseMashmapRow_thirteen NDEBUG ei _ cur mm_id);
    rewrite Ht; try assumption.
  cbn [forallb] in Hnum.
  repeat (apply andb_true_iff in Hnum; destruct Hnum as [?H Hnum]).
  repeat match goal with
  | H : int_numeral ?t = true |- _ =>
      let Hd := fresh "Hd" in
      let Hv := fresh "Hv" in
      unfold int_numeral in H;
      apply andb_true_iff in H; destruct H as [Hd Hv];
      rewrite (stoi_digit_string t Hd), Hv
  end.
  reflexivity.
Qed.

(** The row of [row_thirteen_tokens], written with tabs. *)
Lemma parseMashmapRow_of_a_row_with_tabs :
  parseMashmapRow false identity_zero (join_tokens "009" row_thirteen_tokens)
    default_row
  = Returns (Row "q1" 0 50 FWD "t1" 10 60 (S754_zero false) 0).
Proof.
  apply (parseMashmapRow_reads_columns_1_3_4_5_6_8_9_and_13
           false identity_zero "009" row_thirteen_tokens default_row
           (S754_zero false)); try reflexivity.
  repeat constructor.
Defined.

(** X12.  The four positions of a row are read with [std::stoi] into
    [int]: a row of thirteen columns or more whose columns 3, 4, 8 and 9
    are runs of digits, one of them denoting 2^31 or more, is not turned
    into a record; the call ends in [std::out_of_range], which neither
    [parseMashmapRow] nor [computeAlignments] catches. *)
Theorem parseMashmapRow_throws_on_a_position_beyond_int :
  forall NDEBUG estimated_identity sep tokens cur mm_id,
    isspace sep = true ->
    Forall (fun t => is_token t = true) tokens ->
    (13 <= List.length tokens)%nat ->
    forallb (fun i => digit_string (nth i tokens "")) [2; 3; 7; 8]%nat = true ->
    existsb (fun i => INT_MAX <? decimal_value (nth i tokens "") 0)
      [2; 3; 7; 8]%nat = true ->
    estimated_identity (nth 12 tokens "") = Returns mm_id ->
    parseMashmapRow NDEBUG estimated_identity (join_tokens sep tokens) cur
    = Throws out_of_range.
Proof.
  intros NDEBUG ei sep tokens cur mm_id Hsep Htok Hlen Hnum Hbig Hid.
  pose proof (tokenize_join sep tokens Hsep Htok) as Ht.
  rewrite (parseMashmapRow_thirteen NDEBUG ei _ cur mm_id);
    rewrite Ht; try assumption.
  cbn [forallb] in Hnum.
  repeat (apply andb_true_iff in Hnum; destruct Hnum as [?H Hnum]).
  repeat match goal with
  | H : digit_string ?t = true |- _ =>
      rewrite (stoi_digit_string t H); clear H
  end.
  cbn [existsb] in Hbig.
  destruct (decimal_value (nth 2 tokens "") 0 <=? INT_MAX) eqn:E2;
    [|reflexivity].
  destruct (decimal_value (nth 3 tokens "") 0 <=? INT_MAX) eqn:E3;
    [|reflexivity].
  destruct (decimal_value (nth 7 tokens "") 0 <=? INT_MAX) eqn:E7;
    [|reflexivity].
  destruct (decimal_value (nth 8 tokens "") 0 <=? INT_MAX) eqn:E8;
    [|reflexivity].
  exfalso. apply Z.leb_le in E2, E3, E7, E8.
  repeat (apply orb_true_iff in Hbig; destruct Hbig as [Hbig|Hbig]);
    try discriminate; apply Z.ltb_lt in Hbig; lia.
Qed.

(** A mapping three thousand million bases into its query. *)
Lemma parseMashmapRow_of_a_row_beyond_int :
  parseMashmapRow false identity_zero (join_tokens "009" row_beyond_int)
    default_row
  = Throws out_of_range.
Proof.
  apply (parseMashmapRow_throws_on_a_position_beyond_int
           false identity_zero "009" row_beyond_int default_row
           (S754_zero false)); try reflexivity.
  repeat constructor.
Defined.

(** *** The first pass over the mapping file  (lines 165-179) *)

Lemma to_uint64_range (z : Z) : 0 <= to_uint64 z < 2 ^ 64.
Proof. unfold to_uint64. apply Z.mod_pos_bound. lia. Qed.

Lemma to_uint64_add_l (a b : Z) : to_uint64 (to_uint64 a + b) = to_uint64 (a + b).
Proof. unfold to_uint64. apply Zplus_mod_idemp_l. Qed.

Section FirstPassFacts.

Variable NDEBUG : bool.
Variable estimated_identity : string -> outcome spec_float.

Lemma row_of_line_parsed (line : string) (cur rec : MappingBoundaryRow) :
  parseMashmapRow NDEBUG estimated_identity line cur = Returns rec ->
  row_of_line NDEBUG estimated_identity line = set_rankMapping rec 0.
Proof.
  intros H. unfold row_of_line.
  rewrite (parseMashmapRow_other_record NDEBUG estimated_identity line cur
             default_row rec H).
  reflexivity.
Qed.

Lemma query_span_parsed (line : string) (cur rec : MappingBoundaryRow) :
  parseMashmapRow NDEBUG estimated_identity line cur = Returns rec ->
  qEndPos rec - qStartPos rec = query_span NDEBUG estimated_identity line.
Proof.
  intros H. unfold query_span. rewrite (row_of_line_parsed line cur rec H).
  reflexivity.
Qed.

Lemma count_mapped_bases_sum (lines : list string) :
  Forall (fun l => slen l = 0 \/ well_formed_row NDEBUG estimated_identity l)
         lines ->
  forall cur total,
    0 <= total < 2 ^ 64 ->
    count_mapped_bases NDEBUG estimated_identity lines cur total
    = Returns (to_uint64
                 (total + sum_of_spans NDEBUG estimated_identity lines)).
Proof.
  induction 1 as [|l rest Hl Hrest IH]; intros cur total Ht;
    cbn [count_mapped_bases sum_of_spans].
  - rewrite Z.add_0_r, to_uint64_small by exact Ht. reflexivity.
  - destruct (slen l =? 0) eqn:E; cbn [negb].
    + rewrite (IH cur total Ht). reflexivity.
    + destruct Hl as [Hl|Hl]; [apply Z.eqb_neq in E; contradiction|].
      destruct (Hl cur) as [rec Hrec]. rewrite Hrec. cbn [bind].
      rewrite (IH rec _ (to_uint64_range _)).
      rewrite (query_span_parsed l cur rec Hrec).
      rewrite to_uint64_add_l, Z.add_assoc. reflexivity.
Qed.

End FirstPassFacts.

(** X13.  When every line of the mapping file that is not empty is a
    row [parseMashmapRow] can read, with a query span that is an [int],
    the first pass of [computeAlignments] ends normally, and the total
    it hands to the progress meter is the sum, in [uint64_t], of
    [qEndPos - qStartPos] over these rows; empty lines add nothing, and
    the pipeline is started on the lines of the file. *)
Theorem first_pass_adds_up_the_query_spans :
  forall NDEBUG estimated_identity pipeline_output after_undefined file,
    Forall (fun l =>
              slen l = 0
              \/ (well_formed_row NDEBUG estimated_identity l
                  /\ INT_MIN <= query_span NDEBUG estimated_identity l
                     <= INT_MAX))
           (getlines file "") ->
    let r := computeAlignments NDEBUG estimated_identity pipeline_output
               after_undefined file in
    ending r
    = Returns (to_uint64
                 (sum_of_spans NDEBUG estimated_identity (getlines file "")))
    /\ written r = pipeline_output (getlines file "").
Proof.
  intros NDEBUG ei po au file Hall r. subst r. unfold computeAlignments.
  assert (Hall' : Forall (fun l => slen l = 0 \/ well_formed_row NDEBUG ei l)
                         (getlines file "")).
  { apply (Forall_impl _ (P := fun l =>
             slen l = 0
             \/ (well_formed_row NDEBUG ei l
                 /\ INT_MIN <= query_span NDEBUG ei l <= INT_MAX)));
      [|exact Hall].
    intros l [H|[H _]]; [left|right]; exact H. }
  rewrite (count_mapped_bases_sum NDEBUG ei _ Hall' default_row 0 ltac:(lia)).
  cbn [ending written Z.add]. split; reflexivity.
Qed.

(** Two rows of 50 bases and one of 80, each followed by a newline. *)
Lemma first_pass_of_three_rows :
  ending (computeAlignments false identity_zero no_pipeline_output
            nothing_after_undefined two_queries_file)
  = Returns 180.
Proof.
  refine (eq_trans
            (proj1 (first_pass_adds_up_the_query_spans
                      false identity_zero no_pipeline_output
                      nothing_after_undefined two_queries_file _))
            _); [|reflexivity].
  replace (getlines two_queries_file "")
    with [row_q1_first; row_q1_second; row_q2_only; ""] by reflexivity.
  repeat (apply Forall_cons;
          [right; split;
           [intros cur; eexists; reflexivity
           |split; apply Z.leb_le; reflexivity]|]).
  apply Forall_cons; [left; reflexivity|apply Forall_nil].
Defined.

(** *** The reader thread  (lines 201-277) *)

(** The two loops of the callback, in the terms of [getline]: the loop
    of lines 236-239 and the loop of lines 253-268 each do one
    [std::getline] and go on as the source says. *)
Lemma first_line_to_parse_loop (stream : ifstream) (line : string) :
  first_line_to_parse stream line
  = if negb (eof stream) && (slen line =? 0)
    then let '(stream', line') := getline stream line in
         first_line_to_parse stream' line'
    else (stream, line).
Proof.
  destruct stream as [unread|f]; [|reflexivity].
  cbn [eof negb andb first_line_to_parse].
  destruct (slen line =? 0) eqn:E; [|reflexivity].
  destruct unread as [|l [|l' rest]]; reflexivity.
Qed.

Section ReaderFacts.

Variable NDEBUG : bool.
Variable estimated_identity : string -> outcome spec_float.
Variable makeUpperCaseAndValidDNA : string -> string.

Local Abbreviation parse := (parseMashmapRow NDEBUG estimated_identity).
Local Abbreviation inner := (more_mappings NDEBUG estimated_identity).
Local Abbreviation callback := (for_sequence NDEBUG estimated_identity makeUpperCaseAndValidDNA).
Local Abbreviation each_seq :=
  (for_each_seq_in_file NDEBUG estimated_identity makeUpperCaseAndValidDNA).
Local Abbreviation row_of := (row_of_query NDEBUG estimated_identity).
Local Abbreviation numbered := (ranked NDEBUG estimated_identity).

Lemma more_mappings_loop (qSeqId seq : string) (unread : list string)
  (line : string) (cur : MappingBoundaryRow) (rank : Z)
  (pushed0 : list seq_record_t) :
  inner qSeqId seq unread cur rank pushed0
  = let '(stream, line') := getline (Good unread) line in
    if fail stream then Returns (ReaderState stream line' cur pushed0)
    else
      rec <- parse line' cur ;;
      if negb (qId rec =? qSeqId)%string
      then Returns (ReaderState stream line' rec pushed0)
      else
        let q := SeqRecord (set_rankMapping rec rank) line' seq in
        match stream with
        | Good rest => inner qSeqId seq rest rec (rank + 1) (pushed0 ++ [q])%list
        | AtEof _ =>
            let '(stream2, line2) := getline stream line' in
            Returns (ReaderState stream2 line2 rec (pushed0 ++ [q])%list)
        end.
Proof.
  destruct unread as [|l [|l' rest]]; reflexivity.
Qed.

Lemma rows_then_end_not_nil (rows : list string) :
  exists l rest, (rows ++ [""])%list = l :: rest.
Proof. destruct rows as [|l rest]; cbn; eauto. Qed.

Lemma string_eqb_refl (s : string) : (s =? s)%string = true.
Proof. apply String.eqb_eq. reflexivity. Qed.

Lemma numbered_row (l : string) (cur rec : MappingBoundaryRow) (rank : Z) :
  parse l cur = Returns rec ->
  set_rankMapping (row_of_line NDEBUG estimated_identity l) rank
  = set_rankMapping rec rank.
Proof.
  intros H. rewrite (row_of_line_parsed NDEBUG estimated_identity l cur rec H).
  reflexivity.
Qed.

(** The inner loop on the rest of the rows of a query, followed by the
    rows of other queries. *)
Lemma more_mappings_on_a_group (name seq : string) (R Q : list string) :
  Forall (row_of name) R ->
  match Q with
  | [] => True
  | q1 :: _ => exists other, row_of other q1 /\ other <> name
  end ->
  forall cur rank pushed0,
  exists st,
    inner name seq (R ++ Q ++ [""])%list cur rank pushed0 = Returns st
    /\ pushed st = (pushed0 ++ numbered R seq rank)%list
    /\ match Q with
       | [] => last_mappingRecordLine st = ""
               /\ mappingListStream st = AtEof true
       | q1 :: Q' => last_mappingRecordLine st = q1
                     /\ mappingListStream st = Good (Q' ++ [""])%list
       end.
Proof.
  intros HR HQ. induction HR as [|l R' Hl HR' IH]; intros cur rank pushed0.
  - cbn [app ranked]. destruct Q as [|q1 Q'].
    + eexists. cbn. rewrite app_nil_r. repeat split.
    + destruct HQ as (other & [Hne Hparse] & Hother).
      destruct (Hparse cur) as (rec & Hrec & Hid).
      destruct (rows_then_end_not_nil Q') as (x & t & Ex).
      cbn [app more_mappings]. rewrite Ex. cbn [fail]. rewrite Hrec. cbn [bind].
      rewrite Hid.
      replace (other =? name)%string with false
        by (symmetry; apply String.eqb_neq; exact Hother).
      cbn [negb]. eexists. split; [reflexivity|]. cbn.
      rewrite app_nil_r. repeat split.
  - destruct Hl as [Hne Hparse].
    destruct (Hparse cur) as (rec & Hrec & Hid).
    assert (Ex : exists x t, (R' ++ Q ++ [""])%list = x :: t).
    { rewrite app_assoc. apply rows_then_end_not_nil. }
    destruct Ex as (x & t & Ex).
    cbn [app more_mappings]. rewrite Ex. cbn [fail]. rewrite Hrec. cbn [bind].
    rewrite Hid, string_eqb_refl. cbn [negb]. rewrite <- Ex.
    destruct (IH rec (rank + 1)
                (pushed0 ++ [SeqRecord (set_rankMapping rec rank) l seq])%list)
      as (st & Hst & Hpushed & Hat).
    exists st. split; [exact Hst|]. split; [|exact Hat].
    rewrite Hpushed. cbn [ranked]. rewrite <- app_assoc. cbn [app].
    rewrite (numbered_row l cur rec rank Hrec). reflexivity.
Qed.

(** The callback on a query whose rows come next in the file. *)
Lemma for_sequence_on_a_group (name _seq : string) (R Q : list string)
  (st : reader_state) :
  Forall (row_of name) R ->
  match Q with
  | [] => True
  | q1 :: _ => exists other, row_of other q1 /\ other <> name
  end ->
  reader_at (R ++ Q)%list st ->
  exists st',
    callback st name _seq = Returns st'
    /\ pushed st'
       = (pushed st ++ numbered R (makeUpperCaseAndValidDNA _seq) 0)%list
    /\ reader_at Q st'.
Proof.
  intros HR HQ Hat.
  (* the row in [mappingRecordLine] after the loop of lines 236-239 *)
  assert (Hfirst :
            (R = [] /\ Q = []
             /\ exists f, first_line_to_parse (mappingListStream st)
                            (last_mappingRecordLine st) = (AtEof f, ""))
            \/ exists l P',
                (R ++ Q)%list = l :: P'
                /\ first_line_to_parse (mappingListStream st)
                     (last_mappingRecordLine st)
                   = (Good (P' ++ [""])%list, l)).
  { assert (Hnonempty : forall l P', (R ++ Q)%list = l :: P' ->
                                     (slen l =? 0) = false).
    { intros l P' E. destruct R as [|r R'].
      - cbn in E. subst Q. destruct HQ as (other & [Hne _] & _). exact Hne.
      - cbn in E. injection E as <- _. inversion HR as [|? ? [Hne _] _]. exact Hne. }
    destruct Hat as [[Hl Hs]|[(l & P' & EP & Hl & Hs)|(EP & Hl & Hs)]];
      rewrite Hl, Hs.
    - destruct (R ++ Q)%list as [|l P'] eqn:EP.
      + left. apply app_eq_nil in EP as [-> ->].
        repeat split. exists true. reflexivity.
      + right. exists l, P'. split; [reflexivity|].
        destruct (rows_then_end_not_nil P') as (x & t & Ex).
        cbn [first_line_to_parse app skip_empty_lines slen String.length
             Z.of_nat Z.eqb].
        rewrite Ex, (Hnonempty l P' eq_refl). reflexivity.
    - right. exists l, P'. split; [exact EP|].
      cbn [first_line_to_parse]. rewrite (Hnonempty l P' EP). reflexivity.
    - left. apply app_eq_nil in EP as [-> ->].
      repeat split. exists true. reflexivity. }
  unfold for_sequence.
  destruct Hfirst as [(-> & -> & f & Hf)|(l & P' & EP & Hf)]; rewrite Hf.
  - cbn [slen String.length Z.of_nat Z.eqb negb ranked].
    eexists. split; [reflexivity|]. cbn [pushed]. rewrite app_nil_r.
    split; [reflexivity|].
    destruct Hat as [[Hl Hs]|[(l & P' & EP & _)|(_ & Hl & Hs)]];
      [|discriminate|].
    + rewrite Hl, Hs in Hf. cbn in Hf. injection Hf as <-.
      right. right. repeat split.
    + rewrite Hl, Hs in Hf. cbn in Hf. injection Hf as <-.
      right. right. repeat split.
  - destruct R as [|r R'].
    + cbn [app] in EP. subst Q.
      destruct HQ as (other & [Hne Hparse] & Hother).
      destruct (Hparse (last_currentRecord st)) as (rec & Hrec & Hid).
      rewrite Hne. cbn [negb]. rewrite Hrec. cbn [bind]. rewrite Hid.
      replace (other =? name)%string with false
        by (symmetry; apply String.eqb_neq; exact Hother).
      eexists. split; [reflexivity|]. cbn [pushed ranked].
      rewrite app_nil_r. split; [reflexivity|].
      right. left. exists l, P'. repeat split.
    + cbn [app] in EP. injection EP as <- <-.
      inversion HR as [|? ? [Hne Hparse] HR']; subst.
      destruct (Hparse (last_currentRecord st)) as (rec & Hrec & Hid).
      rewrite Hne. cbn [negb]. rewrite Hrec. cbn [bind].
      rewrite Hid, string_eqb_refl.
      rewrite <- app_assoc.
      destruct (more_mappings_on_a_group name (makeUpperCaseAndValidDNA _seq)
                  R' Q HR' HQ rec 1
                  (pushed st
                   ++ [SeqRecord (set_rankMapping rec 0) r
                         (makeUpperCaseAndValidDNA _seq)])%list)
        as (st' & Hst & Hpushed & Hat').
      exists st'. split; [exact Hst|]. split.
      * rewrite Hpushed. cbn [ranked]. rewrite <- app_assoc. cbn [app].
        rewrite (numbered_row r _ rec 0 Hrec). reflexivity.
      * destruct Q as [|q1 Q'].
        -- right. right. destruct Hat' as [H1 H2]. repeat split; assumption.
        -- right. left. destruct Hat' as [H1 H2]. exists q1, Q'.
           repeat split; assumption.
Qed.

Lemma first_row_of_the_groups (groups : list query_group) (q1 : string)
  (Q' : list string) :
  rows_of groups = q1 :: Q' ->
  exists g, In g groups /\ In q1 (group_rows g).
Proof.
  induction groups as [|g groups IH]; [discriminate|].
  unfold rows_of. cbn [flat_map]. fold (rows_of groups).
  destruct (group_rows g) as [|r R] eqn:Eg.
  - cbn [app]. intros H. destruct (IH H) as (g' & Hin & Hq).
    exists g'. split; [right; exact Hin|exact Hq].
  - cbn [app]. intros H. injection H as <- _.
    exists g. split; [left; reflexivity|]. rewrite Eg. left. reflexivity.
Qed.

(** The callback on every sequence of the query file, the rows of the
    mapping file being grouped in the order of the sequences. *)
Lemma for_each_seq_on_the_groups (groups : list query_group) :
  NoDup (map group_name groups) ->
  Forall (fun g => Forall (row_of (group_name g)) (group_rows g)) groups ->
  forall st,
    reader_at (rows_of groups) st ->
    exists st',
      each_seq (sequences_of groups) st = Returns st'
      /\ pushed st'
         = (pushed st
            ++ expected_records NDEBUG estimated_identity
                 makeUpperCaseAndValidDNA groups)%list.
Proof.
  induction groups as [|g groups IH]; intros Hnd Hrows st Hat.
  - exists st. split; [reflexivity|]. cbn. rewrite app_nil_r. reflexivity.
  - cbn [map] in Hnd. inversion Hnd as [|? ? Hnotin Hnd']; subst.
    inversion Hrows as [|? ? Hg Hrows']; subst.
    destruct g as [[name _seq] R].
    unfold group_name, group_rows in Hg, Hnotin. cbn [fst snd] in Hg, Hnotin.
    assert (HQ : match rows_of groups with
                 | [] => True
                 | q1 :: _ => exists other, row_of other q1 /\ other <> name
                 end).
    { destruct (rows_of groups) as [|q1 Q'] eqn:EQ; [exact I|].
      destruct (first_row_of_the_groups groups q1 Q' EQ) as (g' & Hin & Hq).
      exists (group_name g'). split.
      - rewrite Forall_forall in Hrows'. specialize (Hrows' g' Hin).
        rewrite Forall_forall in Hrows'. exact (Hrows' q1 Hq).
      - intros E. apply Hnotin. rewrite <- E. apply in_map. exact Hin. }
    destruct (for_sequence_on_a_group name _seq R (rows_of groups) st Hg HQ Hat)
      as (st1 & Hst1 & Hp1 & Hat1).
    destruct (IH Hnd' Hrows' st1 Hat1) as (st' & Hst' & Hp').
    exists st'. split.
    + unfold sequences_of. cbn [map fst for_each_seq_in_file].
      rewrite Hst1. cbn [bind]. exact Hst'.
    + rewrite Hp', Hp1. unfold expected_records. cbn [flat_map].
      unfold group_rows, group_sequence. cbn [fst snd].
      rewrite <- app_assoc. reflexivity.
Qed.

End ReaderFacts.

(** X14.  A mapping file that ends in a newline and whose rows are
    grouped by query, the groups in the order of the sequences of the
    query file and the names of the sequences all different: the reader
    pushes one record for every row of the file, in the order of the
    file, each with the bases of its query made upper case and with its
    rank among the rows of that query, counted from 0.  A sequence
    without a row gets nothing. *)
Theorem reader_pushes_every_row_of_a_grouped_file :
  forall NDEBUG estimated_identity makeUpperCaseAndValidDNA groups file,
    NoDup (map group_name groups) ->
    Forall (fun g => Forall (row_of_query NDEBUG estimated_identity (group_name g))
                            (group_rows g)) groups ->
    getlines file "" = (rows_of groups ++ [""])%list ->
    reader_thread NDEBUG estimated_identity makeUpperCaseAndValidDNA
      [sequences_of groups] file []
    = Returns (expected_records NDEBUG estimated_identity
                 makeUpperCaseAndValidDNA groups).
Proof.
  intros NDEBUG ei upper groups file Hnd Hrows Hfile.
  cbn [reader_thread]. unfold ifstream_open. rewrite Hfile.
  destruct (for_each_seq_on_the_groups NDEBUG ei upper groups Hnd Hrows
              (ReaderState (Good (rows_of groups ++ [""])%list) "" default_row []))
    as (st' & Hst' & Hp').
  { left. split; reflexivity. }
  rewrite Hst'. cbn [bind]. rewrite Hp'. reflexivity.
Qed.

(** Two rows of q1, none of q3, one of q2. *)
Lemma reader_on_two_queries :
  reader_thread false identity_zero upper_case_stub
    [[("q1", "acgt"); ("q3", "ttt"); ("q2", "ggcc")]] two_queries_file []
  = Returns
      [SeqRecord (Row "q1" 0 50 FWD "t1" 10 60 (S754_zero false) 0)
         row_q1_first "acgt";
       SeqRecord (Row "q1" 50 100 REV "t2" 0 50 (S754_zero false) 1)
         row_q1_second "acgt";
       SeqRecord (Row "q2" 0 80 FWD "t1" 100 180 (S754_zero false) 0)
         row_q2_only "ggcc"].
Proof.
  apply (reader_pushes_every_row_of_a_grouped_file
           false identity_zero upper_case_stub two_queries two_queries_file).
  - repeat constructor; cbn; intuition discriminate.
  - repeat constructor; cbn; intros cur; eexists; split; reflexivity.
  - reflexivity.
Defined.

Lemma skip_empty_lines_within (lines unread : list string) :
  incl unread lines ->
  (forall u, fst (skip_empty_lines unread) = Good u -> incl u lines)
  /\ (snd (skip_empty_lines unread) = ""
      \/ In (snd (skip_empty_lines unread)) lines).
Proof.
  induction unread as [|l rest IH]; intros Hin.
  - cbn. split; [discriminate|left; reflexivity].
  - assert (Hl : In l lines) by (apply Hin; left; reflexivity).
    assert (Hrest : incl rest lines) by (intros x Hx; apply Hin; right; exact Hx).
    cbn [skip_empty_lines]. destruct rest as [|l' rest'].
    + cbn. split; [discriminate|right; exact Hl].
    + destruct (slen l =? 0); [exact (IH Hrest)|].
      cbn [fst snd]. split; [|right; exact Hl].
      intros u Hu. injection Hu as <-. exact Hrest.
Qed.

Section ReaderSoundness.

Variable NDEBUG : bool.
Variable estimated_identity : string -> outcome spec_float.
Variable makeUpperCaseAndValidDNA : string -> string.
Variable querySequences : list (list (string * string)).
Variable lines : list string.

Local Abbreviation sound :=
  (from_the_input NDEBUG estimated_identity makeUpperCaseAndValidDNA
     querySequences lines).

Lemma pushed_record_is_sound (sequences : list (string * string))
  (name _seq l : string) (cur rec : MappingBoundaryRow) (rank : Z) :
  In sequences querySequences ->
  In (name, _seq) sequences ->
  In l lines ->
  parseMashmapRow NDEBUG estimated_identity l cur = Returns rec ->
  (qId rec =? name)%string = true ->
  sound (SeqRecord (set_rankMapping rec rank) l (makeUpperCaseAndValidDNA _seq)).
Proof.
  intros Hfile Hseq Hl Hrec Hid. apply String.eqb_eq in Hid.
  unfold from_the_input. cbn [mappingRecordLine currentRecord qSequence].
  split; [exact Hl|]. split.
  - exists cur, rec. split; [exact Hrec|reflexivity].
  - exists sequences, _seq. cbn [set_rankMapping qId]. rewrite Hid.
    repeat split; assumption.
Qed.

Lemma more_mappings_sound (sequences : list (string * string))
  (name _seq : string) (unread : list string) :
  In sequences querySequences ->
  In (name, _seq) sequences ->
  incl unread lines ->
  forall cur rank pushed0 st,
    Forall sound pushed0 ->
    more_mappings NDEBUG estimated_identity name
      (makeUpperCaseAndValidDNA _seq) unread cur rank pushed0 = Returns st ->
    Forall sound (pushed st) /\ within_the_file lines st.
Proof.
  intros Hfile Hseq. induction unread as [|l rest IH];
    intros Hin cur rank pushed0 st Hp H.
  - cbn in H. injection H as <-. split; [exact Hp|].
    split; [discriminate|left; reflexivity].
  - assert (Hl : In l lines) by (apply Hin; left; reflexivity).
    assert (Hrest : incl rest lines) by (intros x Hx; apply Hin; right; exact Hx).
    cbn [more_mappings] in H.
    assert (Hstream : forall u,
               match rest with [] => AtEof (slen l =? 0) | _ :: _ => Good rest end
               = Good u -> incl u lines).
    { destruct rest; [discriminate|]. intros u Hu. injection Hu as <-. exact Hrest. }
    destruct (fail match rest with
                   | [] => AtEof (slen l =? 0)
                   | _ :: _ => Good rest
                   end).
    + injection H as <-. split; [exact Hp|].
      split; [exact Hstream|right; exact Hl].
    + destruct (parseMashmapRow NDEBUG estimated_identity l cur)
        as [rec| | | |] eqn:Hrec; cbn [bind] in H; try discriminate.
      destruct (qId rec =? name)%string eqn:Hid; cbn [negb] in H.
      * assert (Hp' : Forall sound
                        (pushed0
                         ++ [SeqRecord (set_rankMapping rec rank) l
                               (makeUpperCaseAndValidDNA _seq)])%list).
        { apply Forall_app. split; [exact Hp|].
          constructor; [|constructor].
          exact (pushed_record_is_sound sequences name _seq l cur rec rank
                   Hfile Hseq Hl Hrec Hid). }
        destruct rest as [|l' rest'].
        -- injection H as <-. split; [exact Hp'|].
           split; [discriminate|right; exact Hl].
        -- exact (IH Hrest rec (rank + 1) _ st Hp' H).
      * injection H as <-. split; [exact Hp|].
        split; [exact Hstream|right; exact Hl].
Qed.

Lemma for_sequence_sound (sequences : list (string * string))
  (name _seq : string) (st st' : reader_state) :
  In sequences querySequences ->
  In (name, _seq) sequences ->
  Forall sound (pushed st) ->
  within_the_file lines st ->
  for_sequence NDEBUG estimated_identity makeUpperCaseAndValidDNA st name _seq
  = Returns st' ->
  Forall sound (pushed st') /\ within_the_file lines st'.
Proof.
  intros Hfile Hseq Hp [Hs Hl] H. unfold for_sequence in H.
  assert (Hfirst :
            (forall u, fst (first_line_to_parse (mappingListStream st)
                              (last_mappingRecordLine st)) = Good u ->
                       incl u lines)
            /\ (snd (first_line_to_parse (mappingListStream st)
                       (last_mappingRecordLine st)) = ""
                \/ In (snd (first_line_to_parse (mappingListStream st)
                              (last_mappingRecordLine st))) lines)).
  { unfold first_line_to_parse.
    destruct (mappingListStream st) as [unread|f] eqn:Es.
    - destruct (slen (last_mappingRecordLine st) =? 0).
      + apply skip_empty_lines_within. apply Hs. reflexivity.
      + cbn [fst snd]. split; [|exact Hl].
        intros u Hu. apply Hs. exact Hu.
    - cbn [fst snd]. split; [discriminate|exact Hl]. }
  destruct (first_line_to_parse (mappingListStream st)
              (last_mappingRecordLine st)) as [stream line].
  cbn [fst snd] in Hfirst. destruct Hfirst as [Hs' Hl'].
  destruct (slen line =? 0) eqn:Elen; cbn [negb] in H.
  - injection H as <-. split; [exact Hp|]. split; assumption.
  - assert (Hin : In line lines).
    { destruct Hl' as [->|Hin]; [discriminate Elen|exact Hin]. }
    destruct (parseMashmapRow NDEBUG estimated_identity line
                (last_currentRecord st)) as [rec| | | |] eqn:Hrec;
      cbn [bind] in H; try discriminate.
    destruct (qId rec =? name)%string eqn:Hid.
    + assert (Hp' : Forall sound
                      (pushed st
                       ++ [SeqRecord (set_rankMapping rec 0) line
                             (makeUpperCaseAndValidDNA _seq)])%list).
      { apply Forall_app. split; [exact Hp|].
        constructor; [|constructor].
        exact (pushed_record_is_sound sequences name _seq line _ rec 0
                 Hfile Hseq Hin Hrec Hid). }
      destruct stream as [unread|f].
      * exact (more_mappings_sound sequences name _seq unread Hfile Hseq
                 (Hs' unread eq_refl) rec 1 _ st' Hp' H).
      * injection H as <-. split; [exact Hp'|].
        split; [discriminate|right; exact Hin].
    + injection H as <-. split; [exact Hp|]. split; [exact Hs'|right; exact Hin].
Qed.

Lemma for_each_seq_sound (sequences : list (string * string)) :
  In sequences querySequences ->
  forall todo st st',
    incl todo sequences ->
    Forall sound (pushed st) ->
    within_the_file lines st ->
    for_each_seq_in_file NDEBUG estimated_identity makeUpperCaseAndValidDNA
      todo st = Returns st' ->
    Forall sound (pushed st').
Proof.
  intros Hfile. induction todo as [|[name _seq] todo IH];
    intros st st' Hin Hp Hw H.
  - injection H as <-. exact Hp.
  - cbn [for_each_seq_in_file] in H.
    destruct (for_sequence NDEBUG estimated_identity makeUpperCaseAndValidDNA
                st name _seq) as [st1| | | |] eqn:E1; cbn [bind] in H;
      try discriminate.
    destruct (for_sequence_sound sequences name _seq st st1 Hfile
                (Hin _ (or_introl eq_refl)) Hp Hw E1) as [Hp1 Hw1].
    apply (IH st1 st'); try assumption.
    intros x Hx. apply Hin. right. exact Hx.
Qed.

End ReaderSoundness.

(** X15.  Whatever the mapping file and the query files hold, a record
    the reader pushes is made of a line of the mapping file, as
    [parseMashmapRow] reads it, and of the bases, made upper case, of a
    sequence of a query file whose name is the query name of that line:
    no row is paired with another sequence, and no record is made for a
    query that is in none of the files. *)
Theorem reader_pushes_only_rows_of_the_sequences_it_reads :
  forall NDEBUG estimated_identity makeUpperCaseAndValidDNA querySequences
         file records,
    reader_thread NDEBUG estimated_identity makeUpperCaseAndValidDNA
      querySequences file [] = Returns records ->
    Forall (from_the_input NDEBUG estimated_identity makeUpperCaseAndValidDNA
              querySequences (getlines file ""))
           records.
Proof.
  intros NDEBUG ei upper files file records.
  assert (H : forall todo pushed0,
             incl todo files ->
             Forall (from_the_input NDEBUG ei upper files (getlines file ""))
                    pushed0 ->
             reader_thread NDEBUG ei upper todo file pushed0 = Returns records ->
             Forall (from_the_input NDEBUG ei upper files (getlines file ""))
                    records).
  { induction todo as [|sequences todo IH]; intros pushed0 Hin Hp H.
    - injection H as <-. exact Hp.
    - cbn [reader_thread] in H.
      destruct (for_each_seq_in_file NDEBUG ei upper sequences _)
        as [st| | | |] eqn:E; cbn [bind] in H; try discriminate.
      apply (IH (pushed st)); [|
        |exact H].
      + intros x Hx. apply Hin. right. exact Hx.
      + apply (for_each_seq_sound NDEBUG ei upper files (getlines file "")
                 sequences (Hin _ (or_introl eq_refl)) sequences _ st
                 (incl_refl _)) in E; [exact E|exact Hp|].
        split.
        * intros u Hu. cbn in Hu. unfold ifstream_open in Hu.
          injection Hu as <-. apply incl_refl.
        * left. reflexivity. }
  intros Hr. exact (H files [] (incl_refl _) (Forall_nil _) Hr).
Qed.

(** The three records pushed for the two queries above. *)
Lemma reader_on_two_queries_is_sound :
  Forall (from_the_input false identity_zero upper_case_stub
            [[("q1", "acgt"); ("q3", "ttt"); ("q2", "ggcc")]]
            (getlines two_queries_file ""))
    [SeqRecord (Row "q1" 0 50 FWD "t1" 10 60 (S754_zero false) 0)
       row_q1_first "acgt";
     SeqRecord (Row "q1" 50 100 REV "t2" 0 50 (S754_zero false) 1)
       row_q1_second "acgt";
     SeqRecord (Row "q2" 0 80 FWD "t1" 100 180 (S754_zero false) 0)
       row_q2_only "ggcc"].
Proof.
  apply (reader_pushes_only_rows_of_the_sequences_it_reads
           false identity_zero upper_case_stub
           [[("q1", "acgt"); ("q3", "ttt"); ("q2", "ggcc")]] two_queries_file).
  reflexivity.
Defined.

Section ReaderEdges.

Variable NDEBUG : bool.
Variable estimated_identity : string -> outcome spec_float.
Variable makeUpperCaseAndValidDNA : string -> string.

(** The callback with a row of another query in [mappingRecordLine]:
    nothing is read and nothing is pushed. *)
Lemma for_sequence_on_a_foreign_row (st : reader_state) (name _seq other : string) :
  row_of_query NDEBUG estimated_identity other (last_mappingRecordLine st) ->
  other <> name ->
  exists rec,
    for_sequence NDEBUG estimated_identity makeUpperCaseAndValidDNA st name _seq
    = Returns (ReaderState (mappingListStream st) (last_mappingRecordLine st)
                 rec (pushed st)).
Proof.
  intros [Hne Hparse] Hother. unfold for_sequence.
  assert (Hf : first_line_to_parse (mappingListStream st)
                 (last_mappingRecordLine st)
               = (mappingListStream st, last_mappingRecordLine st)).
  { unfold first_line_to_parse. destruct (mappingListStream st); [|reflexivity].
    rewrite Hne. reflexivity. }
  rewrite Hf, Hne. cbn [negb].
  destruct (Hparse (last_currentRecord st)) as (rec & Hrec & Hid).
  rewrite Hrec. cbn [bind]. rewrite Hid.
  replace (other =? name)%string with false
    by (symmetry; apply String.eqb_neq; exact Hother).
  exists rec. reflexivity.
Qed.

Lemma for_each_seq_on_a_foreign_row (sequences : list (string * string))
  (other : string) :
  ~ In other (map fst sequences) ->
  forall st,
    row_of_query NDEBUG estimated_identity other (last_mappingRecordLine st) ->
    exists st',
      for_each_seq_in_file NDEBUG estimated_identity makeUpperCaseAndValidDNA
        sequences st = Returns st'
      /\ pushed st' = pushed st.
Proof.
  induction sequences as [|[name _seq] sequences IH]; intros Hnot st Hrow.
  - exists st. split; reflexivity.
  - cbn [for_each_seq_in_file].
    destruct (for_sequence_on_a_foreign_row st name _seq other Hrow) as [rec Hrec].
    { intros E. apply Hnot. left. exact (eq_sym E). }
    rewrite Hrec. cbn [bind].
    destruct (IH (fun H => Hnot (or_intror H))
                (ReaderState (mappingListStream st) (last_mappingRecordLine st)
                   rec (pushed st)) Hrow) as (st' & Hst' & Hp).
    exists st'. split; [exact Hst'|exact Hp].
Qed.

Lemma for_each_seq_first_row_foreign (sequences : list (string * string))
  (other l : string) (rest : list string) (pushed0 : list seq_record_t) :
  ~ In other (map fst sequences) ->
  row_of_query NDEBUG estimated_identity other l ->
  exists st',
    for_each_seq_in_file NDEBUG estimated_identity makeUpperCaseAndValidDNA
      sequences (ReaderState (Good (l :: rest)) "" default_row pushed0)
    = Returns st'
    /\ pushed st' = pushed0.
Proof.
  intros Hnot Hrow. destruct sequences as [|[name _seq] sequences].
  - eexists. split; reflexivity.
  - cbn [for_each_seq_in_file]. destruct Hrow as [Hne Hparse].
    destruct (Hparse default_row) as (rec & Hrec & Hid).
    assert (Hother : (other =? name)%string = false).
    { apply String.eqb_neq. intros E. apply Hnot. left. exact (eq_sym E). }
    assert (Hcb : exists stream,
               for_sequence NDEBUG estimated_identity makeUpperCaseAndValidDNA
                 (ReaderState (Good (l :: rest)) "" default_row pushed0)
                 name _seq
               = Returns (ReaderState stream l rec pushed0)).
    { assert (Hf : first_line_to_parse (Good (l :: rest)) ""
                   = (match rest with
                      | [] => AtEof false
                      | _ :: _ => Good rest
                      end, l)).
      { cbn. destruct rest; rewrite Hne; reflexivity. }
      unfold for_sequence.
      cbn [mappingListStream last_mappingRecordLine last_currentRecord pushed].
      rewrite Hf, Hne. cbn [negb]. rewrite Hrec. cbn [bind].
      rewrite Hid, Hother. eexists. reflexivity. }
    destruct Hcb as [stream Hcb]. rewrite Hcb. cbn [bind].
    destruct (for_each_seq_on_a_foreign_row sequences other
                (fun H => Hnot (or_intror H))
                (ReaderState stream l rec pushed0) (conj Hne Hparse))
      as (st' & Hst' & Hp).
    exists st'. split; [exact Hst'|exact Hp].
Qed.

End ReaderEdges.

(** X16.  The reader goes through the mapping file and the query file
    side by side.  When the first line of the mapping file is a row of a
    query that is in none of the query files, that row is never passed:
    the reader pushes nothing at all, and ends normally, whatever rows
    follow. *)
Theorem reader_pushes_nothing_after_a_row_of_an_unknown_query :
  forall NDEBUG estimated_identity makeUpperCaseAndValidDNA querySequences
         file other l rest,
    getlines file "" = l :: rest ->
    row_of_query NDEBUG estimated_identity other l ->
    (forall sequences, In sequences querySequences ->
                       ~ In other (map fst sequences)) ->
    reader_thread NDEBUG estimated_identity makeUpperCaseAndValidDNA
      querySequences file [] = Returns [].
Proof.
  intros NDEBUG ei upper files file other l rest Hfile Hrow.
  assert (H : forall pushed0,
             (forall sequences, In sequences files ->
                                ~ In other (map fst sequences)) ->
             reader_thread NDEBUG ei upper files file pushed0
             = Returns pushed0).
  { induction files as [|sequences files IH]; intros pushed0 Hnot;
      [reflexivity|].
    cbn [reader_thread]. unfold ifstream_open. rewrite Hfile.
    destruct (for_each_seq_first_row_foreign NDEBUG ei upper sequences other l
                rest pushed0 (Hnot sequences (or_introl eq_refl)) Hrow)
      as (st' & Hst' & Hp).
    rewrite Hst'. cbn [bind]. rewrite Hp.
    apply IH. intros s Hs. apply Hnot. right. exact Hs. }
  exact (H []).
Qed.

(** The rows of q1 and q2, and a query file that holds q9 only. *)
Lemma reader_on_an_unknown_first_query :
  reader_thread false identity_zero upper_case_stub [[("q9", "aaa")]]
    two_queries_file []
  = Returns [].
Proof.
  apply (reader_pushes_nothing_after_a_row_of_an_unknown_query
           false identity_zero upper_case_stub [[("q9", "aaa")]]
           two_queries_file "q1" row_q1_first
           [row_q1_second; row_q2_only; ""]).
  - reflexivity.
  - split; [reflexivity|]. intros cur. eexists. split; reflexivity.
  - intros sequences [<-|[]]. cbn. intuition discriminate.
Defined.

(** X17.  An empty line right after the first row of the first query,
    and before the end of the file: the first pass skips it (line 174),
    but the loop of line 253 hands it to [parseMashmapRow], where the
    assertion of line 122 fails, or without assertions [tokens[12]] is
    read in an empty vector.  The reader does not return. *)
Theorem empty_line_after_a_row_stops_the_reader :
  forall NDEBUG estimated_identity makeUpperCaseAndValidDNA
         name _seq sequences querySequences file l rest,
    getlines file "" = l :: "" :: rest ->
    rest <> [] ->
    row_of_query NDEBUG estimated_identity name l ->
    (forall cur total,
        count_mapped_bases NDEBUG estimated_identity (getlines file "") cur total
        = count_mapped_bases NDEBUG estimated_identity (l :: rest) cur total)
    /\ reader_thread NDEBUG estimated_identity makeUpperCaseAndValidDNA
         (((name, _seq) :: sequences) :: querySequences) file []
       = (if NDEBUG then Undefined (vector_index 12 0)
          else AssertionFailed "tokens.size() >= 9").
Proof.
  intros NDEBUG ei upper name _seq sequences files file l rest Hfile Hrest
         [Hne Hparse].
  split.
  - intros cur total. rewrite Hfile. cbn [count_mapped_bases].
    rewrite Hne. cbn [negb slen String.length Z.of_nat Z.eqb].
    destruct (parseMashmapRow NDEBUG ei l cur); reflexivity.
  - cbn [reader_thread for_each_seq_in_file]. unfold ifstream_open.
    rewrite Hfile. unfold for_sequence.
    cbn [mappingListStream last_mappingRecordLine last_currentRecord pushed
         first_line_to_parse slen String.length Z.of_nat Z.eqb
         skip_empty_lines].
    rewrite Hne. cbn [negb]. rewrite Hne. cbn [negb].
    destruct (Hparse default_row) as (rec & Hrec & Hid).
    rewrite Hrec. cbn [bind]. rewrite Hid, string_eqb_refl.
    destruct rest as [|l' rest']; [congruence|].
    cbn [more_mappings fail].
    rewrite (parseMashmapRow_short NDEBUG ei "" rec) by (cbn; lia).
    destruct NDEBUG; reflexivity.
Qed.

(** A row of q1, an empty line, another row of q1. *)
Lemma reader_on_a_file_with_an_empty_line :
  reader_thread false identity_zero upper_case_stub [[("q1", "acgt")]]
    (row_q1_first ++ String "010" (String "010" row_q1_second)) []
  = AssertionFailed "tokens.size() >= 9".
Proof.
  apply (proj2 (empty_line_after_a_row_stops_the_reader
                  false identity_zero upper_case_stub "q1" "acgt" [] []
                  (row_q1_first ++ String "010" (String "010" row_q1_second))
                  row_q1_first [row_q1_second] eq_refl
                  ltac:(discriminate)
                  (conj eq_refl
                     (fun cur => ex_intro _ _ (conj eq_refl eq_refl))))).
Defined.

(** ** Further properties of the pipeline  (lines 181-407) *)

Section PipelineInvariants.

Variable doAlignment : seq_record_t -> nat -> string.

Lemma run_app (a b : list thread) (s : pipeline) :
  run doAlignment (a ++ b) s = run doAlignment b (run doAlignment a s).
Proof.
  revert s. induction a as [|t a IH]; intros s; [reflexivity|].
  cbn [app run]. destruct (step doAlignment t s); apply IH.
Qed.

(** What every step keeps holds in every state a schedule leads to. *)
Lemma run_keeps (I : pipeline -> Prop) :
  (forall t s s', step doAlignment t s = Some s' -> I s -> I s') ->
  forall schedule s, I s -> I (run doAlignment schedule s).
Proof.
  intros Hstep. induction schedule as [|t rest IH]; intros s H; [exact H|].
  cbn [run]. destruct (step doAlignment t s) eqn:E; apply IH; [|exact H].
  exact (Hstep t s p E H).
Qed.

(** *** The order of the work queue *)

(** A take is a step of a worker at line 340 that moves the head of
    [seq_queue] into the worker. *)
Lemma taken_by_is_a_pop (t : thread) (s : pipeline) (tid : nat)
  (rec : seq_record_t) :
  In (tid, rec) (taken_by t s) ->
  t = Worker tid
  /\ nth_error (workers s) tid = Some WTryPop
  /\ exists s',
       step doAlignment t s = Some s'
       /\ seq_queue s = rec :: seq_queue s'
       /\ nth_error (workers s') tid = Some (WAlign rec).
Proof.
  destruct t as [| |tid0]; cbn [taken_by]; try contradiction.
  destruct (nth_error (workers s) tid0) as [pc|] eqn:Ew; [|contradiction].
  destruct pc; try contradiction.
  destruct (seq_queue s) as [|r q] eqn:Eq; cbn [queue_try_pop];
    [contradiction|].
  intros [H|[]]. injection H as <- <-.
  split; [reflexivity|]. split; [exact Ew|].
  cbn [step]. unfold step_worker. rewrite Ew, Eq. cbn [queue_try_pop].
  eexists. split; [reflexivity|]. cbn [seq_queue workers].
  split; [reflexivity|]. exact (nth_error_update_eq _ _ _ _ Ew).
Qed.

(** A step moves records from the reader to the end of the queue and
    from its head to a worker, and nowhere else. *)
Lemma step_moves_records (t : thread) (s s' : pipeline) :
  step doAlignment t s = Some s' ->
  (seq_queue s ++ pending (reader s)
   = map snd (taken_by t s) ++ seq_queue s' ++ pending (reader s'))%list.
Proof.
  intros H. destruct t as [| |tid]; cbn [step taken_by map app] in *.
  - unfold step_reader in H. destruct (reader s) as [[|q rest]|] eqn:Er;
      [| |discriminate].
    + injection H as <-. reflexivity.
    + destruct (queue_push (seq_queue s) q) as [sq|] eqn:Eq; [|discriminate].
      injection H as <-. cbn [seq_queue reader pending].
      unfold queue_push in Eq.
      destruct (Z.of_nat (List.length (seq_queue s)) <? queue_capacity);
        [|discriminate].
      injection Eq as <-. rewrite <- app_assoc. reflexivity.
  - unfold step_writer, set_writer in H.
    destruct (writer s) as [|i|x|]; [| | |discriminate].
    + destruct (queue_try_pop (paf_queue s)) as [[x pq]|];
        injection H as <-; reflexivity.
    + destruct (nth_error (working s) i) as [[|]|];
        injection H as <-; reflexivity.
    + injection H as <-. reflexivity.
  - unfold step_worker, set_worker in H.
    destruct (nth_error (workers s) tid) as [pc|]; [|discriminate].
    destruct pc; try discriminate.
    + injection H as <-. reflexivity.
    + destruct (seq_queue s) as [|r q] eqn:Eq; cbn [queue_try_pop] in *;
        injection H as <-; cbn [seq_queue reader map app snd];
        rewrite ?Eq; reflexivity.
    + destruct (reader_done s); injection H as <-; reflexivity.
    + destruct (negb (slen (doAlignment rec tid) =? 0));
        injection H as <-; reflexivity.
    + destruct (queue_push (paf_queue s) paf_rec); [|discriminate].
      injection H as <-. reflexivity.
    + injection H as <-. reflexivity.
Qed.

Lemma takes_keep_the_order (schedule : list thread) :
  forall s,
    (seq_queue s ++ pending (reader s)
     = map snd (takes doAlignment schedule s)
       ++ seq_queue (run doAlignment schedule s)
       ++ pending (reader (run doAlignment schedule s)))%list.
Proof.
  induction schedule as [|t rest IH]; intros s; [reflexivity|].
  cbn [takes run]. destruct (step doAlignment t s) as [s'|] eqn:E; [|apply IH].
  rewrite (step_moves_records t s s' E), map_app, <- app_assoc.
  f_equal. apply IH.
Qed.

Lemma step_workers_length (t : thread) (s s' : pipeline) :
  step doAlignment t s = Some s' ->
  List.length (workers s') = List.length (workers s).
Proof.
  intros H. destruct t as [| |tid]; cbn [step] in H.
  - unfold step_reader in H. destruct (reader s) as [[|q rest]|];
      [| |discriminate].
    + injection H as <-. reflexivity.
    + destruct (queue_push (seq_queue s) q); [|discriminate].
      injection H as <-. reflexivity.
  - unfold step_writer, set_writer in H.
    destruct (writer s) as [|i|x|]; [| | |discriminate].
    + destruct (queue_try_pop (paf_queue s)) as [[x pq]|];
        injection H as <-; reflexivity.
    + destruct (nth_error (working s) i) as [[|]|];
        injection H as <-; reflexivity.
    + injection H as <-. reflexivity.
  - unfold step_worker, set_worker in H.
    destruct (nth_error (workers s) tid) as [pc|]; [|discriminate].
    destruct pc; try discriminate.
    + injection H as <-. apply length_update.
    + destruct (queue_try_pop (seq_queue s)) as [[rec sq]|];
        injection H as <-; apply length_update.
    + destruct (reader_done s); injection H as <-; apply length_update.
    + destruct (negb (slen (doAlignment rec tid) =? 0));
        injection H as <-; apply length_update.
    + destruct (queue_push (paf_queue s) paf_rec); [|discriminate].
      injection H as <-. apply length_update.
    + injection H as <-. apply length_update.
Qed.

(** Only the workers that exist take records. *)
Lemma takes_of_the_workers (schedule : list thread) :
  forall s,
    Forall (fun e => (fst e < List.length (workers s))%nat)
           (takes doAlignment schedule s).
Proof.
  induction schedule as [|t rest IH]; intros s; [apply Forall_nil|].
  cbn [takes]. destruct (step doAlignment t s) as [s'|] eqn:E; [|apply IH].
  apply Forall_app. split.
  - apply Forall_forall. intros [tid rec] Hin.
    destruct (taken_by_is_a_pop t s tid rec Hin) as (_ & Hw & _).
    cbn [fst]. apply nth_error_Some. rewrite Hw. discriminate.
  - rewrite <- (step_workers_length t s s' E). apply IH.
Qed.

(** The record a worker is aligning is one it took. *)
Lemma step_holds_a_taken_record (t : thread) (s s' : pipeline) (tid : nat)
  (rec : seq_record_t) :
  step doAlignment t s = Some s' ->
  nth_error (workers s') tid = Some (WAlign rec) ->
  nth_error (workers s) tid = Some (WAlign rec) \/ In (tid, rec) (taken_by t s).
Proof.
  intros H Hw'. destruct t as [| |tid0]; cbn [step] in H.
  - left. unfold step_reader in H. destruct (reader s) as [[|q rest]|];
      [| |discriminate].
    + injection H as <-. exact Hw'.
    + destruct (queue_push (seq_queue s) q); [|discriminate].
      injection H as <-. exact Hw'.
  - left. unfold step_writer, set_writer in H.
    destruct (writer s) as [|i|x|]; [| | |discriminate].
    + destruct (queue_try_pop (paf_queue s)) as [[x pq]|];
        injection H as <-; exact Hw'.
    + destruct (nth_error (working s) i) as [[|]|];
        injection H as <-; exact Hw'.
    + injection H as <-. exact Hw'.
  - cbn [taken_by]. unfold step_worker, set_worker in H.
    destruct (nth_error (workers s) tid0) as [pc|] eqn:Ew; [|discriminate].
    assert (Hupd : forall pc',
               nth_error (update (workers s) tid0 pc') tid = Some (WAlign rec) ->
               (tid0 = tid /\ pc' = WAlign rec)
               \/ nth_error (workers s) tid = Some (WAlign rec)).
    { intros pc' Hn. rewrite (nth_error_update _ _ _ _ _ Ew) in Hn.
      destruct (Nat.eqb tid0 tid) eqn:En.
      - apply Nat.eqb_eq in En. injection Hn as ->. left. split; [exact En|].
        reflexivity.
      - right. exact Hn. }
    destruct pc; try discriminate.
    + injection H as <-. cbn [workers] in Hw'.
      destruct (Hupd _ Hw') as [[_ Hpc]|Hold]; [discriminate|left; exact Hold].
    + destruct (queue_try_pop (seq_queue s)) as [[r sq]|].
      * injection H as <-. cbn [workers] in Hw'.
        destruct (Hupd _ Hw') as [[Ht Hpc]|Hold]; [|left; exact Hold].
        injection Hpc as ->. subst tid0. right. left. reflexivity.
      * injection H as <-. cbn [workers] in Hw'.
        destruct (Hupd _ Hw') as [[_ Hpc]|Hold];
          [discriminate|left; exact Hold].
    + destruct (reader_done s); injection H as <-; cbn [workers] in Hw';
        (destruct (Hupd _ Hw') as [[_ Hpc]|Hold];
         [discriminate|left; exact Hold]).
    + destruct (negb (slen (doAlignment rec0 tid0) =? 0));
        injection H as <-; cbn [workers] in Hw';
        (destruct (Hupd _ Hw') as [[_ Hpc]|Hold];
         [discriminate|left; exact Hold]).
    + destruct (queue_push (paf_queue s) paf_rec); [|discriminate].
      injection H as <-. cbn [workers] in Hw'.
      destruct (Hupd _ Hw') as [[_ Hpc]|Hold]; [discriminate|left; exact Hold].
    + injection H as <-. cbn [workers] in Hw'.
      destruct (Hupd _ Hw') as [[_ Hpc]|Hold]; [discriminate|left; exact Hold].
Qed.

Lemma run_holds_a_taken_record (schedule : list thread) :
  forall s tid rec,
    nth_error (workers (run doAlignment schedule s)) tid = Some (WAlign rec) ->
    nth_error (workers s) tid = Some (WAlign rec)
    \/ In (tid, rec) (takes doAlignment schedule s).
Proof.
  induction schedule as [|t rest IH]; intros s tid rec Hw; [left; exact Hw|].
  cbn [takes run] in *.
  destruct (step doAlignment t s) as [s'|] eqn:E; [|apply IH; exact Hw].
  destruct (IH s' tid rec Hw) as [Hs'|Hin].
  - destruct (step_holds_a_taken_record t s s' tid rec E Hs') as [Hs|Hin].
    + left. exact Hs.
    + right. apply in_or_app. left. exact Hin.
  - right. apply in_or_app. right. exact Hin.
Qed.

End PipelineInvariants.

(** X18.  The work queue hands the records out first in, first out,
    each to one worker.  Follow any schedule of the threads, with any
    number of workers, and write down every [try_pop] of line 340 that
    succeeds, with the worker and the record it gets.  Then the records
    of this trace, in the order of the takes, followed by those still
    in the queue and those the reader has yet to push, are the records
    of the input in their order: every take gets the next record of the
    mapping file, none is taken twice and none is passed over.  Every
    take is by one of the [nthreads] workers, and a worker that is
    aligning a record is in the trace with it. *)
Theorem records_are_taken_in_the_order_of_the_input :
  forall doAlignment to_push nthreads schedule,
    let s := run doAlignment schedule (launch to_push nthreads) in
    let trace := takes doAlignment schedule (launch to_push nthreads) in
    to_push = (map snd trace ++ seq_queue s ++ pending (reader s))%list
    /\ Forall (fun e => (fst e < nthreads)%nat) trace
    /\ (forall tid rec,
           nth_error (workers s) tid = Some (WAlign rec) ->
           In (tid, rec) trace).
Proof.
  intros doAlignment to_push nthreads schedule s trace. subst s trace.
  split; [|split].
  - exact (takes_keep_the_order doAlignment schedule (launch to_push nthreads)).
  - pose proof (takes_of_the_workers doAlignment schedule
                  (launch to_push nthreads)) as H.
    cbn [launch workers] in H. rewrite repeat_length in H. exact H.
  - intros tid rec Hw.
    destruct (run_holds_a_taken_record doAlignment schedule _ tid rec Hw)
      as [H0|Hin]; [|exact Hin].
    cbn [launch workers] in H0. apply nth_error_In, repeat_spec in H0.
    discriminate.
Qed.

(** Two workers and two records: worker 1 is first at the queue and
    takes the first record, worker 0 the second. *)
Example takes_of_two_workers :
  takes align_to_x
    [Reader; Reader; Worker 1; Worker 0; Worker 1; Worker 0]%nat
    (launch [one_record; record_in_the_middle] 2)
  = [(1, one_record); (0, record_in_the_middle)]%nat.
Proof. reflexivity. Qed.

(** *** Where the results come from *)

Section Provenance.

Variable doAlignment : seq_record_t -> nat -> string.
Variable to_push : list seq_record_t.
Variable nthreads : nat.

Local Abbreviation result := (is_result doAlignment to_push nthreads).

Lemma launch_provenance : provenance doAlignment to_push nthreads (launch to_push nthreads).
Proof.
  unfold provenance, launch. cbn.
  rewrite repeat_length. split; [reflexivity|].
  repeat split; try contradiction; try discriminate; try (intros; assumption).
  - intros tid x H. apply nth_error_In, repeat_spec in H. discriminate.
  - intros tid rec H. apply nth_error_In, repeat_spec in H. discriminate.
Qed.

Lemma step_provenance (t : thread) (s s' : pipeline) :
  step doAlignment t s = Some s' ->
  provenance doAlignment to_push nthreads s ->
  provenance doAlignment to_push nthreads s'.
Proof.
  intros H (Hlen & Hout & Hpaf & Hwr & Hpush & Halign & Hseq & Hpend).
  destruct t as [| |tid]; cbn [step] in H.
  - unfold step_reader in H. destruct (reader s) as [[|q rest]|] eqn:Er;
      [| |discriminate].
    + injection H as <-. unfold provenance. cbn.
      repeat split; auto; contradiction.
    + destruct (queue_push (seq_queue s) q) as [sq|] eqn:Eq; [|discriminate].
      injection H as <-. unfold queue_push in Eq.
      destruct (Z.of_nat (List.length (seq_queue s)) <? queue_capacity);
        [|discriminate].
      injection Eq as <-. unfold provenance. cbn.
      cbn [pending] in Hpend.
      repeat split; auto.
      * intros rec Hin. apply in_app_or in Hin as [Hin|[<-|[]]]; auto.
        apply Hpend. left. reflexivity.
      * intros rec Hin. apply Hpend. right. exact Hin.
  - unfold step_writer, set_writer in H.
    destruct (writer s) as [|i|x|] eqn:Ew; [| | |discriminate].
    + destruct (queue_try_pop (paf_queue s)) as [[x pq]|] eqn:Eq.
      * injection H as <-. destruct (paf_queue s) as [|y q'] eqn:Ep;
          [discriminate|]. cbn in Eq. injection Eq as -> ->.
        unfold provenance. cbn. repeat split; auto.
        -- intros y Hin. apply Hpaf. right. exact Hin.
        -- intros y Hy. injection Hy as <-. apply Hpaf. left. reflexivity.
      * injection H as <-. unfold provenance. cbn.
        repeat split; auto. discriminate.
    + destruct (nth_error (working s) i) as [[|]|];
        injection H as <-; unfold provenance; cbn;
        repeat split; auto; discriminate.
    + injection H as <-. unfold provenance. cbn. repeat split; auto.
      * intros y Hin. apply in_app_or in Hin as [Hin|[<-|[]]]; auto.
      * discriminate.
  - unfold step_worker, set_worker in H.
    destruct (nth_error (workers s) tid) as [pc|] eqn:Hpc; [|discriminate].
    assert (Htid : (tid < nthreads)%nat).
    { rewrite <- Hlen. apply nth_error_Some. congruence. }
    assert (Hothers : forall pc',
               (forall x, pc' <> WPush x) -> (forall rec, pc' <> WAlign rec) ->
               (forall j x, nth_error (update (workers s) tid pc') j
                            = Some (WPush x) -> result x)
               /\ (forall j rec, nth_error (update (workers s) tid pc') j
                                 = Some (WAlign rec) -> In rec to_push)).
    { intros pc' Hp Ha. split; intros j y Hj;
        rewrite (nth_error_update _ tid j _ _ Hpc) in Hj;
        destruct (Nat.eqb tid j).
      - injection Hj as Hj. exfalso. exact (Hp y Hj).
      - exact (Hpush j y Hj).
      - injection Hj as Hj. exfalso. exact (Ha y Hj).
      - exact (Halign j y Hj). }
    destruct pc; try discriminate.
    + injection H as <-. unfold provenance. cbn. rewrite length_update.
      destruct (Hothers WTryPop) as [H1 H2]; try discriminate.
      repeat split; auto.
    + destruct (queue_try_pop (seq_queue s)) as [[rec sq]|] eqn:Eq.
      * injection H as <-. destruct (seq_queue s) as [|r q'] eqn:Es;
          [discriminate|]. cbn in Eq. injection Eq as -> ->.
        unfold provenance. cbn. rewrite length_update.
        repeat split; auto.
        -- intros j y Hj. rewrite (nth_error_update _ tid j _ _ Hpc) in Hj.
           destruct (Nat.eqb tid j); [discriminate|exact (Hpush j y Hj)].
        -- intros j y Hj. rewrite (nth_error_update _ tid j _ _ Hpc) in Hj.
           destruct (Nat.eqb tid j); [|exact (Halign j y Hj)].
           injection Hj as <-. apply Hseq. left. reflexivity.
        -- intros y Hin. apply Hseq. right. exact Hin.
      * injection H as <-. unfold provenance. cbn. rewrite length_update.
        destruct (Hothers WReaderDone) as [H1 H2]; try discriminate.
        repeat split; auto.
    + destruct (reader_done s); injection H as <-; unfold provenance; cbn;
        rewrite length_update.
      * destruct (Hothers WStoreIdle) as [H1 H2]; try discriminate.
        repeat split; auto.
      * destruct (Hothers WTryPop) as [H1 H2]; try discriminate.
        repeat split; auto.
    + destruct (negb (slen (doAlignment rec tid) =? 0)) eqn:Ene;
        injection H as <-; unfold provenance; cbn; rewrite length_update.
      * repeat split; auto.
        -- intros j y Hj. rewrite (nth_error_update _ tid j _ _ Hpc) in Hj.
           destruct (Nat.eqb tid j); [|exact (Hpush j y Hj)].
           injection Hj as <-. exists rec, tid.
           apply negb_true_iff in Ene.
           repeat split; try assumption. exact (Halign tid rec Hpc).
        -- intros j y Hj. rewrite (nth_error_update _ tid j _ _ Hpc) in Hj.
           destruct (Nat.eqb tid j); [discriminate|exact (Halign j y Hj)].
      * destruct (Hothers WTryPop) as [H1 H2]; try discriminate.
        repeat split; auto.
    + destruct (queue_push (paf_queue s) paf_rec) as [pq|] eqn:Eq;
        [|discriminate].
      injection H as <-. unfold queue_push in Eq.
      destruct (Z.of_nat (List.length (paf_queue s)) <? queue_capacity);
        [|discriminate].
      injection Eq as <-. unfold provenance. cbn. rewrite length_update.
      destruct (Hothers WTryPop) as [H1 H2]; try discriminate.
      repeat split; auto.
      intros y Hin. apply in_app_or in Hin as [Hin|[<-|[]]];
        [auto|exact (Hpush tid _ Hpc)].
    + injection H as <-. unfold provenance. cbn. rewrite length_update.
      destruct (Hothers WExited) as [H1 H2]; try discriminate.
      repeat split; auto.
Qed.

End Provenance.

(** X19.  Whatever the schedule and the number of workers, every string
    the writer has written to the output is what [doAlignment] left for
    a record of the input on one of the worker threads, and is not
    empty: the pipeline writes nothing of its own, and an alignment
    without output (line 359) is never written. *)
Theorem writer_writes_only_results_of_the_input :
  forall doAlignment to_push nthreads schedule,
    let s := run doAlignment schedule (launch to_push nthreads) in
    forall x, In x (outstrm s) ->
      exists rec tid,
        In rec to_push /\ (tid < nthreads)%nat
        /\ x = doAlignment rec tid /\ x <> "".
Proof.
  intros doAlignment to_push nthreads schedule s x Hx. subst s.
  pose proof (run_keeps doAlignment
                (provenance doAlignment to_push nthreads)
                (fun t s s' => step_provenance doAlignment to_push nthreads t s s')
                schedule _ (launch_provenance doAlignment to_push nthreads))
    as (_ & Hout & _).
  destruct (Hout x Hx) as (rec & tid & Hin & Htid & Hx' & Hne).
  exists rec, tid. repeat split; try assumption.
  intros E. rewrite E in Hne. discriminate Hne.
Qed.

(** The record of [one_record] written by worker 0. *)
Lemma written_result_of_one_record :
  let s := run align_to_x
             [Reader; Reader; Worker 0; Worker 0; Worker 0; Worker 0;
              Worker 0; Worker 0; Worker 0; Writer; Writer; Writer; Writer;
              Writer; Writer]%nat
             (launch [one_record] 1) in
  outstrm s = ["x"]
  /\ exists rec tid,
       In rec [one_record] /\ (tid < 1)%nat
       /\ "x" = align_to_x rec tid /\ "x" <> "".
Proof.
  cbv zeta. split; [reflexivity|].
  apply (writer_writes_only_results_of_the_input align_to_x [one_record] 1
           [Reader; Reader; Worker 0; Worker 0; Worker 0; Worker 0;
            Worker 0; Worker 0; Worker 0; Writer; Writer; Writer; Writer;
            Writer; Writer]%nat "x").
  left. reflexivity.
Defined.

(** *** The last thread to return *)

Lemma step_reader_done (doAlignment : seq_record_t -> nat -> string)
  (t : thread) (s s' : pipeline) :
  step doAlignment t s = Some s' ->
  (reader_done s = true -> reader s = RFinished) ->
  reader_done s' = true -> reader s' = RFinished.
Proof.
  intros H Hinv. destruct t as [| |tid]; cbn [step] in H.
  - unfold step_reader in H. destruct (reader s) as [[|q rest]|] eqn:Er;
      [| |discriminate].
    + injection H as <-. reflexivity.
    + destruct (queue_push (seq_queue s) q); [|discriminate].
      injection H as <-. cbn. intros Hd. specialize (Hinv Hd). discriminate.
  - unfold step_writer, set_writer in H.
    destruct (writer s) as [|i|x|]; [| | |discriminate].
    + destruct (queue_try_pop (paf_queue s)) as [[x pq]|];
        injection H as <-; exact Hinv.
    + destruct (nth_error (working s) i) as [[|]|];
        injection H as <-; exact Hinv.
    + injection H as <-. exact Hinv.
  - unfold step_worker, set_worker in H.
    destruct (nth_error (workers s) tid) as [pc|]; [|discriminate].
    destruct pc; try discriminate.
    + injection H as <-. exact Hinv.
    + destruct (queue_try_pop (seq_queue s)) as [[rec sq]|];
        injection H as <-; exact Hinv.
    + destruct (reader_done s) eqn:Ed; injection H as <-; cbn;
        rewrite ?Ed; exact Hinv.
    + destruct (negb (slen (doAlignment rec tid) =? 0));
        injection H as <-; exact Hinv.
    + destruct (queue_push (paf_queue s) paf_rec); [|discriminate].
      injection H as <-. exact Hinv.
    + injection H as <-. exact Hinv.
Qed.

Lemma forallb_nth_error {A} (f : A -> bool) (l : list A) :
  (forall j a, nth_error l j = Some a -> f a = true) -> forallb f l = true.
Proof.
  induction l as [|x l IH]; intros H; [reflexivity|].
  cbn [forallb]. rewrite (H 0%nat x eq_refl). cbn [andb].
  apply IH. intros j a Hj. exact (H (S j) a Hj).
Qed.

(** X20.  With at least one worker, the writer is the last thread to
    return, whatever the schedule: when it has left its loop (line 298)
    every worker has stored false in its flag and returned, and the
    reader has set [reader_done] and returned. *)
Theorem writer_is_the_last_thread_to_return :
  forall doAlignment to_push nthreads schedule,
    let s := run doAlignment schedule (launch to_push nthreads) in
    (0 < nthreads)%nat ->
    writer s = PExited ->
    all_joined s = true
    /\ reader_done s = true
    /\ Forall (fun w => w = false) (working s).
Proof.
  intros doAlignment to_push nthreads schedule s Hn Hw. subst s.
  set (s := run doAlignment schedule (launch to_push nthreads)) in *.
  pose proof (run_shutdown_invariant doAlignment schedule _
                (launch_shutdown_invariant to_push nthreads))
    as (Hlen & Hfalse & Hdone & _ & Hexit).
  fold s in Hlen, Hfalse, Hdone, Hexit.
  pose proof (run_keeps doAlignment (provenance doAlignment to_push nthreads)
                (fun t s s' => step_provenance doAlignment to_push nthreads t s s')
                schedule _ (launch_provenance doAlignment to_push nthreads))
    as (Hcount & _).
  fold s in Hcount.
  pose proof (run_keeps doAlignment
                (fun s => reader_done s = true -> reader s = RFinished)
                (step_reader_done doAlignment) schedule
                (launch to_push nthreads) ltac:(discriminate)) as Hreader.
  fold s in Hreader.
  assert (Hall : forall j pc, nth_error (workers s) j = Some pc -> pc = WExited).
  { intros j pc Hj.
    assert (Hlt : (j < List.length (working s))%nat).
    { rewrite Hlen. apply nth_error_Some. congruence. }
    specialize (Hfalse j (Hexit Hw j Hlt)). congruence. }
  assert (Hrd : reader_done s = true).
  { destruct (nth_error (workers s) 0) as [pc|] eqn:E0.
    - apply (Hdone 0%nat). right. rewrite E0, (Hall _ _ E0). reflexivity.
    - apply nth_error_None in E0. lia. }
  split; [|split; [exact Hrd|]].
  - unfold all_joined. rewrite (Hreader Hrd), Hw.
    apply forallb_nth_error. intros j pc Hj. rewrite (Hall j pc Hj). reflexivity.
  - apply Forall_forall. intros w Hin.
    apply In_nth_error in Hin as [j Hj].
    assert (Hlt : (j < List.length (working s))%nat).
    { apply nth_error_Some. congruence. }
    specialize (Hexit Hw j Hlt). congruence.
Qed.

(** The reader and one worker on one record, the writer last. *)
Lemma writer_returns_last_on_one_record :
  let s := run align_to_x
             [Reader; Reader; Worker 0; Worker 0; Worker 0; Worker 0;
              Worker 0; Worker 0; Worker 0; Writer; Writer; Writer; Writer;
              Writer; Writer]%nat
             (launch [one_record] 1) in
  writer s = PExited
  /\ all_joined s = true
  /\ reader_done s = true
  /\ Forall (fun w => w = false) (working s).
Proof.
  cbv zeta. split; [reflexivity|].
  apply (writer_is_the_last_thread_to_return align_to_x [one_record] 1
           [Reader; Reader; Worker 0; Worker 0; Worker 0; Worker 0;
            Worker 0; Worker 0; Worker 0; Writer; Writer; Writer; Writer;
            Writer; Writer]%nat); [lia|reflexivity].
Defined.

(** *** One worker: the order of the output *)

Section OneWorkerFacts.

Variable doAlignment : seq_record_t -> nat -> string.

Local Abbreviation out := (outputs doAlignment).

Lemma outputs_app (a b : list seq_record_t) :
  out (a ++ b)%list = (out a ++ out b)%list.
Proof.
  induction a as [|r a IH]; [reflexivity|]. cbn [app outputs].
  destruct (negb (slen (doAlignment r 0) =? 0)); rewrite IH; reflexivity.
Qed.

Lemma launch_in_input_order (to_push : list seq_record_t) :
  in_input_order doAlignment to_push (launch to_push 1).
Proof. exists WStart. split; reflexivity. Qed.

Lemma step_in_input_order (to_push : list seq_record_t) (t : thread)
  (s s' : pipeline) :
  step doAlignment t s = Some s' ->
  in_input_order doAlignment to_push s ->
  in_input_order doAlignment to_push s'.
Proof.
  intros H (pc & Hw & Hord). unfold in_input_order.
  destruct t as [| |tid]; cbn [step] in H.
  - unfold step_reader in H. destruct (reader s) as [[|q rest]|] eqn:Er;
      [| |discriminate].
    + injection H as <-. exists pc. cbn. cbn [pending] in Hord.
      split; [exact Hw|exact Hord].
    + destruct (queue_push (seq_queue s) q) as [sq|] eqn:Eq; [|discriminate].
      injection H as <-. unfold queue_push in Eq.
      destruct (Z.of_nat (List.length (seq_queue s)) <? queue_capacity);
        [|discriminate].
      injection Eq as <-. exists pc. cbn. cbn [pending] in Hord.
      split; [exact Hw|]. rewrite <- Hord, <- !app_assoc. reflexivity.
  - unfold step_writer, set_writer in H.
    destruct (writer s) as [|i|x|] eqn:Ew; [| | |discriminate].
    + destruct (queue_try_pop (paf_queue s)) as [[x pq]|] eqn:Eq.
      * injection H as <-. destruct (paf_queue s) as [|y q'] eqn:Ep;
          [discriminate|]. cbn in Eq. injection Eq as -> ->.
        exists pc. cbn. split; [exact Hw|]. rewrite <- Hord. reflexivity.
      * injection H as <-. exists pc. cbn. split; [exact Hw|exact Hord].
    + destruct (nth_error (working s) i) as [[|]|];
        injection H as <-; exists pc; cbn; (split; [exact Hw|exact Hord]).
    + injection H as <-. exists pc. cbn. split; [exact Hw|].
      rewrite <- Hord. cbn [held_by_writer]. rewrite <- !app_assoc.
      reflexivity.
  - unfold step_worker, set_worker in H. rewrite Hw in H.
    destruct tid as [|tid]; [|destruct tid; discriminate].
    cbn [nth_error update] in H.
    destruct pc; try discriminate.
    + injection H as <-. exists WTryPop. cbn. split; [reflexivity|exact Hord].
    + destruct (queue_try_pop (seq_queue s)) as [[rec sq]|] eqn:Eq.
      * injection H as <-. destruct (seq_queue s) as [|r q'] eqn:Es;
          [discriminate|]. cbn in Eq. injection Eq as -> ->.
        exists (WAlign rec). cbn [workers outstrm writer paf_queue seq_queue
                               reader held_by_worker].
        split; [reflexivity|]. rewrite <- Hord.
        cbn [held_by_worker app].
        change (rec :: (sq ++ pending (reader s)))%list
          with ([rec] ++ (sq ++ pending (reader s)))%list.
        rewrite (outputs_app [rec]). reflexivity.
      * injection H as <-. exists WReaderDone. cbn.
        split; [reflexivity|exact Hord].
    + destruct (reader_done s); injection H as <-;
        [exists WStoreIdle|exists WTryPop]; cbn;
        (split; [reflexivity|exact Hord]).
    + cbn [held_by_worker outputs] in Hord.
      destruct (negb (slen (doAlignment rec 0) =? 0)) eqn:Ene;
        injection H as <-;
        [exists (WPush (doAlignment rec 0))|exists WTryPop]; cbn;
        (split; [reflexivity|exact Hord]).
    + destruct (queue_push (paf_queue s) paf_rec) as [pq|] eqn:Eq;
        [|discriminate].
      injection H as <-. unfold queue_push in Eq.
      destruct (Z.of_nat (List.length (paf_queue s)) <? queue_capacity);
        [|discriminate].
      injection Eq as <-. exists WTryPop. cbn. split; [reflexivity|].
      rewrite <- Hord. cbn [held_by_worker]. rewrite <- !app_assoc.
      reflexivity.
    + injection H as <-. exists WExited. cbn. split; [reflexivity|exact Hord].
Qed.

Lemma run_cons (t : thread) (rest : list thread) (s s' : pipeline) :
  step doAlignment t s = Some s' ->
  run doAlignment (t :: rest) s = run doAlignment rest s'.
Proof. intros H. cbn [run]. rewrite H. reflexivity. Qed.

(** The records one after the other on the schedule [one_at_a_time]. *)
Lemma one_at_a_time_run (to_push : list seq_record_t) :
  forall written,
    run doAlignment (one_at_a_time doAlignment to_push)
      {| reader := RPush to_push; seq_queue := []; paf_queue := [];
         reader_done := false; working := [true]; workers := [WTryPop];
         writer := PTryPop; outstrm := written |}
    = {| reader := RPush []; seq_queue := []; paf_queue := [];
         reader_done := false; working := [true]; workers := [WTryPop];
         writer := PTryPop; outstrm := (written ++ out to_push)%list |}.
Proof.
  induction to_push as [|rec rest IH]; intros written.
  - cbn. rewrite app_nil_r. reflexivity.
  - cbn [one_at_a_time outputs].
    destruct (negb (slen (doAlignment rec 0) =? 0)) eqn:Ene; cbn [app].
    + erewrite run_cons by reflexivity.
      erewrite run_cons by reflexivity.
      erewrite run_cons
        by (cbn [step step_worker workers nth_error update set_worker];
            rewrite Ene; reflexivity).
      erewrite run_cons by reflexivity.
      erewrite run_cons by reflexivity.
      erewrite run_cons by reflexivity.
      cbn [set_worker set_writer update app reader seq_queue paf_queue
           reader_done working workers writer outstrm].
      rewrite IH, <- app_assoc. reflexivity.
    + erewrite run_cons by reflexivity.
      erewrite run_cons by reflexivity.
      erewrite run_cons
        by (cbn [step step_worker workers nth_error update set_worker];
            rewrite Ene; reflexivity).
      cbn [set_worker set_writer update app reader seq_queue paf_queue
           reader_done working workers writer outstrm].
      apply IH.
Qed.

End OneWorkerFacts.

(** X21.  With one worker, the number of threads without -t, the
    results are written in the order of the input: whatever the
    schedule, what the writer has written so far is the beginning of the
    list of the results of the records, those without output left out. *)
Theorem one_worker_writes_in_the_order_of_the_input :
  forall doAlignment to_push schedule,
    let s := run doAlignment schedule (launch to_push 1) in
    exists to_come,
      (outstrm s ++ to_come)%list = outputs doAlignment to_push.
Proof.
  intros doAlignment to_push schedule s. subst s.
  destruct (run_keeps doAlignment (in_input_order doAlignment to_push)
              (step_in_input_order doAlignment to_push)
              schedule _ (launch_in_input_order doAlignment to_push))
    as (pc & _ & Hord).
  eexists. exact Hord.
Qed.

(** X22.  The pipeline can do all of its work: on the schedule where
    each record is pushed, aligned and written before the next is
    pushed, for any input, however long, every thread returns, both
    queues are empty, and the output holds the results of all the
    records, in their order. *)
Theorem sequential_schedule_writes_every_result :
  forall doAlignment to_push,
    let s := run doAlignment (sequential_schedule doAlignment to_push)
               (launch to_push 1) in
    all_joined s = true
    /\ seq_queue s = []
    /\ paf_queue s = []
    /\ outstrm s = outputs doAlignment to_push.
Proof.
  intros doAlignment to_push s. subst s. unfold sequential_schedule.
  rewrite run_app.
  change (run doAlignment [Worker 0] (launch to_push 1))
    with {| reader := RPush to_push; seq_queue := []; paf_queue := [];
            reader_done := false; working := [true]; workers := [WTryPop];
            writer := PTryPop; outstrm := [] |}.
  rewrite run_app, one_at_a_time_run. cbn [app].
  repeat split.
Qed.

(** *** No worker *)

Lemma step_idle_pipeline (doAlignment : seq_record_t -> nat -> string)
  (to_push : list seq_record_t) (t : thread) (s s' : pipeline) :
  step doAlignment t s = Some s' ->
  idle_pipeline to_push s -> idle_pipeline to_push s'.
Proof.
  intros H (Hw & Hf & Hp & Ho & Hwr & Hq). unfold idle_pipeline.
  destruct t as [| |tid]; cbn [step] in H.
  - unfold step_reader in H. destruct (reader s) as [[|q rest]|] eqn:Er;
      [| |discriminate].
    + injection H as <-. cbn. cbn [pending] in Hq. repeat split; assumption.
    + destruct (queue_push (seq_queue s) q) as [sq|] eqn:Eq; [|discriminate].
      injection H as <-. unfold queue_push in Eq.
      destruct (Z.of_nat (List.length (seq_queue s)) <? queue_capacity);
        [|discriminate].
      injection Eq as <-. cbn. cbn [pending] in Hq.
      repeat split; try assumption. rewrite <- Hq, <- app_assoc. reflexivity.
  - unfold step_writer, set_writer in H.
    destruct (writer s) as [|i|x|] eqn:Ew; [| | |discriminate].
    + rewrite Hp in H. cbn in H. injection H as <-. cbn.
      repeat split; try assumption. discriminate.
    + rewrite Hf in H. destruct i; cbn in H; injection H as <-; cbn;
        repeat split; try assumption; discriminate.
    + exfalso. exact (Hwr x eq_refl).
  - unfold step_worker in H. rewrite Hw in H. destruct tid; discriminate.
Qed.

(** X23.  With no worker, which is what a thread count of 0 gives,
    nothing is aligned: whatever the schedule, no record leaves the work
    queue, the result queue stays empty and nothing is written, while
    the writer, which finds no worker working, returns after its first
    failed pop. *)
Theorem without_a_worker_nothing_is_written :
  forall doAlignment to_push schedule,
    let s := run doAlignment schedule (launch to_push 0) in
    outstrm s = []
    /\ paf_queue s = []
    /\ (seq_queue s ++ pending (reader s))%list = to_push
    /\ writer (run doAlignment [Writer; Writer] (launch to_push 0)) = PExited.
Proof.
  intros doAlignment to_push schedule s. subst s.
  destruct (run_keeps doAlignment (idle_pipeline to_push)
              (step_idle_pipeline doAlignment to_push) schedule
              (launch to_push 0))
    as (_ & _ & Hp & Ho & _ & Hq).
  { unfold idle_pipeline, launch. cbn. repeat split. discriminate. }
  repeat split; assumption.
Qed.

(** ** Further properties of the regions of [doAlignment]
    (lines 438-450) *)

Lemma to_uint64_negative (z : Z) : - 2 ^ 64 <= z < 0 -> to_uint64 z = z + 2 ^ 64.
Proof.
  intros H. unfold to_uint64.
  rewrite <- (Z.mod_add z 1 (2 ^ 64)) by lia.
  apply Z.mod_small. lia.
Qed.

(** X24.  Lines 441-442 compare in [uint64_t].  For a row that ends
    beyond the end of its target, or names a target the index does not
    know ([faidx_seq_len] gives -1), [ref_size - rEndPos] wraps to a
    huge number: the tail flank is not cut down, it is the whole
    [wflign_max_len_minor], and the range asked of
    [faidx_fetch_seq64] ends beyond the target. *)
Theorem tail_flank_is_not_clipped_when_the_row_ends_beyond_the_target :
  forall wflign_max_len_minor ref_size rec,
    0 <= wflign_max_len_minor < 2 ^ 62 ->
    0 <= rEndPos rec <= 2 ^ 31 - 1 ->
    -1 <= ref_size < rEndPos rec ->
    let r := doAlignment_regions wflign_max_len_minor ref_size rec in
    tail_padding r = wflign_max_len_minor
    /\ fetch_end r = rEndPos rec + wflign_max_len_minor
    /\ ref_size < fetch_end r.
Proof.
  intros minor ref_size rec Hm He Hr r. subst r.
  unfold doAlignment_regions. cbn [tail_padding fetch_end].
  rewrite (to_uint64_negative (ref_size - rEndPos rec)) by lia.
  replace (minor <=? ref_size - rEndPos rec + 2 ^ 64) with true
    by (symmetry; apply Z.leb_le; lia).
  rewrite (to_uint64_small (rEndPos rec + minor)) by lia.
  rewrite to_int64_small by lia.
  repeat split; lia.
Qed.

(** A row that ends at base 60 of a target of 50 bases. *)
Lemma regions_of_a_row_beyond_the_target :
  let r := doAlignment_regions 128000 50 row_near_start in
  tail_padding r = 128000 /\ fetch_end r = 128060 /\ 50 < fetch_end r.
Proof.
  apply (tail_flank_is_not_clipped_when_the_row_ends_beyond_the_target
           128000 50 row_near_start); cbn; lia.
Defined.



